(** * SecureAgentBase: Remote Config diff/sync, deploy loop and client glue

    A shallow embedding of the scripts under [scripts/framework] (the
    Remote Config validator, the deploy script, the Remote Config setter)
    and of the client modules (auth context, Remote Config fetch, the
    feature-flag hook), with the properties of their specification.

    Conventions.
    - A JavaScript string is a [string]; characters are code units below
      256.  Template literals are concatenations with [+:+].
    - A JavaScript object used as a record of named entries is an
      association list of its own entries in insertion order ([obj]);
      [JSON.parse] yields objects whose keys are distinct.  A property
      read [o[k]] follows the prototype chain ([obj_lookup]): every such
      object inherits the properties of [Object.prototype], taken as a
      Node process starts with it.
    - [undefined] is [None]; [a?.b] is a bind in the option monad;
      [a || d] on an object-or-undefined is [default d a]. *)

From Stdlib Require Import Ascii String.
From stdpp Require Import base option list strings gmap pretty.

Local Open Scope string_scope.
Local Open Scope list_scope.
#[local] Set Warnings "-clear-no-such-hyp".

(** ** JavaScript basics *)

Module JS.

(** A JavaScript object: own enumerable string-keyed entries, in insertion
    order. *)
Definition obj (V : Type) : Type := list (string * V).

(** The own entry of [o] under [k] ([Object.hasOwn(o, k)] and then
    [o[k]]), [undefined] when there is none. *)
Fixpoint obj_get {V : Type} (o : obj V) (k : string) : option V :=
  match o with
  | [] => None
  | (k', v) :: o' => if bool_decide (k' = k) then Some v else obj_get o' k
  end.

(** [o[k] = v] on own entries: overwrite in place, or append a new
    entry. *)
Fixpoint obj_set {V : Type} (o : obj V) (k : string) (v : V) : obj V :=
  match o with
  | [] => [(k, v)]
  | (k', v') :: o' =>
      if bool_decide (k' = k) then (k', v) :: o' else (k', v') :: obj_set o' k v
  end.

(** [o[k].f = ...]: an update of the entry stored under [k], in place. *)
Fixpoint obj_alter {V : Type} (f : V -> V) (k : string) (o : obj V) : obj V :=
  match o with
  | [] => []
  | (k', v) :: o' =>
      if bool_decide (k' = k) then (k', f v) :: o' else (k', v) :: obj_alter f k o'
  end.

(** The names of the properties of [Object.prototype]
    ([Object.getOwnPropertyNames(Object.prototype)]), which every object
    literal and every object made by [JSON.parse] inherits.  All are
    functions but [__proto__], an accessor that yields the prototype
    itself. *)
Definition Object_prototype : list string :=
  ["constructor"; "__defineGetter__"; "__defineSetter__"; "hasOwnProperty";
   "__lookupGetter__"; "__lookupSetter__"; "isPrototypeOf"; "propertyIsEnumerable";
   "toString"; "valueOf"; "__proto__"; "toLocaleString"].

(** [o[k]], read: the own entry under [k]; else, for a name of
    [Object.prototype], the inherited function or prototype, a truthy value
    given as [inherited] (what it looks like where a [V] is expected);
    else [undefined]. *)
Definition obj_lookup {V : Type} (inherited : V) (o : obj V) (k : string) : option V :=
  match obj_get o k with
  | Some v => Some v
  | None => if bool_decide (k ∈ Object_prototype) then Some inherited else None
  end.

(** [o[k] = v] where [v] is an object: the setter of [__proto__] replaces
    the prototype of [o] and stores no entry, unless [o] has an own entry
    of that name (as a parsed file can); any other name is overwritten in
    place or appended. *)
Definition obj_assign {V : Type} (o : obj V) (k : string) (v : V) : obj V :=
  match obj_get o k with
  | None => if bool_decide (k = "__proto__") then o else obj_set o k v
  | Some _ => obj_set o k v
  end.

(** [Object.keys(o)] and [Object.entries(o)]. *)
Definition keys {V : Type} (o : obj V) : list string := o.*1.
Definition entries {V : Type} (o : obj V) : list (string * V) := o.

(** [arr.push(x)]. *)
Definition push {A : Type} (arr : list A) (x : A) : list A := arr ++ [x].

(** The double quote character, and a string between double quotes. *)
Definition dquote : string := String "034"%char EmptyString.
Definition quoted (s : string) : string := dquote +:+ s +:+ dquote.

(** The line feed. *)
Definition newline : string := String "010"%char EmptyString.

(** [`${v}`] for a string-or-undefined [v]. *)
Definition show (v : option string) : string := default "undefined" v.

(** Truthiness of a string-or-undefined value: [undefined] and the empty
    string are falsy. *)
Definition truthy (v : option string) : bool :=
  match v with
  | None => false
  | Some s => negb (bool_decide (s = EmptyString))
  end.

(** [if (v) { then_ } else { else_ }] on a string-or-undefined value. *)
Definition if_truthy {A : Type} (v : option string) (then_ : string -> A) (else_ : A) : A :=
  match v with
  | Some s => if bool_decide (s = EmptyString) then else_ else then_ s
  | None => else_
  end.

(** White space and line terminators removed by [String.prototype.trim]
    (the code units below 256 among them). *)
Definition is_space (c : ascii) : bool :=
  let n := Ascii.nat_of_ascii c in
  bool_decide (n = 9 \/ n = 10 \/ n = 11 \/ n = 12 \/ n = 13 \/ n = 32 \/ n = 160).

Fixpoint trim_start (s : string) : string :=
  match s with
  | EmptyString => EmptyString
  | String c s' => if is_space c then trim_start s' else s
  end.

Fixpoint trim_end (s : string) : string :=
  match s with
  | EmptyString => EmptyString
  | String c s' =>
      match trim_end s' with
      | EmptyString => if is_space c then EmptyString else String c EmptyString
      | t => String c t
      end
  end.

(** [s.trim()]. *)
Definition trim (s : string) : string := trim_end (trim_start s).

End JS.

(** ** The Remote Config diff and the template that is pushed

    [validate] is the diff of [validate-remote-config.cjs];
    [validateRemoteConfig_diff] is the diff inside [validateRemoteConfig]
    of the deploy script, and [buildTemplate] the template assembled by
    [syncRemoteConfig] (and by the setter's [main]). *)

Module RemoteConfig.
Import JS.

(** A Remote Config parameter value, [{ value: "..." }]; [value] is absent
    for the other variants of the REST schema (such as
    [useInAppDefault]). *)
Record ParamValue : Type := { value : option string }.

(** A parameter of a template.  The field [conditionalValues] of a
    parameter is [paramConditionalValues] here: the local file has a
    top-level entry of the same name. *)
Record Param : Type := {
  defaultValue : option ParamValue;
  paramConditionalValues : option (obj ParamValue)
}.

Record Condition : Type := { name : string; expression : option string }.

(** A config object: the parsed local file, or the template served by the
    REST API (which has no top-level [conditionalValues]). *)
Record Config : Type := {
  parameters : option (obj Param);
  conditions : option (list Condition);
  conditionalValues : option (obj (obj ParamValue))
}.

Record ValidationResult : Type := { errors : list string; warnings : list string }.

(** A function of [Object.prototype], or the prototype itself, where a
    parameter is expected: it has neither a [defaultValue] nor
    [conditionalValues]; and where a parameter value is expected: it has no
    [value]. *)
Definition inheritedParam : Param :=
  {| defaultValue := None; paramConditionalValues := None |}.
Definition inheritedValue : ParamValue := {| value := None |}.

(** The messages. *)
Definition msg_missing_parameter (paramKey : string) : string :=
  "Parameter " +:+ quoted paramKey +:+ " is missing in Remote Config".

Definition msg_wrong_default (paramKey : string) (localDefault remoteDefault : option string) : string :=
  "Parameter " +:+ quoted paramKey +:+ " has wrong default: expected "
    +:+ quoted (show localDefault) +:+ ", got " +:+ quoted (show remoteDefault).

Definition msg_missing_conditional (paramKey conditionName : string) : string :=
  "Parameter " +:+ quoted paramKey +:+ " is missing condition " +:+ quoted conditionName.

Definition msg_wrong_value (paramKey conditionName : string) (localValue remoteValue : option string) : string :=
  "Parameter " +:+ quoted paramKey +:+ " condition " +:+ quoted conditionName
    +:+ " has wrong value: expected " +:+ quoted (show localValue)
    +:+ ", got " +:+ quoted (show remoteValue).

Definition msg_wrong_value_short (paramKey conditionName : string) : string :=
  "Parameter " +:+ quoted paramKey +:+ " condition " +:+ quoted conditionName
    +:+ " has wrong value".

Definition msg_extra_parameter (paramKey : string) : string :=
  "Remote Config has extra parameter " +:+ quoted paramKey +:+ " not in local config".

Definition msg_missing_condition (condName : string) : string :=
  "Condition " +:+ quoted condName +:+ " is missing in Remote Config".

Definition msg_different_expression (condName : string) : string :=
  "Condition " +:+ quoted condName +:+ " has different expression".

(** [remoteConditions.find(c => c.name === localCond.name)]. *)
Definition find_condition (remoteConditions : list Condition) (localCond : Condition)
    : option Condition :=
  List.find (fun c => bool_decide (name c = name localCond)) remoteConditions.

(** [validate(localConfig, remoteConfig)] of validate-remote-config.cjs. *)
Definition validate (localConfig remoteConfig : Config) : ValidationResult :=
  let localParams := default [] (parameters localConfig) in
  let remoteParams := default [] (parameters remoteConfig) in
  let localConditions := default [] (conditions localConfig) in
  let remoteConditions := default [] (conditions remoteConfig) in
  let localConditionalValues := default [] (conditionalValues localConfig) in
  let errors :=
    foldl (fun errors '(paramKey, paramConfig) =>
      match obj_lookup inheritedParam remoteParams paramKey with
      | None => push errors (msg_missing_parameter paramKey)
      | Some remoteParam =>
          let localDefault := defaultValue paramConfig ≫= value in
          let remoteDefault := defaultValue remoteParam ≫= value in
          let errors :=
            if bool_decide (localDefault = remoteDefault) then errors
            else push errors (msg_wrong_default paramKey localDefault remoteDefault) in
          let localConditionals :=
            default [] (obj_lookup [] localConditionalValues paramKey) in
          let remoteConditionals := default [] (paramConditionalValues remoteParam) in
          foldl (fun errors '(conditionName, localValue) =>
            match obj_lookup inheritedValue remoteConditionals conditionName with
            | None => push errors (msg_missing_conditional paramKey conditionName)
            | Some remoteValue =>
                if bool_decide (value localValue = value remoteValue) then errors
                else push errors
                       (msg_wrong_value paramKey conditionName (value localValue) (value remoteValue))
            end) errors (entries localConditionals)
      end) [] (entries localParams) in
  let warnings :=
    foldl (fun warnings paramKey =>
      match obj_lookup inheritedParam localParams paramKey with
      | None => push warnings (msg_extra_parameter paramKey)
      | Some _ => warnings
      end) [] (keys remoteParams) in
  let errors :=
    foldl (fun errors localCond =>
      match find_condition remoteConditions localCond with
      | None => push errors (msg_missing_condition (name localCond))
      | Some remoteCond =>
          if bool_decide (expression localCond = expression remoteCond) then errors
          else push errors (msg_different_expression (name localCond))
      end) errors localConditions in
  {| errors := errors; warnings := warnings |}.

(** The diff of [validateRemoteConfig(projectId)] in the deploy script,
    from the point where both configs are loaded. *)
Definition validateRemoteConfig_diff (localConfig remoteConfig : Config) : list string :=
  let localParams := default [] (parameters localConfig) in
  let remoteParams := default [] (parameters remoteConfig) in
  let localConditions := default [] (conditions localConfig) in
  let remoteConditions := default [] (conditions remoteConfig) in
  let localConditionalValues := default [] (conditionalValues localConfig) in
  let errors :=
    foldl (fun errors '(paramKey, paramConfig) =>
      match obj_lookup inheritedParam remoteParams paramKey with
      | None => push errors (msg_missing_parameter paramKey)
      | Some remoteParam =>
          let localDefault := defaultValue paramConfig ≫= value in
          let remoteDefault := defaultValue remoteParam ≫= value in
          let errors :=
            if bool_decide (localDefault = remoteDefault) then errors
            else push errors (msg_wrong_default paramKey localDefault remoteDefault) in
          let localConditionals :=
            default [] (obj_lookup [] localConditionalValues paramKey) in
          let remoteConditionals := default [] (paramConditionalValues remoteParam) in
          foldl (fun errors '(conditionName, localValue) =>
            match obj_lookup inheritedValue remoteConditionals conditionName with
            | None => push errors (msg_missing_conditional paramKey conditionName)
            | Some remoteValue =>
                if bool_decide (value localValue = value remoteValue) then errors
                else push errors (msg_wrong_value_short paramKey conditionName)
            end) errors (entries localConditionals)
      end) [] (entries localParams) in
  let errors :=
    foldl (fun errors localCond =>
      match find_condition remoteConditions localCond with
      | None => push errors (msg_missing_condition (name localCond))
      | Some _ => errors
      end) errors localConditions in
  errors.

(** The template of [syncRemoteConfig], as [JSON.stringify] sends it: the
    local conditions and parameters; for each key of [conditionalValues],
    a parameter is created with default ["control"] when
    [template.parameters[paramKey]] is falsy, and the own parameter under
    that key gets a fresh [conditionalValues], filled entry by entry.
    Where [template.parameters[paramKey]] is inherited from
    [Object.prototype], the writes go to the inherited object and the
    template stays as it is. *)
Record Template : Type := {
  tpl_conditions : list Condition;
  tpl_parameters : obj Param
}.

Definition noConditionalValues (p : Param) : Param :=
  {| defaultValue := defaultValue p; paramConditionalValues := Some [] |}.

Definition setConditionalValue (conditionName : string) (conditionValue : ParamValue)
    (p : Param) : Param :=
  {| defaultValue := defaultValue p;
     paramConditionalValues :=
       Some (obj_assign (default [] (paramConditionalValues p)) conditionName
               conditionValue) |}.

Definition controlParam : Param :=
  {| defaultValue := Some {| value := Some "control" |}; paramConditionalValues := None |}.

Definition buildTemplate (config : Config) : Template :=
  let template :=
    {| tpl_conditions := default [] (conditions config);
       tpl_parameters := default [] (parameters config) |} in
  match conditionalValues config with
  | None => template
  | Some conditionalValues =>
      let parameters :=
        foldl (fun parameters '(paramKey, conditions) =>
          let parameters :=
            match obj_lookup inheritedParam parameters paramKey with
            | None => obj_assign parameters paramKey controlParam
            | Some _ => parameters
            end in
          let parameters := obj_alter noConditionalValues paramKey parameters in
          foldl (fun parameters '(conditionName, conditionValue) =>
                   obj_alter (setConditionalValue conditionName conditionValue) paramKey parameters)
                parameters (entries conditions))
          (tpl_parameters template) (entries conditionalValues) in
      {| tpl_conditions := tpl_conditions template; tpl_parameters := parameters |}
  end.


(** The objects of a parsed file have distinct keys. *)
Definition distinct_keys (config : Config) : Prop :=
  NoDup (keys (default [] (conditionalValues config)))
  /\ forall paramKey conditions,
       (paramKey, conditions) ∈ default [] (conditionalValues config) ->
       NoDup (keys conditions).



(** A key that is no name of [Object.prototype]. *)
Definition plain (k : string) : Prop := k ∉ Object_prototype.

(** No key of the local parameters and no condition name listed for a
    parameter is a name of [Object.prototype]. *)
Definition plain_keys (config : Config) : Prop :=
  Forall plain (keys (default [] (parameters config)))
  /\ Forall (fun e => Forall plain (keys e.2)) (default [] (conditionalValues config)).

(** No parameter is listed under [conditionalValues] by a name of
    [Object.prototype]. *)
Definition plain_listed (config : Config) : Prop :=
  Forall plain (keys (default [] (conditionalValues config))).


(** *** What the diff is meant to establish *)

(** The default of a parameter: [p.defaultValue?.value]. *)
Definition default_of (p : Param) : option string := defaultValue p ≫= value.

(** The conditional value [localValue] listed locally under
    [conditionName] exists in the remote parameter with an equal value. *)
Definition conditional_in_sync (remoteParam : Param) (conditionName : string)
    (localValue : ParamValue) : Prop :=
  exists remoteValue,
    obj_get (default [] (paramConditionalValues remoteParam)) conditionName = Some remoteValue
    /\ value localValue = value remoteValue.

(** The local parameter exists remotely with an equal default, and so do
    the conditional values the local config lists for it. *)
Definition parameter_in_sync (localConfig remoteConfig : Config) (paramKey : string)
    (paramConfig : Param) : Prop :=
  exists remoteParam,
    obj_get (default [] (parameters remoteConfig)) paramKey = Some remoteParam
    /\ default_of paramConfig = default_of remoteParam
    /\ forall conditionName localValue,
         (conditionName, localValue)
           ∈ default [] (obj_get (default [] (conditionalValues localConfig)) paramKey) ->
         conditional_in_sync remoteParam conditionName localValue.

(** The local condition exists remotely under the same name, with an
    identical expression. *)
Definition condition_in_sync (remoteConfig : Config) (localCond : Condition) : Prop :=
  exists remoteCond,
    remoteCond ∈ default [] (conditions remoteConfig)
    /\ name remoteCond = name localCond
    /\ expression localCond = expression remoteCond.

Definition in_sync (localConfig remoteConfig : Config) : Prop :=
  (forall paramKey paramConfig,
     (paramKey, paramConfig) ∈ default [] (parameters localConfig) ->
     parameter_in_sync localConfig remoteConfig paramKey paramConfig)
  /\ (forall localCond,
        localCond ∈ default [] (conditions localConfig) ->
        condition_in_sync remoteConfig localCond).

(** Two remote configs that differ only in parameters the local config
    does not have. *)
Definition same_on_local (localConfig remoteConfig remoteConfig' : Config) : Prop :=
  (forall paramKey,
     paramKey ∈ keys (default [] (parameters localConfig)) ->
     obj_get (default [] (parameters remoteConfig)) paramKey
     = obj_get (default [] (parameters remoteConfig')) paramKey)
  /\ conditions remoteConfig = conditions remoteConfig'.

(** The errors each loop iteration contributes. *)
Definition conditional_errors (long : bool) (paramKey : string)
    (remoteConditionals : obj ParamValue) (e : string * ParamValue) : list string :=
  match obj_lookup inheritedValue remoteConditionals e.1 with
  | None => [msg_missing_conditional paramKey e.1]
  | Some remoteValue =>
      if bool_decide (value e.2 = value remoteValue) then []
      else [if long then msg_wrong_value paramKey e.1 (value e.2) (value remoteValue)
            else msg_wrong_value_short paramKey e.1]
  end.

Definition parameter_errors (long : bool) (localConfig remoteConfig : Config)
    (e : string * Param) : list string :=
  match obj_lookup inheritedParam (default [] (parameters remoteConfig)) e.1 with
  | None => [msg_missing_parameter e.1]
  | Some remoteParam =>
      (if bool_decide (default_of e.2 = default_of remoteParam) then []
       else [msg_wrong_default e.1 (default_of e.2) (default_of remoteParam)])
      ++ flat_map (conditional_errors long e.1 (default [] (paramConditionalValues remoteParam)))
           (default [] (obj_lookup [] (default [] (conditionalValues localConfig)) e.1))
  end.

Definition condition_errors (checkExpression : bool) (remoteConfig : Config)
    (localCond : Condition) : list string :=
  match find_condition (default [] (conditions remoteConfig)) localCond with
  | None => [msg_missing_condition (name localCond)]
  | Some remoteCond =>
      if checkExpression && negb (bool_decide (expression localCond = expression remoteCond))
      then [msg_different_expression (name localCond)] else []
  end.

(** *** The two copies of the diff compared *)

(** Two messages that report the same mismatch: equal, or the long and
    the short form of a wrong conditional value. *)
Definition same_report (a b : string) : Prop :=
  a = b
  \/ exists paramKey conditionName localValue remoteValue,
       a = msg_wrong_value paramKey conditionName localValue remoteValue
       /\ b = msg_wrong_value_short paramKey conditionName.

(** No local condition differs in its expression from the remote condition
    of the same name. *)
Definition expressions_agree (localConfig remoteConfig : Config) : Prop :=
  forall localCond remoteCond,
    localCond ∈ default [] (conditions localConfig) ->
    find_condition (default [] (conditions remoteConfig)) localCond = Some remoteCond ->
    expression localCond = expression remoteCond.

(** *** Sample configs *)

Definition betaUsers (expr : string) : Condition :=
  {| name := "beta_users"; expression := Some expr |}.

Definition sample_local : Config :=
  {| parameters :=
       Some [("navigation_banner",
              {| defaultValue := Some {| value := Some "control" |};
                 paramConditionalValues := None |})];
     conditions := Some [betaUsers "app.userProperty['beta'] == 'true'"];
     conditionalValues :=
       Some [("navigation_banner", [("beta_users", {| value := Some "beta" |})])] |}.

Definition sample_remote (conditional expr : string) : Config :=
  {| parameters :=
       Some [("navigation_banner",
              {| defaultValue := Some {| value := Some "control" |};
                 paramConditionalValues :=
                   Some [("beta_users", {| value := Some conditional |})] |});
             ("legacy_flag",
              {| defaultValue := Some {| value := Some "off" |};
                 paramConditionalValues := None |})];
     conditions := Some [betaUsers expr];
     conditionalValues := None |}.

(** The live template in sync with the sample, one with another
    conditional value, one with another condition expression. *)
Definition remote_in_sync : Config :=
  sample_remote "beta" "app.userProperty['beta'] == 'true'".
Definition remote_other_value : Config :=
  sample_remote "next" "app.userProperty['beta'] == 'true'".
Definition remote_other_expression : Config :=
  sample_remote "beta" "percent <= 10".

(** The same live template without its extra parameter. *)
Definition without_legacy_flag (remoteConfig : Config) : Config :=
  {| parameters :=
       filter (fun e => e.1 ≠ "legacy_flag") <$> parameters remoteConfig;
     conditions := conditions remoteConfig;
     conditionalValues := conditionalValues remoteConfig |}.

(** A local file whose only parameter is named [constructor] and takes
    the in-app default (its default value has no [value]); a live template
    without parameters; and a live template with a parameter [toString]
    the local file lacks. *)
Definition local_constructor : Config :=
  {| parameters :=
       Some [("constructor",
              {| defaultValue := Some {| value := None |};
                 paramConditionalValues := None |})];
     conditions := None;
     conditionalValues := None |}.

Definition remote_empty : Config :=
  {| parameters := Some []; conditions := Some []; conditionalValues := None |}.

Definition remote_toString : Config :=
  {| parameters :=
       Some [("toString",
              {| defaultValue := Some {| value := Some "on" |};
                 paramConditionalValues := None |})];
     conditions := Some [];
     conditionalValues := None |}.

(** The sample file with its conditional value listed for a parameter
    [constructor], which it does not have; and with its conditional value
    listed under the condition name [__proto__]. *)
Definition local_listed_constructor : Config :=
  {| parameters := parameters sample_local;
     conditions := conditions sample_local;
     conditionalValues :=
       Some [("constructor", [("beta_users", {| value := Some "beta" |})])] |}.

Definition local_proto_condition : Config :=
  {| parameters := parameters sample_local;
     conditions := conditions sample_local;
     conditionalValues :=
       Some [("navigation_banner", [("__proto__", {| value := Some "beta" |})])] |}.

(** *** What is published, read back *)

(** The live template once [template] has been put: what a later GET
    returns. *)
Definition published (template : Template) : Config :=
  {| parameters := Some (tpl_parameters template);
     conditions := Some (tpl_conditions template);
     conditionalValues := None |}.


End RemoteConfig.

(** ** Regular expressions

    The fragment of ECMAScript regular expressions the deploy script uses:
    character tests, concatenation, the greedy [?] and [+], the lazy [*?]
    on a character test, and capture groups, matched by backtracking as
    the language prescribes.  The [i] flag is part of the character tests
    ([ci]); the [g] flag is the scan of [matchAll]. *)

Module Regex.

Inductive regex : Type :=
| Empty
| Chr (t : ascii -> bool)
| Cat (r1 r2 : regex)
| Maybe (r : regex)
| Many1 (t : ascii -> bool)
| ManyLazy (t : ascii -> bool)
| Capture (r : regex).

(** Canonicalisation under the [i] flag: upper case; a code unit from 128
    on is never mapped into the ASCII range, so that only ASCII letters
    match an ASCII letter of a pattern. *)
Definition to_upper (c : ascii) : ascii :=
  let n := nat_of_ascii c in
  if bool_decide (97 <= n <= 122) then ascii_of_nat (n - 32) else c.

Definition ci (c : ascii) : ascii -> bool :=
  fun x => bool_decide (to_upper x = to_upper c).

(** The character tests: a digit, any character but a line terminator,
    a quote character (single or double), any character but a quote. *)
Definition digit (c : ascii) : bool :=
  let n := nat_of_ascii c in bool_decide (48 <= n <= 57).
Definition line_terminator (c : ascii) : bool :=
  let n := nat_of_ascii c in bool_decide (n = 10 \/ n = 13).
Definition dot (c : ascii) : bool := negb (line_terminator c).
Definition is_quote (c : ascii) : bool :=
  let n := nat_of_ascii c in bool_decide (n = 39 \/ n = 34).
Definition not_quote (c : ascii) : bool := negb (is_quote c).

(** A literal, each character compared under the [i] flag. *)
Definition lit (s : string) : regex :=
  foldr (fun c r => Cat (Chr (ci c)) r) Empty (list_ascii_of_string s).

(** A continuation receives the rest of the input and the captures so
    far. *)
Definition cont (X : Type) : Type := list ascii -> list (list ascii) -> option X.

(** [t+] and [t*] after the first character: the longest run first. *)
Fixpoint greedy {X : Type} (t : ascii -> bool) (k : cont X) (caps : list (list ascii))
    (s : list ascii) : option X :=
  match s with
  | c :: s' =>
      if t c then
        match greedy t k caps s' with
        | Some x => Some x
        | None => k s caps
        end
      else k s caps
  | [] => k s caps
  end.

(** [t*?]: the shortest run first. *)
Fixpoint lazy {X : Type} (t : ascii -> bool) (k : cont X) (caps : list (list ascii))
    (s : list ascii) : option X :=
  match k s caps with
  | Some x => Some x
  | None =>
      match s with
      | c :: s' => if t c then lazy t k caps s' else None
      | [] => None
      end
  end.

Fixpoint rmatch {X : Type} (r : regex) (s : list ascii) (caps : list (list ascii))
    (k : cont X) : option X :=
  match r with
  | Empty => k s caps
  | Chr t =>
      match s with
      | c :: s' => if t c then k s' caps else None
      | [] => None
      end
  | Cat r1 r2 => rmatch r1 s caps (fun s1 caps1 => rmatch r2 s1 caps1 k)
  | Maybe r =>
      match rmatch r s caps k with
      | Some x => Some x
      | None => k s caps
      end
  | Many1 t =>
      match s with
      | c :: s' => if t c then greedy t k caps s' else None
      | [] => None
      end
  | ManyLazy t => lazy t k caps s
  | Capture r =>
      rmatch r s caps (fun s1 caps1 => k s1 (caps1 ++ [take (length s - length s1) s]))
  end.

(** A match: the matched text and the captured groups. *)
Record Match : Type := { matched : list ascii; groups : list (list ascii) }.

(** The match that starts at the head of [s], if any. *)
Definition exec_at (r : regex) (s : list ascii) : option Match :=
  rmatch r s []
    (fun s' caps => Some {| matched := take (length s - length s') s; groups := caps |}).

(** The successive matches of a global pattern: the leftmost match from
    the current position on, then on from its end ([skip] is the number of
    positions still covered by the last match); after an empty match the
    scan moves one position on. *)
Fixpoint matchAll (r : regex) (skip : nat) (s : list ascii) : list Match :=
  match s with
  | [] =>
      match skip, exec_at r [] with
      | 0, Some m => [m]
      | _, _ => []
      end
  | _ :: s' =>
      match skip with
      | S n => matchAll r n s'
      | 0 =>
          match exec_at r s with
          | Some m => m :: matchAll r (length (matched m) - 1) s'
          | None => matchAll r 0 s'
          end
      end
  end.

(** [str.match(re)] for a global [re]: the matched texts, [null] when
    there is none. *)
Definition String_match (logs : string) (re : regex) : option (list string) :=
  match matchAll re 0 (list_ascii_of_string logs) with
  | [] => None
  | ms => Some (map (fun m => string_of_list_ascii (matched m)) ms)
  end.

(** The declarative reading: [lang r m caps] when [r] matches exactly the
    text [m], capturing [caps]. *)
Inductive lang : regex -> list ascii -> list (list ascii) -> Prop :=
| lang_Empty : lang Empty [] []
| lang_Chr t c : t c = true -> lang (Chr t) [c] []
| lang_Cat r1 r2 m1 m2 c1 c2 :
    lang r1 m1 c1 -> lang r2 m2 c2 -> lang (Cat r1 r2) (m1 ++ m2) (c1 ++ c2)
| lang_Maybe_none r : lang (Maybe r) [] []
| lang_Maybe_some r m c : lang r m c -> lang (Maybe r) m c
| lang_Many1 t m : m <> [] -> forallb t m = true -> lang (Many1 t) m []
| lang_ManyLazy t m : forallb t m = true -> lang (ManyLazy t) m []
| lang_Capture r m c : lang r m c -> lang (Capture r) m (c ++ [m]).

(** The text [s] has a match of [r] somewhere. *)
Definition occurs (r : regex) (s : list ascii) : Prop :=
  exists pre m post caps, s = pre ++ m ++ post /\ lang r m caps.

(** The characters of a string, and equality of texts under the [i]
    flag. *)
Definition chars (s : string) : list ascii := list_ascii_of_string s.
Definition eq_ci (a b : list ascii) : Prop := to_upper <$> a = to_upper <$> b.

End Regex.

(** ** The scripts and their environment

    The scripts act on their environment through a few calls: commands
    run by [execSync], the local file [remote-config.json], the Remote
    Config REST endpoint, and timers.  A run is a function of the
    environment, which fixes the outcome of every call at every time; time
    is the number of calls made so far, and the state of a run is the log of
    its calls.  Console output is left out. *)

Module Node.
Import JS RemoteConfig.

(** The commands the scripts run, and the text handed to [execSync]. *)
Inductive Command : Type :=
| GhVersion
| FirebasePrintAccessToken
| GitBranchShowCurrent
| GitStatusPorcelain
| GitDiffStat
| GitAddAll
| GitCommit (message : string)
| GitPush
| GitRevParseHead
| GhRunList (workflowName : string)
| GhRunViewStatus (runId : N)
| GhRunViewLog (runId : N)
| EslintFix
| NpmInstall (pkg : string).

Definition command_line (c : Command) : string :=
  match c with
  | GhVersion => "gh --version"
  | FirebasePrintAccessToken => "firebase auth:print-access-token"
  | GitBranchShowCurrent => "git branch --show-current"
  | GitStatusPorcelain => "git status --porcelain"
  | GitDiffStat => "git diff --stat"
  | GitAddAll => "git add -A"
  | GitCommit message => "git commit -m " +:+ quoted message
  | GitPush => "git push"
  | GitRevParseHead => "git rev-parse HEAD"
  | GhRunList workflowName =>
      "gh run list --workflow=" +:+ workflowName +:+ " --limit=10 --json databaseId,headSha"
  | GhRunViewStatus runId => "gh run view " +:+ pretty runId +:+ " --json status,conclusion"
  | GhRunViewLog runId => "gh run view " +:+ pretty runId +:+ " --log"
  | EslintFix => "npx eslint src/ --fix"
  | NpmInstall pkg => "npm install --save-dev " +:+ pkg
  end.

(** A call on the environment. *)
Inductive Call : Type :=
| ExecSync (cmd : Command)
| ExistsSync
| ReadConfig
| FetchGet (url token : string)
| FetchPut (url token : string) (body : Template)
| Sleep (ms : N).

(** The outcome of a command: its output, or the error [execSync] throws,
    which carries the output when the command could be started. *)
Inductive ExecResult : Type :=
| ExecOk (stdout : string)
| ExecFailed (stdout : option string).

(** The outcome of a [fetch]: a body with [response.ok], a response that
    is not [ok] with its text, or a rejected promise. *)
Inductive HttpResult (A : Type) : Type :=
| HttpOk (body : A)
| HttpNotOk (text : string)
| HttpFailed.
Arguments HttpOk {A} body.
Arguments HttpNotOk {A} text.
Arguments HttpFailed {A}.

(** An entry of [gh run list --json databaseId,headSha] and the object of
    [gh run view --json status,conclusion]. *)
Record RunInfo : Type := { databaseId : N; headSha : string }.
Record RunStatus : Type := { status : option string; conclusion : option string }.

Record Env : Type := {
  (** [process.env.FIREBASE_TOKEN] and [process.argv.slice(2)] *)
  FIREBASE_TOKEN : option string;
  args : list string;
  (** the constant [RC_CONFIG_PATH] of the scripts,
      [path.join(__dirname, 'remote-config.json')] *)
  RC_CONFIG_PATH : string;
  (** the outcome of a command started at a given time *)
  exec : nat -> Command -> ExecResult;
  (** [fs.existsSync(RC_CONFIG_PATH)], and
      [JSON.parse(fs.readFileSync(RC_CONFIG_PATH, 'utf8'))], which throws
      when there is [None] *)
  existsConfig : nat -> bool;
  readConfig : nat -> option Config;
  (** the Remote Config endpoint, by url and bearer token *)
  fetchGet : nat -> string -> string -> HttpResult Config;
  fetchPut : nat -> string -> string -> Template -> HttpResult (option string);
  (** [JSON.parse] on the output of [gh run list] and of [gh run view]:
      [None] when it throws or yields no usable value *)
  parseRunList : string -> option (list RunInfo);
  parseRunStatus : string -> option RunStatus
}.

(** A thrown value: an [Error], with the output attached by
    [execSync]. *)
Record Error : Type := { message : string; e_stdout : option string }.

(** [new Error(message)] *)
Definition new_Error (message : string) : Error :=
  {| message := message; e_stdout := None |}.

(** The state of an async function after some steps: returned, thrown
    (a rejected promise), or still pending. *)
Inductive Outcome (A : Type) : Type :=
| Return (a : A) (log : list Call)
| Throw (e : Error) (log : list Call)
| Pending.
Arguments Return {A} a log.
Arguments Throw {A} e log.
Arguments Pending {A}.

Definition M (A : Type) : Type := list Call -> Outcome A.

Definition ret {A : Type} (a : A) : M A := fun log => Return a log.

Definition bind {A B : Type} (m : M A) (k : A -> M B) : M B :=
  fun log =>
    match m log with
    | Return a log' => k a log'
    | Throw e log' => Throw e log'
    | Pending => Pending
    end.

Definition throw {A : Type} (e : Error) : M A := fun log => Throw e log.

Definition pending {A : Type} : M A := fun _ => Pending.

(** [try { m } catch (e) { handler }] *)
Definition try_catch {A : Type} (m : M A) (handler : Error -> M A) : M A :=
  fun log =>
    match m log with
    | Return a log' => Return a log'
    | Throw e log' => handler e log'
    | Pending => Pending
    end.

(** A call: it is logged, and answered by the environment at the time it
    is made. *)
Definition call {A : Type} (c : Call) (answer : nat -> A) : M A :=
  fun log => Return (answer (length log)) (log ++ [c]).

Module Import Notations.
  Notation "x <- m ;; k" := (bind m (fun x => k))
    (at level 100, m at next level, k at level 200, right associativity,
     only parsing).
  Notation "m ;;; k" := (bind m (fun _ => k))
    (at level 100, k at level 200, right associativity, only parsing).
End Notations.

(** A loop [for (const x of xs)] that updates a variable. *)
Fixpoint for_of {A S : Type} (xs : list A) (body : S -> A -> M S) (s : S) : M S :=
  match xs with
  | [] => ret s
  | x :: xs' => s' <- body s x ;; for_of xs' body s'
  end.

Section Calls.
Variable env : Env.

(** [execSync(cmd, ...)] *)
Definition execSync (cmd : Command) : M string :=
  r <- call (ExecSync cmd) (fun t => exec env t cmd) ;;
  match r with
  | ExecOk stdout => ret stdout
  | ExecFailed stdout =>
      throw {| message := "Command failed: " +:+ command_line cmd; e_stdout := stdout |}
  end.

(** [await new Promise(r => setTimeout(r, ms))] *)
Definition sleep (ms : N) : M unit := call (Sleep ms) (fun _ => tt).

(** [s.trim()], a [TypeError] when [s] is undefined. *)
Definition String_trim (s : option string) : M string :=
  match s with
  | Some s => ret (trim s)
  | None => throw (new_Error "Cannot read properties of undefined (reading 'trim')")
  end.

Definition token_error : Error :=
  new_Error ("Failed to get Firebase access token. Run " +:+ quoted "firebase login"
         +:+ " or set FIREBASE_TOKEN env var.").

End Calls.

(** *** Statements about runs *)

(** Whatever [m] does, the calls it adds to the log all satisfy [S]. *)
Definition issues {A : Type} (S : Call -> Prop) (m : M A) : Prop :=
  forall log,
    match m log with
    | Return _ log' | Throw _ log' => exists new, log' = log ++ new /\ Forall S new
    | Pending => True
    end.

(** From a log that satisfies [P], [m] returns [a] with a log that
    satisfies [Q a], or throws with a log that satisfies [E]. *)
Definition hoare {A : Type} (P : list Call -> Prop) (m : M A)
    (Q : A -> list Call -> Prop) (E : list Call -> Prop) : Prop :=
  forall log,
    P log ->
    match m log with
    | Return a log' => Q a log'
    | Throw _ log' => E log'
    | Pending => True
    end.

(** [m] returns or throws, from every log. *)
Definition terminates {A : Type} (m : M A) : Prop := forall log, m log <> Pending.

(** The number of calls in [new] that satisfy the test [w]. *)
Definition count_calls (w : Call -> bool) (new : list Call) : nat :=
  length (filter (fun c => w c = true) new).

(** [m] adds at most [n] calls that satisfy [w] to the log. *)
Definition at_most {A : Type} (w : Call -> bool) (n : nat) (m : M A) : Prop :=
  forall log,
    match m log with
    | Return _ log' | Throw _ log' =>
        exists new, log' = log ++ new /\ count_calls w new <= n
    | Pending => True
    end.

End Node.

(** ** The validator script: its access token *)

Module Validator.
Import JS RemoteConfig Node Node.Notations.

Section Script.
Variable env : Env.

(** [getAccessToken()] of validate-remote-config.cjs. *)
Definition getAccessToken : M string :=
  if_truthy (FIREBASE_TOKEN env)
    (fun token => ret token)
    (try_catch
       (token <- execSync env FirebasePrintAccessToken ;; ret (trim token))
       (fun e => throw token_error)).

End Script.

End Validator.

(** ** The deploy script: scraping the failure logs *)

Module Deploy.
Import JS RemoteConfig Regex.

(** [/\[eslint\].*?Line \d+:\d+/gi] *)
Definition eslintPattern : regex :=
  Cat (lit "[eslint]")
    (Cat (ManyLazy dot)
       (Cat (lit "Line ") (Cat (Many1 digit) (Cat (lit ":") (Many1 digit))))).

(** [/Failed to compile/gi] *)
Definition buildPattern : regex := lit "Failed to compile".

(** The pattern [Cannot find module Q(\@?N+)Q] with flags [gi], where [Q]
    is the class of the two quote characters and [N] its complement. *)
Definition depPattern : regex :=
  Cat (lit "Cannot find module ")
    (Cat (Chr is_quote)
       (Cat (Capture (Cat (Maybe (Chr (ci "@"%char))) (Many1 not_quote)))
          (Chr is_quote))).

(** An entry of the list [parseErrors] returns. *)
Record ErrorEntry : Type := { type : string; matches : list string }.

(** [set.add(x)] and [[...new Set(xs)]]: the distinct elements, in the order
    of their first insertion. *)
Definition Set_add (set : list string) (x : string) : list string :=
  if bool_decide (x ∈ set) then set else set ++ [x].
Definition Set_of (xs : list string) : list string := foldl Set_add [] xs.

(** The loop [while ((depMatch = depPattern.exec(logs)) !== null)
    depMatches.push(depMatch[1])]. *)
Definition depMatches (logs : string) : list string :=
  map (fun depMatch => string_of_list_ascii (default [] (head (groups depMatch))))
      (matchAll depPattern 0 (list_ascii_of_string logs)).

Definition parseErrors (logs : string) : list ErrorEntry :=
  let errors := [] in
  let eslintMatches := String_match logs eslintPattern in
  let errors :=
    match eslintMatches with
    | Some eslintMatches => push errors {| type := "eslint"; matches := eslintMatches |}
    | None => errors
    end in
  let buildMatches := String_match logs buildPattern in
  let errors :=
    match buildMatches with
    | Some buildMatches => push errors {| type := "build"; matches := buildMatches |}
    | None => errors
    end in
  let depMatches := depMatches logs in
  let errors :=
    if bool_decide (0 < length depMatches)
    then push errors {| type := "dependency"; matches := Set_of depMatches |}
    else errors in
  errors.

(** *** What the scraping is meant to find *)

Definition has_entry (ty : string) (errors : list ErrorEntry) : Prop :=
  exists e, e ∈ errors /\ type e = ty.

(** The log contains [needle], letter case apart. *)
Definition contains_ci (logs needle : string) : Prop :=
  exists pre m post, chars logs = pre ++ m ++ post /\ eq_ci m (chars needle).

(** The log names [name] as a missing module the way the pattern takes
    it: the words [Cannot find module ] in any letter case, a quote
    character (single or double), the non-empty name free of quote
    characters, a quote character. *)
Definition names_missing_module (logs name : string) : Prop :=
  exists pre p q1 q2 post,
    chars logs = pre ++ p ++ [q1] ++ chars name ++ [q2] ++ post
    /\ eq_ci p (chars "Cannot find module ")
    /\ is_quote q1 = true /\ is_quote q2 = true
    /\ name <> EmptyString /\ forallb not_quote (chars name) = true.

(** The log names [name] as a missing module to the letter: the words
    [Cannot find module ] and the name between single quotes. *)
Definition names_missing_module_literally (logs name : string) : Prop :=
  exists pre post,
    chars logs = pre ++ chars ("Cannot find module '" +:+ name +:+ "'") ++ post
    /\ name <> EmptyString /\ forallb not_quote (chars name) = true.

(** The distinct elements of a list, in the order of their first
    occurrence. *)
Fixpoint distinct_in_order (xs : list string) : list string :=
  match xs with
  | [] => []
  | x :: xs' => x :: filter (fun y => y <> x) (distinct_in_order xs')
  end.

(** A log that names the missing module between double quotes. *)
Definition log_double_quoted : string :=
  "Error: Cannot find module " +:+ dquote +:+ "lodash" +:+ dquote.

(** ** The deploy script: the deployment loop *)

Import Node Node.Notations.

Definition MAX_ATTEMPTS : nat := 5.
Definition POLL_INTERVAL_MS : N := 30000.

(** The result of [run]. *)
Record RunResult : Type := { stdout : option string; error : option Error }.

Definition remoteConfigUrl (projectId : string) : string :=
  "https://firebaseremoteconfig.googleapis.com/v1/projects/" +:+ projectId
    +:+ "/remoteConfig".

Section Script.
Variable env : Env.

(** [new Error(`${RC_CONFIG_PATH} not found. Run ... first.`)] *)
Definition config_not_found : Error :=
  new_Error (RC_CONFIG_PATH env +:+ " not found. Run "
             +:+ quoted "npm run remote-config:init" +:+ " first.").

Definition isProduction : bool := bool_decide ("--prod" ∈ args env).
Definition targetUrl : string :=
  if isProduction then "https://argbase.org" else "https://argbase-staging.web.app".
Definition workflowName : string :=
  if isProduction then "firebase-deploy.yml" else "firebase-deploy-staging.yml".

Definition checkGhInstalled : M bool :=
  try_catch (execSync env GhVersion ;;; ret true) (fun e => ret false).

Definition run (cmd : Command) : M RunResult :=
  try_catch
    (stdout <- execSync env cmd ;; ret {| stdout := Some stdout; error := None |})
    (fun e => ret {| stdout := e_stdout e; error := Some e |}).

Definition getAccessToken : M string :=
  if_truthy (FIREBASE_TOKEN env)
    (fun FIREBASE_TOKEN =>
       try_catch
         (token <- execSync env FirebasePrintAccessToken ;; ret (trim token))
         (fun e => ret FIREBASE_TOKEN))
    (try_catch
       (token <- execSync env FirebasePrintAccessToken ;; ret (trim token))
       (fun e => throw token_error)).

Definition getRemoteConfig (projectId : string) : M Config :=
  token <- getAccessToken ;;
  let url := remoteConfigUrl projectId in
  response <- call (FetchGet url token) (fun t => fetchGet env t url token) ;;
  match response with
  | HttpFailed => throw (new_Error "fetch failed")
  | HttpNotOk error => throw (new_Error ("Failed to get Remote Config: " +:+ error))
  | HttpOk body => ret body
  end.

Definition setRemoteConfig (projectId : string) (config : Template) : M (option string) :=
  token <- getAccessToken ;;
  let url := remoteConfigUrl projectId in
  response <- call (FetchPut url token config) (fun t => fetchPut env t url token config) ;;
  match response with
  | HttpFailed => throw (new_Error "fetch failed")
  | HttpNotOk error => throw (new_Error ("Failed to set Remote Config: " +:+ error))
  | HttpOk body => ret body
  end.

(** [JSON.parse(fs.readFileSync(RC_CONFIG_PATH, 'utf8'))] *)
Definition readLocalConfig : M Config :=
  config <- call ReadConfig (readConfig env) ;;
  match config with
  | Some config => ret config
  | None => throw (new_Error "remote-config.json cannot be read as JSON")
  end.

Definition validateRemoteConfig (projectId : string) : M (list string) :=
  exists_ <- call ExistsSync (existsConfig env) ;;
  if negb exists_ then throw config_not_found else
  localConfig <- readLocalConfig ;;
  remoteConfig <- getRemoteConfig projectId ;;
  ret (validateRemoteConfig_diff localConfig remoteConfig).

Definition syncRemoteConfig (projectId : string) : M unit :=
  exists_ <- call ExistsSync (existsConfig env) ;;
  if negb exists_ then throw config_not_found else
  config <- readLocalConfig ;;
  let template := buildTemplate config in
  result <- setRemoteConfig projectId template ;;
  ret tt.

(** A run id is a number; zero is falsy. *)
Definition truthy_id (runId : option N) : bool :=
  match runId with
  | Some n => negb (bool_decide (n = 0%N))
  | None => false
  end.

Definition getLatestRunId (commitSha : option string) : M (option N) :=
  try_catch
    (r <- run (GhRunList workflowName) ;;
     match stdout r ≫= parseRunList env with
     | None => throw (new_Error "Unexpected output of gh run list")
     | Some data =>
         if truthy commitSha then
           match List.find (fun r => bool_decide (Some (headSha r) = commitSha)) data with
           | Some run => ret (Some (databaseId run))
           | None => ret None
           end
         else
           let latest := databaseId <$> head data in
           ret (if truthy_id latest then latest else None)
     end)
    (fun e => ret None).

Definition getRunStatus (runId : N) : M (option RunStatus) :=
  try_catch
    (r <- run (GhRunViewStatus runId) ;; ret (stdout r ≫= parseRunStatus env))
    (fun e => ret None).

Definition getRunLogs (runId : N) : M (option string) :=
  try_catch
    (r <- run (GhRunViewLog runId) ;; ret (stdout r))
    (fun e => ret (Some EmptyString)).

Definition autoFix (errors : list ErrorEntry) : M bool :=
  fixed <-
    for_of errors (fun fixed error =>
      fixed <-
        (if bool_decide (type error = "eslint") then
           result <- run EslintFix ;;
           ret (match Deploy.error result with None => true | Some _ => fixed end)
         else ret fixed) ;;
      if bool_decide (type error = "dependency") then
        for_of (matches error) (fun fixed pkg =>
          result <- run (NpmInstall pkg) ;;
          ret (match Deploy.error result with None => true | Some _ => fixed end)) fixed
      else ret fixed) false ;;
  if fixed then
    r <- run GitStatusPorcelain ;;
    changes <- String_trim (stdout r) ;;
    if truthy (Some changes) then
      run GitAddAll ;;;
      run (GitCommit "deploy: auto-fix errors") ;;;
      run GitPush ;;;
      ret true
    else ret false
  else ret false.

(** The loop that waits for the workflow run of the pushed commit to
    show up; [remaining] is [12 - waitCount]. *)
Fixpoint waitForRun (remaining : nat) (pushedCommitSha : string) (runId : option N)
    : M (option N) :=
  if truthy_id runId then ret runId else
  match remaining with
  | 0 => ret runId
  | S remaining =>
      sleep 5000%N ;;;
      runId <- getLatestRunId (Some pushedCommitSha) ;;
      waitForRun remaining pushedCommitSha runId
  end.

(** The loop [while (true)] that polls the status of the run; it leaves
    with the status result that says [completed]. *)
Fixpoint pollRun (fuel : nat) (runId : N) : M RunStatus :=
  match fuel with
  | 0 => pending
  | S fuel =>
      statusResult <- getRunStatus runId ;;
      match statusResult with
      | None => sleep 5000%N ;;; pollRun fuel runId
      | Some statusResult =>
          if bool_decide (status statusResult = Some "completed") then ret statusResult
          else sleep POLL_INTERVAL_MS ;;; pollRun fuel runId
      end
  end.

Fixpoint deploy (fuel : nat) (attempt : nat) : M bool :=
  match fuel with
  | 0 => pending
  | S fuel =>
      ghInstalled <- checkGhInstalled ;;
      if negb ghInstalled then ret false else
      r <- run GitBranchShowCurrent ;;
      branch <- String_trim (stdout r) ;;
      if negb (bool_decide (branch = "main")) && negb (bool_decide (branch = "master"))
      then ret false else
      let projectId := if isProduction then "argbase-prod" else "argbase-staging" in
      validationErrors <- validateRemoteConfig projectId ;;
      (if bool_decide (0 < length validationErrors) then syncRemoteConfig projectId
       else ret tt) ;;;
      if isProduction then ret false else
      if bool_decide (MAX_ATTEMPTS < attempt) then ret false else
      beforeRunId <- getLatestRunId None ;;
      r <- run GitStatusPorcelain ;;
      status <- String_trim (stdout r) ;;
      (if truthy (Some status) then
         run GitDiffStat ;;;
         run GitAddAll ;;;
         run (GitCommit "deploy: prepare for deployment") ;;;
         run GitPush ;;;
         ret tt
       else ret tt) ;;;
      r <- run GitRevParseHead ;;
      pushedCommitSha <- String_trim (stdout r) ;;
      sleep 5000%N ;;;
      runId <- getLatestRunId (Some pushedCommitSha) ;;
      runId <- waitForRun 12 pushedCommitSha runId ;;
      match runId with
      | None => ret false
      | Some runId =>
          if bool_decide (runId = 0%N) then ret false else
          statusResult <- pollRun fuel runId ;;
          if bool_decide (conclusion statusResult = Some "success") then ret true else
          logs <- getRunLogs runId ;;
          match logs with
          | None => throw (new_Error "Cannot read properties of undefined (reading 'match')")
          | Some logs =>
              let errors := parseErrors logs in
              if bool_decide (length errors = 0) then ret false else
              fixed <- autoFix errors ;;
              if fixed then deploy fuel (attempt + 1) else ret false
          end
      end
  end.

End Script.

(** *** Sample environments *)

(** [FIREBASE_TOKEN] is set to the non-empty [token]. *)
Definition token_set (env : Env) (token : string) : Prop :=
  FIREBASE_TOKEN env = Some token /\ token <> EmptyString.

(** A staging checkout on [main] with the GitHub and firebase CLIs in
    working order, the sample config in the local file and a live template
    in sync with it; [statusOf t] is the status the workflow run reports at
    time [t]. *)
Definition sample_env (statusOf : nat -> string) : Env :=
  {| FIREBASE_TOKEN := Some "ci-token";
     args := ["--staging"];
     RC_CONFIG_PATH := "/srv/argbase/scripts/framework/remote-config.json";
     exec := fun t cmd =>
       match cmd with
       | FirebasePrintAccessToken => ExecOk ("cli-token" +:+ newline)
       | GitBranchShowCurrent => ExecOk ("main" +:+ newline)
       | GitStatusPorcelain => ExecOk EmptyString
       | GitRevParseHead => ExecOk ("4f2a9c1" +:+ newline)
       | GhRunViewStatus _ => ExecOk (statusOf t)
       | NpmInstall _ => ExecFailed (Some EmptyString)
       | _ => ExecOk EmptyString
       end;
     existsConfig := fun _ => true;
     readConfig := fun _ => Some sample_local;
     fetchGet := fun _ _ _ => HttpOk remote_in_sync;
     fetchPut := fun _ _ _ _ => HttpOk (Some "42");
     parseRunList := fun _ => Some [{| databaseId := 7; headSha := "4f2a9c1" |}];
     parseRunStatus := fun out =>
       if bool_decide (out = EmptyString) then None
       else Some {| status := Some out;
                    conclusion :=
                      if bool_decide (out = "completed") then Some "success" else None |} |}.

(** The same checkout without a working firebase CLI. *)
Definition env_without_cli : Env :=
  {| FIREBASE_TOKEN := Some "ci-token";
     args := ["--staging"];
     RC_CONFIG_PATH := "/srv/argbase/scripts/framework/remote-config.json";
     exec := fun t cmd =>
       match cmd with
       | FirebasePrintAccessToken => ExecFailed (Some EmptyString)
       | _ => exec (sample_env (fun _ => "completed")) t cmd
       end;
     existsConfig := fun _ => true;
     readConfig := fun _ => Some sample_local;
     fetchGet := fun _ _ _ => HttpOk remote_in_sync;
     fetchPut := fun _ _ _ _ => HttpOk (Some "42");
     parseRunList := parseRunList (sample_env (fun _ => "completed"));
     parseRunStatus := parseRunStatus (sample_env (fun _ => "completed")) |}.

(** *** The attempt budget *)

(** The call with which an attempt that got past the guards resolves the
    commit it deploys; it is made once per such attempt, before the
    workflow run is looked for and polled. *)
Definition is_rev_parse (c : Call) : bool :=
  match c with
  | ExecSync GitRevParseHead => true
  | _ => false
  end.

(** The calls made before the guards: the checks of the GitHub CLI and of
    the branch, and the validation and sync of Remote Config. *)
Definition preflight (c : Call) : bool :=
  match c with
  | ExecSync GhVersion | ExecSync GitBranchShowCurrent
  | ExecSync FirebasePrintAccessToken
  | ExistsSync | ReadConfig | FetchGet _ _ | FetchPut _ _ _ => true
  | _ => false
  end.

(** From time [T] on, every query of a run's status says [completed]. *)
Definition runs_complete_from (env : Env) (T : nat) : Prop :=
  forall t runId,
    T <= t ->
    exists out sr,
      exec env t (GhRunViewStatus runId) = ExecOk out
      /\ parseRunStatus env out = Some sr
      /\ status sr = Some "completed".

(** A workflow run that never completes, and one that completes after a
    while. *)
Definition env_never_completes : Env := sample_env (fun _ => "in_progress").
Definition env_completes : Env :=
  sample_env (fun t => if bool_decide (t < 20) then "in_progress" else "completed").

(** *** The outcome of the polled run *)

Definition is_status_query (c : Call) : bool :=
  match c with
  | ExecSync (GhRunViewStatus _) => true
  | _ => false
  end.

Definition last_is_status_query (log : list Call) : bool :=
  match last log with
  | Some c => is_status_query c
  | None => false
  end.

(** What [getRunStatus] makes of the answer to a status query made at
    time [t]. *)
Definition status_answer (env : Env) (t : nat) (runId : N) : option RunStatus :=
  match exec env t (GhRunViewStatus runId) with
  | ExecOk out => parseRunStatus env out
  | ExecFailed out => out ≫= parseRunStatus env
  end.

(** The status result of the last call of the log, when that call is a
    status query. *)
Definition last_status (env : Env) (log : list Call) : option RunStatus :=
  match last log with
  | Some (ExecSync (GhRunViewStatus runId)) => status_answer env (length log - 1) runId
  | _ => None
  end.

(** The last call of the log is a status query, answered [completed] with
    conclusion [success]. *)
Definition ends_in_success (env : Env) (log : list Call) : Prop :=
  exists statusResult,
    last_status env log = Some statusResult
    /\ status statusResult = Some "completed"
    /\ conclusion statusResult = Some "success".

(** The environment in which a status result that does not say [completed]
    carries no conclusion. *)
Definition without_early_conclusions (env : Env) : Env :=
  {| FIREBASE_TOKEN := FIREBASE_TOKEN env;
     args := args env;
     RC_CONFIG_PATH := RC_CONFIG_PATH env;
     exec := exec env;
     existsConfig := existsConfig env;
     readConfig := readConfig env;
     fetchGet := fetchGet env;
     fetchPut := fetchPut env;
     parseRunList := parseRunList env;
     parseRunStatus := fun out =>
       (fun statusResult =>
          if bool_decide (status statusResult = Some "completed") then statusResult
          else {| status := status statusResult; conclusion := None |})
       <$> parseRunStatus env out |}.

(** *** Remote Config is pushed when, and only when, the diff finds errors *)

Definition is_put (c : Call) : bool :=
  match c with
  | FetchPut _ _ _ => true
  | _ => false
  end.

Definition is_get (c : Call) : bool :=
  match c with
  | FetchGet _ _ => true
  | _ => false
  end.

(** The Firebase project of the deploy script: [projectId] of
    [deploy]. *)
Definition targetProject (env : Env) : string :=
  if isProduction env then "argbase-prod" else "argbase-staging".

(** The token [getAccessToken] of the deploy script comes back with when
    it is called at time [t]: the trimmed output of the firebase CLI, else
    a non-empty [FIREBASE_TOKEN]; none when it throws. *)
Definition token_at (env : Env) (t : nat) : option string :=
  match exec env t FirebasePrintAccessToken with
  | ExecOk out => Some (trim out)
  | ExecFailed _ => if truthy (FIREBASE_TOKEN env) then FIREBASE_TOKEN env else None
  end.

(** The calls of a [syncRemoteConfig] that starts at time [t]: the
    existence check; when the file exists, the read; when it parses, the
    token command; and with a token, the PUT of the template built from
    what was read. *)
Definition sync_calls (env : Env) (projectId : string) (t : nat) : list Call :=
  ExistsSync
  :: if existsConfig env t then
       ReadConfig
       :: match readConfig env (t + 1) with
          | Some config =>
              ExecSync FirebasePrintAccessToken
              :: match token_at env (t + 2) with
                 | Some token =>
                     [FetchPut (remoteConfigUrl projectId) token (buildTemplate config)]
                 | None => []
                 end
          | None => []
          end
     else [].

(** Every PUT of the log goes to the project of the script with the token
    obtained one call before, publishes the template built from the local
    file as read two calls before, and follows a validation (the file read
    six calls before, the live template of the same project fetched four
    calls before) whose diff found errors. *)
Definition puts_follow_errors (env : Env) (log : list Call) : Prop :=
  forall i url token body,
    log !! i = Some (FetchPut url token body) ->
    exists localConfig remoteConfig token' config,
      6 <= i
      /\ url = remoteConfigUrl (targetProject env)
      /\ readConfig env (i - 6) = Some localConfig
      /\ log !! (i - 4) = Some (FetchGet url token')
      /\ fetchGet env (i - 4) url token' = HttpOk remoteConfig
      /\ validateRemoteConfig_diff localConfig remoteConfig <> []
      /\ readConfig env (i - 2) = Some config
      /\ token_at env (i - 1) = Some token
      /\ body = buildTemplate config.

(** Every validation of the log whose diff found errors is followed by
    the calls of [syncRemoteConfig] for the project of the script. *)
Definition errors_are_synced (env : Env) (log : list Call) : Prop :=
  forall i url token localConfig remoteConfig,
    log !! i = Some (FetchGet url token) ->
    readConfig env (i - 2) = Some localConfig ->
    fetchGet env i url token = HttpOk remoteConfig ->
    validateRemoteConfig_diff localConfig remoteConfig <> [] ->
    forall j c,
      sync_calls env (targetProject env) (i + 1) !! j = Some c ->
      log !! (i + 1 + j) = Some c.

Definition sync_trace (env : Env) (log : list Call) : Prop :=
  puts_follow_errors env log /\ errors_are_synced env log.

(** What the validation leaves behind: its four calls after [log0], and
    the errors the diff found between what was read and what was
    fetched. *)
Definition validated (env : Env) (projectId : string) (log0 : list Call)
    (errors : list string) (log : list Call) : Prop :=
  exists localConfig remoteConfig token,
    log = log0 ++ [ExistsSync; ReadConfig; ExecSync FirebasePrintAccessToken;
                   FetchGet (remoteConfigUrl projectId) token]
    /\ readConfig env (length log0 + 1) = Some localConfig
    /\ fetchGet env (length log0 + 3) (remoteConfigUrl projectId) token
       = HttpOk remoteConfig
    /\ errors = validateRemoteConfig_diff localConfig remoteConfig.

(** A fetch of the live template that does not reveal errors. *)
Definition benign (env : Env) (i : nat) (url token : string) : Prop :=
  forall localConfig remoteConfig,
    readConfig env (i - 2) = Some localConfig ->
    fetchGet env i url token = HttpOk remoteConfig ->
    validateRemoteConfig_diff localConfig remoteConfig = [].

(** No file the script reads lists conditional values under a name of
    [Object.prototype]: the writes of [syncRemoteConfig] then stay within
    its template, and [Object.prototype] stays as the process started with
    it. *)
Definition never_pollutes (env : Env) : Prop :=
  forall t config, readConfig env t = Some config -> plain_listed config.

(** The sample checkout with a live template that has another conditional
    value. *)
Definition env_out_of_sync : Env :=
  {| FIREBASE_TOKEN := None;
     args := ["--prod"];
     RC_CONFIG_PATH := "/srv/argbase/scripts/framework/remote-config.json";
     exec := exec (sample_env (fun _ => "completed"));
     existsConfig := fun _ => true;
     readConfig := fun _ => Some sample_local;
     fetchGet := fun _ _ _ => HttpOk remote_other_value;
     fetchPut := fun _ _ _ _ => HttpOk (Some "43");
     parseRunList := parseRunList (sample_env (fun _ => "completed"));
     parseRunStatus := parseRunStatus (sample_env (fun _ => "completed")) |}.

(** The same checkout with a local file that lists its conditional value
    for a parameter [constructor] it does not have, and a live template
    without parameters. *)
Definition env_listed_constructor : Env :=
  {| FIREBASE_TOKEN := None;
     args := ["--prod"];
     RC_CONFIG_PATH := "/srv/argbase/scripts/framework/remote-config.json";
     exec := exec (sample_env (fun _ => "completed"));
     existsConfig := fun _ => true;
     readConfig := fun _ => Some local_listed_constructor;
     fetchGet := fun _ _ _ => HttpOk remote_empty;
     fetchPut := fun _ _ _ _ => HttpOk (Some "44");
     parseRunList := parseRunList (sample_env (fun _ => "completed"));
     parseRunStatus := parseRunStatus (sample_env (fun _ => "completed")) |}.

(** The sample checkout with a workflow run that completes with the
    conclusion [failure], and whose logs cannot be had: [gh run view
    --log] fails without output. *)
Definition env_logs_unavailable : Env :=
  {| FIREBASE_TOKEN := Some "ci-token";
     args := ["--staging"];
     RC_CONFIG_PATH := "/srv/argbase/scripts/framework/remote-config.json";
     exec := fun t cmd =>
       match cmd with
       | GhRunViewLog _ => ExecFailed None
       | _ => exec (sample_env (fun _ => "completed")) t cmd
       end;
     existsConfig := fun _ => true;
     readConfig := fun _ => Some sample_local;
     fetchGet := fun _ _ _ => HttpOk remote_in_sync;
     fetchPut := fun _ _ _ _ => HttpOk (Some "42");
     parseRunList := parseRunList (sample_env (fun _ => "completed"));
     parseRunStatus := fun _ =>
       Some {| status := Some "completed"; conclusion := Some "failure" |} |}.

(** *** Guards, fixes and waiting *)

(** A commit or a push. *)
Definition is_commit_or_push (c : Call) : bool :=
  match c with
  | ExecSync GitAddAll | ExecSync (GitCommit _) | ExecSync GitPush => true
  | _ => false
  end.

Definition is_run_list (c : Call) : bool :=
  match c with
  | ExecSync (GhRunList _) => true
  | _ => false
  end.

Definition is_sleep (c : Call) : bool :=
  match c with
  | Sleep _ => true
  | _ => false
  end.

(** The working tree is clean whenever it is asked: [git status
    --porcelain] prints nothing but white space. *)
Definition always_clean (env : Env) : Prop :=
  forall t, exists out, exec env t GitStatusPorcelain = ExecOk out /\ trim out = EmptyString.

(** How long [pollRun] sleeps after a status answer that does not end
    the loop: five seconds when the answer cannot be used, the polling
    interval otherwise. *)
Definition poll_wait (answer : option RunStatus) : N :=
  match answer with
  | None => 5000%N
  | Some _ => POLL_INTERVAL_MS
  end.

Definition completed (answer : option RunStatus) : bool :=
  match answer with
  | Some statusResult => bool_decide (status statusResult = Some "completed")
  | None => false
  end.

(** [n] rounds of polling from time [t]: a status query, then the sleep
    its answer asks for. *)
Fixpoint poll_trace (env : Env) (runId : N) (t n : nat) : list Call :=
  match n with
  | 0 => []
  | S n =>
      ExecSync (GhRunViewStatus runId)
        :: Sleep (poll_wait (status_answer env t runId))
        :: poll_trace env runId (t + 2) n
  end.

(** The fixes [autoFix] runs for a list of entries, in order: [eslint
    --fix] for an eslint entry, one [npm install] for each match of a
    dependency entry. *)
Definition fix_commands (errors : list ErrorEntry) : list Command :=
  flat_map (fun error =>
      (if bool_decide (type error = "eslint") then [EslintFix] else [])
      ++ (if bool_decide (type error = "dependency") then NpmInstall <$> matches error
          else []))
    errors.

(** [n] rounds of waiting for the workflow run to show up: a sleep of
    five seconds, then a query of the run list. *)
Fixpoint wait_trace (workflow : string) (n : nat) : list Call :=
  match n with
  | 0 => []
  | S n => Sleep 5000 :: ExecSync (GhRunList workflow) :: wait_trace workflow n
  end.

(** Some fix succeeded: one of the commands, run one after the other from
    time [t], exited with status zero. *)
Fixpoint some_fix_succeeds (env : Env) (t : nat) (fixes : list Command) : bool :=
  match fixes with
  | [] => false
  | cmd :: fixes =>
      match exec env t cmd with
      | ExecOk _ => true
      | ExecFailed _ => false
      end
      || some_fix_succeeds env (S t) fixes
  end.

(** The output of [git status --porcelain] asked at time [t], if there is
    any. *)
Definition status_output (env : Env) (t : nat) : option string :=
  match exec env t GitStatusPorcelain with
  | ExecOk out => Some out
  | ExecFailed out => out
  end.

(** A checkout whose workflow never shows up in the run list. *)
Definition env_no_runs : Env :=
  {| FIREBASE_TOKEN := Some "ci-token";
     args := ["--staging"];
     RC_CONFIG_PATH := "/srv/argbase/scripts/framework/remote-config.json";
     exec := exec (sample_env (fun _ => "completed"));
     existsConfig := fun _ => true;
     readConfig := fun _ => Some sample_local;
     fetchGet := fun _ _ _ => HttpOk remote_in_sync;
     fetchPut := fun _ _ _ _ => HttpOk (Some "42");
     parseRunList := fun _ => Some [];
     parseRunStatus := parseRunStatus (sample_env (fun _ => "completed")) |}.

(** One of the fixes of [autoFix], or its look at the working tree. *)
Definition is_fix_or_status (c : Call) : bool :=
  match c with
  | ExecSync EslintFix | ExecSync (NpmInstall _) | ExecSync GitStatusPorcelain => true
  | _ => false
  end.

(** An entry [autoFix] has a fix for. *)
Definition fixable (e : ErrorEntry) : bool :=
  bool_decide (type e = "eslint") || bool_decide (type e = "dependency").

(** What [getLatestRunId] makes of the answer to [gh run list] at time
    [t]. *)
Definition run_list_answer (env : Env) (t : nat) : option (list RunInfo) :=
  match exec env t (GhRunList (workflowName env)) with
  | ExecOk out => parseRunList env out
  | ExecFailed out => out ≫= parseRunList env
  end.

(** The sample checkout on a feature branch, and without the GitHub
    CLI. *)
Definition env_on_branch : Env :=
  {| FIREBASE_TOKEN := None;
     args := [];
     RC_CONFIG_PATH := "/srv/argbase/scripts/framework/remote-config.json";
     exec := fun t cmd =>
       match cmd with
       | GitBranchShowCurrent => ExecOk ("feature/login" +:+ newline)
       | _ => exec (sample_env (fun _ => "completed")) t cmd
       end;
     existsConfig := fun _ => false;
     readConfig := fun _ => None;
     fetchGet := fun _ _ _ => HttpFailed;
     fetchPut := fun _ _ _ _ => HttpFailed;
     parseRunList := fun _ => None;
     parseRunStatus := fun _ => None |}.

(** The sample checkout on [main] without the local file. *)
Definition env_without_file : Env :=
  {| FIREBASE_TOKEN := None;
     args := [];
     RC_CONFIG_PATH := "/srv/argbase/scripts/framework/remote-config.json";
     exec := exec (sample_env (fun _ => "completed"));
     existsConfig := fun _ => false;
     readConfig := fun _ => None;
     fetchGet := fun _ _ _ => HttpFailed;
     fetchPut := fun _ _ _ _ => HttpFailed;
     parseRunList := fun _ => None;
     parseRunStatus := fun _ => None |}.

End Deploy.

(** ** The auth context *)

Module Auth.

(** What a thrown value or a returned value is. *)
Inductive Result (A : Type) : Type :=
| Ok (a : A)
| Thrown (message : string).
Arguments Ok {A} a.
Arguments Thrown {A} message.

Section Context.
(** The Auth instance handed to the provider, and the signed-in user. *)
Variables AuthInstance User : Type.

(** The calls of [firebase/auth] the context operations pass on. *)
Inductive AuthCall : Type :=
| signInWithEmailAndPassword (auth : AuthInstance) (email password : string)
| createUserWithEmailAndPassword (auth : AuthInstance) (email password : string)
| signInWithPopup (auth : AuthInstance)
| signOut (auth : AuthInstance).

(** The value of the context. *)
Record AuthValue : Type := {
  user : option User;
  loading : bool;
  login : string -> string -> AuthCall;
  signup : string -> string -> AuthCall;
  loginWithGoogle : AuthCall;
  logout : AuthCall
}.

(** The state of an [AuthProvider]: [useState(null)] and
    [useState(true)], both set by the listener of [onAuthStateChanged]. *)
Record ProviderState : Type := { st_user : option User; st_loading : bool }.

Definition initialState : ProviderState := {| st_user := None; st_loading := true |}.

Definition onAuthStateChanged (u : option User) (st : ProviderState) : ProviderState :=
  {| st_user := u; st_loading := false |}.

(** The [value] an [AuthProvider] hands to its children. *)
Definition AuthProvider (auth : AuthInstance) (st : ProviderState) : AuthValue :=
  {| user := st_user st;
     loading := st_loading st;
     login := fun email password => signInWithEmailAndPassword auth email password;
     signup := fun email password => createUserWithEmailAndPassword auth email password;
     loginWithGoogle := signInWithPopup auth;
     logout := signOut auth |}.

(** [useContext(AuthContext)] at a place of the tree, given the values of
    the providers around it, the nearest first: the value of the nearest
    provider, and the default [null] of [createContext(null)] when there is
    none. *)
Definition useContext (providers : list AuthValue) : option AuthValue := head providers.

Definition useAuth (providers : list AuthValue) : Result AuthValue :=
  let context := useContext providers in
  match context with
  | None => Thrown "useAuth must be used within an AuthProvider"
  | Some context => Ok context
  end.

End Context.

Arguments user {AuthInstance User}.
Arguments loading {AuthInstance User}.
Arguments login {AuthInstance User}.
Arguments signup {AuthInstance User}.
Arguments loginWithGoogle {AuthInstance User}.
Arguments logout {AuthInstance User}.
Arguments useAuth {AuthInstance User}.
Arguments useContext {AuthInstance User}.
Arguments AuthProvider {AuthInstance User}.
Arguments initialState {User}.
Arguments onAuthStateChanged {User}.

End Auth.

(** ** Feature flags: the Remote Config fetch and the hook *)

Module FeatureFlags.
Import JS Auth.

(** An entry of the registry [FEATURE_FLAGS]. *)
Record Flag : Type := { key : string; default : string }.

(** The Remote Config SDK as [fetchFeatureFlags] meets it: whether the
    instance can be set up, whether [fetchAndActivate] resolves, and what
    [getString] yields for a key given the installed defaults ([None]
    when it throws). *)
Record Sdk : Type := {
  initializes : bool;
  fetchAndActivate : bool;
  getString : gmap string string -> string -> option string
}.

Definition bindR {A B : Type} (r : Result A) (k : A -> Result B) : Result B :=
  match r with
  | Ok a => k a
  | Thrown message => Thrown message
  end.

Definition catchR {A : Type} (r : Result A) (handler : string -> Result A) : Result A :=
  match r with
  | Ok a => Ok a
  | Thrown message => handler message
  end.

(** A loop [for (const x of xs)] filling an object, any step of which may
    throw. *)
Fixpoint for_each {A S : Type} (xs : list A) (body : S -> A -> Result S) (s : S)
    : Result S :=
  match xs with
  | [] => Ok s
  | x :: xs' => bindR (body s x) (for_each xs' body)
  end.

Section Fetch.
(** [Object.values(FEATURE_FLAGS)], of ['../config/featureFlags']. *)
Variable FEATURE_FLAGS : list Flag.

(** The loop that collects the declared defaults. *)
Definition declaredDefaults : gmap string string :=
  foldl (fun defaults flag => <[key flag := default flag]> defaults) ∅ FEATURE_FLAGS.

Definition getRemoteConfigInstance (sdk : Sdk) : Result Sdk :=
  if initializes sdk then Ok sdk else Thrown "initializeApp failed".

Definition fetchFeatureFlags (sdk : Sdk) : Result (gmap string string) :=
  catchR
    (bindR (getRemoteConfigInstance sdk) (fun rc =>
     let defaults := declaredDefaults in
     bindR (if fetchAndActivate rc then Ok tt else Thrown "fetchAndActivate failed")
       (fun _ =>
     bindR (for_each FEATURE_FLAGS (fun flags flag =>
              match getString rc defaults (key flag) with
              | Some value => Ok (<[key flag := value]> flags)
              | None => Thrown "getString failed"
              end) ∅) (fun flags =>
     Ok flags))))
    (fun error =>
       let fallback :=
         foldl (fun fallback flag => <[key flag := default flag]> fallback) ∅ FEATURE_FLAGS in
       Ok fallback).


End Fetch.

(** *** The hook *)

(** The browser as the hook meets it. *)
Record Window : Type := {
  hostname : string;
  (** the entries of [localStorage], in the order of [Object.keys] *)
  localStorage : list (string * string);
  (** [window.__FLAG_TEST_MODE__] and [window.__FEATURE_FLAGS__] *)
  FLAG_TEST_MODE : option (gmap string string);
  FEATURE_FLAGS_cache : option (gmap string string)
}.

(** [s.startsWith(prefix)] and [s.includes(sub)]. *)
Definition startsWith (s prefix : string) : bool := String.prefix prefix s.

Fixpoint includes (s sub : string) : bool :=
  String.prefix sub s
  || match s with
     | EmptyString => false
     | String _ s' => includes s' sub
     end.

(** [window] is [None] where [typeof window === 'undefined']. *)
Definition getTestOverride (window : option Window) : option (gmap string string) :=
  match window with
  | Some window => FLAG_TEST_MODE window
  | None => None
  end.

Definition isStaging (window : option Window) : bool :=
  match window with
  | None => false
  | Some window => includes (hostname window) "staging"
  end.

Fixpoint firstBetaKey (entries : list (string * string)) : bool :=
  match entries with
  | [] => false
  | (key, value) :: entries' =>
      if startsWith key "beta_enabled_" then bool_decide (value = "true")
      else firstBetaKey entries'
  end.

Definition getBetaFromStorage (window : option Window) : bool :=
  match window with
  | None => false
  | Some window => firstBetaKey (localStorage window)
  end.

(** [flags[flagKey] || null] *)
Definition flag_or_null (flags : gmap string string) (flagKey : string) : option string :=
  match flags !! flagKey with
  | Some value => if bool_decide (value = EmptyString) then None else Some value
  | None => None
  end.


Section Hook.
Variable FEATURE_FLAGS : list Flag.
Variable sdk : Sdk.


(** [loadFlag]: the value it hands to [setFlagValue], and the window it
    leaves (the fetched flags are cached in [window.__FEATURE_FLAGS__]). *)
Definition loadFlag (window : option Window) (flagKey : string)
    : option string * option Window :=
  if isStaging window && bool_decide (flagKey = "navigation_banner")
  then (Some "beta", window)
  else if bool_decide (flagKey = "navigation_banner") && getBetaFromStorage window
  then (Some "beta", window)
  else
    match getTestOverride window with
    | Some testOverride => (flag_or_null testOverride flagKey, window)
    | None =>
        match window with
        | None => (None, window)
        | Some w =>
            match FEATURE_FLAGS_cache w with
            | Some flags => (flag_or_null flags flagKey, window)
            | None =>
                match fetchFeatureFlags FEATURE_FLAGS sdk with
                | Ok flags =>
                    (flag_or_null flags flagKey,
                     Some {| hostname := hostname w;
                             localStorage := localStorage w;
                             FLAG_TEST_MODE := FLAG_TEST_MODE w;
                             FEATURE_FLAGS_cache := Some flags |})
                | Thrown _ => (None, window)
                end
            end
        end
    end.



(** The hook overrides the flags it is delivered. *)
Definition overridden (window : option Window) (flagKey : string) : Prop :=
  flagKey = "navigation_banner"
  /\ (isStaging window = true \/ getBetaFromStorage window = true).

End Hook.

(** *** Samples *)

Definition sample_flags : list Flag :=
  [{| key := "navigation_banner"; default := "control" |};
   {| key := "search_v2"; default := "off" |}].

Definition sample_sdk : Sdk :=
  {| initializes := true;
     fetchAndActivate := true;
     getString := fun defaults k =>
       match defaults !! k with
       | Some value => Some value
       | None => Some EmptyString
       end |}.

Definition offline_sdk : Sdk :=
  {| initializes := true; fetchAndActivate := false; getString := fun _ _ => None |}.


Definition production_window : Window :=
  {| hostname := "argbase.org";
     localStorage := [("theme", "dark")];
     FLAG_TEST_MODE := None;
     FEATURE_FLAGS_cache := None |}.

(** A production page of a visitor who turned the beta off and on again
    under two keys. *)
Definition beta_window : Window :=
  {| hostname := "argbase.org";
     localStorage := [("theme", "dark"); ("beta_enabled_ada", "true");
                      ("beta_enabled_bob", "false")];
     FLAG_TEST_MODE := None;
     FEATURE_FLAGS_cache := None |}.

End FeatureFlags.

(** ** The validator script: its project and its exit code *)

Module ValidatorScript.
Import JS RemoteConfig Node Node.Notations.

(** [args.indexOf(x)]: the first position of [x], or [-1]. *)
Definition indexOf (args : list string) (x : string) : Z :=
  match list_find (fun arg => arg = x) args with
  | Some (i, _) => Z.of_nat i
  | None => (-1)%Z
  end.

Section Script.
Variable env : Env.

(** [getProjectId()] of validate-remote-config.cjs. *)
Definition getProjectId : string :=
  let args := args env in
  let prodIndex := indexOf args "--prod" in
  let stagingIndex := indexOf args "--staging" in
  if bool_decide (prodIndex <> (-1)%Z) then "argbase-prod"
  else if bool_decide (stagingIndex <> (-1)%Z) then "argbase-staging"
  else "argbase-staging".

(** [getRemoteConfig(projectId)] of validate-remote-config.cjs. *)
Definition getRemoteConfig (projectId : string) : M Config :=
  token <- Validator.getAccessToken env ;;
  let url := Deploy.remoteConfigUrl projectId in
  response <- call (FetchGet url token) (fun t => fetchGet env t url token) ;;
  match response with
  | HttpFailed => throw (new_Error "fetch failed")
  | HttpNotOk error => throw (new_Error ("Failed to get Remote Config: " +:+ error))
  | HttpOk body => ret body
  end.

(** [main()] of validate-remote-config.cjs; it returns the exit status
    of the process: the argument of [process.exit] where it is called,
    and zero when [main] runs to its end. *)
Definition main : M N :=
  let projectId := getProjectId in
  exists_ <- call ExistsSync (existsConfig env) ;;
  if negb exists_ then ret 1%N else
  localConfig <-
    (config <- call ReadConfig (readConfig env) ;;
     match config with
     | Some config => ret config
     | None => throw (new_Error "remote-config.json cannot be read as JSON")
     end) ;;
  remoteConfig <- getRemoteConfig projectId ;;
  let result := validate localConfig remoteConfig in
  if bool_decide (0 < length (errors result)) then ret 1%N else
  match parameters localConfig with
  | Some _ => ret 0%N
  | None => throw (new_Error "Cannot convert undefined or null to object")
  end.

(** [main().catch(err => { ...; process.exit(1) })] *)
Definition script : M N := try_catch main (fun err => ret 1%N).

End Script.

(** The call, when it is a request to the Remote Config API, addresses
    the template of [projectId]. *)
Definition targets (projectId : string) (c : Call) : Prop :=
  match c with
  | FetchGet url _ | FetchPut url _ _ => url = Deploy.remoteConfigUrl projectId
  | _ => True
  end.

(** A local file that passes validation but has no [parameters]. *)
Definition config_without_parameters : Config :=
  {| parameters := None; conditions := None; conditionalValues := None |}.

Definition env_without_parameters : Env :=
  {| FIREBASE_TOKEN := Some "ci-token";
     args := ["--staging"; "--prod"];
     RC_CONFIG_PATH := "/srv/argbase/scripts/framework/remote-config.json";
     exec := fun _ _ => ExecOk EmptyString;
     existsConfig := fun _ => true;
     readConfig := fun _ => Some config_without_parameters;
     fetchGet := fun _ _ _ => HttpOk config_without_parameters;
     fetchPut := fun _ _ _ _ => HttpOk None;
     parseRunList := fun _ => None;
     parseRunStatus := fun _ => None |}.

End ValidatorScript.

(** * Properties *)

(** ** Facts about objects and loops *)

Module JSFacts.
Import JS.

Lemma obj_get_elem_of {V : Type} (o : obj V) (k : string) (v : V) :
  obj_get o k = Some v -> (k, v) ∈ o.
Proof.
  induction o as [|[k' v'] o IH]; simpl; [done|].
  case_bool_decide as Hk.
  - intros [= ->]. subst k'. apply list_elem_of_here.
  - intros H. apply list_elem_of_further, IH, H.
Qed.


Lemma foldl_push_flat_map {A B : Type} (f : A -> list B) (g : list B -> A -> list B)
    (xs : list A) (acc : list B) :
  (forall acc x, g acc x = acc ++ f x) ->
  foldl g acc xs = acc ++ flat_map f xs.
Proof.
  intros Hg. revert acc. induction xs as [|x xs IH]; intros acc; simpl.
  - by rewrite app_nil_r.
  - by rewrite IH, Hg, <- app_assoc.
Qed.




Lemma obj_set_fresh {V : Type} (o : obj V) (k : string) (v : V) :
  k ∉ keys o -> obj_set o k v = o ++ [(k, v)].
Proof.
  unfold keys. induction o as [|[k0 v0] o IH]; simpl; [done|].
  intros [Hne Hk]%not_elem_of_cons. rewrite bool_decide_false by congruence.
  by rewrite IH.
Qed.

(** Filling an object entry by entry from entries with distinct, fresh
    keys appends them in order. *)
Lemma foldl_obj_set_fresh {V : Type} (acc entries : obj V) :
  NoDup (keys entries) -> (forall k, k ∈ keys entries -> k ∉ keys acc) ->
  foldl (fun o '(k, v) => obj_set o k v) acc entries = acc ++ entries.
Proof.
  revert acc. induction entries as [|[k v] entries IH]; intros acc Hnodup Hfresh; simpl.
  - by rewrite app_nil_r.
  - unfold keys in *. simpl in Hnodup. apply NoDup_cons in Hnodup as [Hk Hnodup].
    rewrite obj_set_fresh by (apply Hfresh; simpl; apply list_elem_of_here).
    rewrite IH; [by rewrite <- app_assoc | done |].
    intros k' Hk'. rewrite fmap_app, not_elem_of_app. split.
    + apply Hfresh. simpl. by apply list_elem_of_further.
    + simpl. rewrite list_elem_of_singleton. by intros ->.
Qed.


Lemma obj_lookup_own {V : Type} (inherited : V) (o : obj V) (k : string) (v : V) :
  obj_get o k = Some v -> obj_lookup inherited o k = Some v.
Proof. unfold obj_lookup. by intros ->. Qed.

Lemma obj_lookup_plain {V : Type} (inherited : V) (o : obj V) (k : string) :
  k ∉ Object_prototype -> obj_lookup inherited o k = obj_get o k.
Proof.
  intros Hk. unfold obj_lookup. destruct (obj_get o k); [done|].
  by rewrite bool_decide_false.
Qed.

Lemma obj_lookup_inherited {V : Type} (inherited : V) (o : obj V) (k : string) :
  obj_get o k = None -> k ∈ Object_prototype -> obj_lookup inherited o k = Some inherited.
Proof. intros Hnone Hk. unfold obj_lookup. by rewrite Hnone, bool_decide_true. Qed.

(** An inherited object has no enumerable entries of its own: where an
    object of entries is expected, the inherited one counts as empty. *)
Lemma default_obj_lookup_nil {V : Type} (o : obj (obj V)) (k : string) :
  default [] (obj_lookup [] o k) = default [] (obj_get o k).
Proof. unfold obj_lookup, obj in *. destruct (obj_get o k); [done|]. by case_bool_decide. Qed.




End JSFacts.

(** ** The Remote Config diff *)

Module RemoteConfigFacts.
Import JS JSFacts RemoteConfig.

Lemma validate_errors_eq (localConfig remoteConfig : Config) :
  errors (validate localConfig remoteConfig)
  = flat_map (parameter_errors true localConfig remoteConfig)
      (default [] (parameters localConfig))
    ++ flat_map (condition_errors true remoteConfig) (default [] (conditions localConfig)).
Proof.
  unfold validate; simpl.
  rewrite (foldl_push_flat_map (condition_errors true remoteConfig)).
  2:{ intros acc c. unfold condition_errors, push.
      destruct (find_condition _ c); [|done].
      case_bool_decide; simpl; [by rewrite app_nil_r | done]. }
  f_equal.
  rewrite (foldl_push_flat_map (parameter_errors true localConfig remoteConfig)); [done|].
  intros acc [k p]. unfold parameter_errors, entries, push; simpl.
  destruct (obj_lookup _ _ k) as [rp|]; [|done].
  rewrite (foldl_push_flat_map
             (conditional_errors true k (default [] (paramConditionalValues rp)))).
  2:{ intros acc' [c v]. unfold conditional_errors; simpl.
      destruct (obj_lookup _ _ c); [|done].
      case_bool_decide; [by rewrite app_nil_r | done]. }
  unfold default_of. case_bool_decide; simpl; [done | by rewrite <- app_assoc].
Qed.

Lemma validateRemoteConfig_diff_eq (localConfig remoteConfig : Config) :
  validateRemoteConfig_diff localConfig remoteConfig
  = flat_map (parameter_errors false localConfig remoteConfig)
      (default [] (parameters localConfig))
    ++ flat_map (condition_errors false remoteConfig) (default [] (conditions localConfig)).
Proof.
  unfold validateRemoteConfig_diff; simpl.
  rewrite (foldl_push_flat_map (condition_errors false remoteConfig)).
  2:{ intros acc c. unfold condition_errors, push.
      destruct (find_condition _ c); [|done]. simpl. by rewrite app_nil_r. }
  f_equal.
  rewrite (foldl_push_flat_map (parameter_errors false localConfig remoteConfig)); [done|].
  intros acc [k p]. unfold parameter_errors, entries, push; simpl.
  destruct (obj_lookup _ _ k) as [rp|]; [|done].
  rewrite (foldl_push_flat_map
             (conditional_errors false k (default [] (paramConditionalValues rp)))).
  2:{ intros acc' [c v]. unfold conditional_errors; simpl.
      destruct (obj_lookup _ _ c); [|done].
      case_bool_decide; [by rewrite app_nil_r | done]. }
  unfold default_of. case_bool_decide; simpl; [done | by rewrite <- app_assoc].
Qed.

Lemma flat_map_nil_iff {A B : Type} (f : A -> list B) (l : list A) :
  flat_map f l = [] <-> forall x, x ∈ l -> f x = [].
Proof.
  induction l as [|a l IH]; simpl.
  - split; [intros _ x Hx; by apply elem_of_nil in Hx | done].
  - split.
    + intros H. apply app_eq_nil in H as [Ha Hl]. intros x Hx.
      apply elem_of_cons in Hx as [->|Hx]; [done | by apply IH].
    + intros H. rewrite (H a) by apply list_elem_of_here. simpl.
      apply IH. intros x Hx. apply H. by apply list_elem_of_further.
Qed.

Lemma flat_map_ext_elem_of {A B : Type} (f g : A -> list B) (l : list A) :
  (forall x, x ∈ l -> f x = g x) -> flat_map f l = flat_map g l.
Proof.
  induction l as [|a l IH]; simpl; [done|]. intros H.
  rewrite (H a) by apply list_elem_of_here. f_equal.
  apply IH. intros x Hx. apply H. by apply list_elem_of_further.
Qed.

(** A conditional value that exists remotely with an equal value is no
    error; a conditional value without error exists remotely with an
    equal value when its name is no name of [Object.prototype]. *)
Lemma conditional_in_sync_no_error (long : bool) (paramKey : string)
    (remoteParam : Param) (e : string * ParamValue) :
  conditional_in_sync remoteParam e.1 e.2 ->
  conditional_errors long paramKey (default [] (paramConditionalValues remoteParam)) e = [].
Proof.
  intros (rv & Hget & Hvalue). unfold conditional_errors.
  rewrite (obj_lookup_own _ _ _ _ Hget). by rewrite bool_decide_true.
Qed.

Lemma conditional_errors_nil (long : bool) (paramKey : string)
    (remoteParam : Param) (e : string * ParamValue) :
  plain e.1 ->
  conditional_errors long paramKey (default [] (paramConditionalValues remoteParam)) e = []
  <-> conditional_in_sync remoteParam e.1 e.2.
Proof.
  intros Hplain. split; [|apply conditional_in_sync_no_error].
  unfold conditional_errors, conditional_in_sync. rewrite obj_lookup_plain by done.
  destruct (obj_get _ e.1) as [rv|]; [|done].
  case_bool_decide as Hv; [|done]. intros _. by exists rv.
Qed.

Lemma parameter_in_sync_no_error (long : bool) (localConfig remoteConfig : Config)
    (e : string * Param) :
  parameter_in_sync localConfig remoteConfig e.1 e.2 ->
  parameter_errors long localConfig remoteConfig e = [].
Proof.
  intros (rp & Hget & Hd & Hc). unfold parameter_errors.
  rewrite (obj_lookup_own _ _ _ _ Hget), bool_decide_true by done. simpl.
  rewrite default_obj_lookup_nil.
  apply flat_map_nil_iff. intros [c v] Hin.
  apply conditional_in_sync_no_error. by apply Hc.
Qed.

Lemma parameter_errors_nil (long : bool) (localConfig remoteConfig : Config)
    (e : string * Param) :
  plain e.1 ->
  Forall plain (keys (default [] (obj_get (default [] (conditionalValues localConfig)) e.1))) ->
  parameter_errors long localConfig remoteConfig e = []
  <-> parameter_in_sync localConfig remoteConfig e.1 e.2.
Proof.
  intros Hplain Hlisted. split; [|apply parameter_in_sync_no_error].
  unfold parameter_errors, parameter_in_sync.
  rewrite (obj_lookup_plain inheritedParam) by done.
  destruct (obj_get (default [] (parameters remoteConfig)) e.1) as [rp|]; [|done].
  rewrite default_obj_lookup_nil.
  intros H. apply app_eq_nil in H as [Hd Hc]. exists rp. split; [done|].
  split; [by case_bool_decide|].
  intros c v Hin. rewrite flat_map_nil_iff in Hc.
  apply (conditional_errors_nil long e.1 rp (c, v)); [|by apply Hc].
  rewrite Forall_forall in Hlisted. apply Hlisted.
  unfold keys. apply list_elem_of_fmap. by exists (c, v).
Qed.

Lemma find_condition_Some (conds : list Condition) (c rc : Condition) :
  find_condition conds c = Some rc -> rc ∈ conds /\ name rc = name c.
Proof.
  unfold find_condition. intros [Hin Hname]%find_some.
  split; [by apply list_elem_of_In | by apply bool_decide_eq_true in Hname].
Qed.

Lemma find_condition_NoDup (conds : list Condition) (c rc : Condition) :
  NoDup (name <$> conds) -> rc ∈ conds -> name rc = name c ->
  find_condition conds c = Some rc.
Proof.
  unfold find_condition. induction conds as [|c' conds IH]; simpl; intros Hnodup Hin Hname.
  - by apply elem_of_nil in Hin.
  - apply NoDup_cons in Hnodup as [Hfresh Hnodup].
    apply elem_of_cons in Hin as [->|Hin].
    + by rewrite bool_decide_true.
    + rewrite bool_decide_false; [by apply IH|].
      intros Hname'. apply Hfresh. rewrite Hname', <- Hname.
      apply list_elem_of_fmap. by exists rc.
Qed.

Lemma condition_errors_nil (remoteConfig : Config) (localCond : Condition) :
  NoDup (name <$> default [] (conditions remoteConfig)) ->
  condition_errors true remoteConfig localCond = []
  <-> condition_in_sync remoteConfig localCond.
Proof.
  intros Hnodup. unfold condition_errors, condition_in_sync. split.
  - destruct (find_condition _ localCond) as [rc|] eqn:Hfind; [|done].
    apply find_condition_Some in Hfind as [Hin Hname].
    simpl. case_bool_decide as He; [|done]. intros _. by exists rc.
  - intros (rc & Hin & Hname & Hexpr).
    rewrite (find_condition_NoDup _ _ rc) by done.
    by rewrite bool_decide_true.
Qed.

Lemma validate_warnings_eq (localConfig remoteConfig : Config) :
  warnings (validate localConfig remoteConfig)
  = flat_map (fun paramKey =>
                match obj_lookup inheritedParam (default [] (parameters localConfig))
                        paramKey with
                | None => [msg_extra_parameter paramKey]
                | Some _ => []
                end)
      (keys (default [] (parameters remoteConfig))).
Proof.
  unfold validate; simpl.
  rewrite (foldl_push_flat_map
             (fun paramKey =>
                match obj_lookup inheritedParam (default [] (parameters localConfig))
                        paramKey with
                | None => [msg_extra_parameter paramKey]
                | Some _ => []
                end)); [done|].
  intros acc k. destruct (obj_lookup _ _ k); [by rewrite app_nil_r | done].
Qed.

(** C1.  [validate] does not report every parameter the remote template
    lacks.  It reads [remoteParams[paramKey]] through the prototype chain:
    the local parameter [constructor], with the in-app default, is found in
    a remote template without parameters as [Object.prototype.constructor],
    so [validate] returns no error and no warning though the two configs
    are not in sync.  Nor is the remote parameter [toString], which the
    local file lacks, reported as extra. *)
Theorem validate_inherited_parameter :
  validate local_constructor remote_empty = {| errors := []; warnings := [] |}
  /\ obj_get (default [] (parameters remote_empty)) "constructor" = None
  /\ ~ in_sync local_constructor remote_empty
  /\ obj_get (default [] (parameters sample_local)) "toString" = None
  /\ warnings (validate sample_local remote_toString) = [].
Proof.
  split; [reflexivity|]. split; [reflexivity|]. split; [|split; reflexivity].
  intros [Hparams _].
  destruct (Hparams "constructor"
              {| defaultValue := Some {| value := None |}; paramConditionalValues := None |})
    as (rp & Hget & _); [apply list_elem_of_here | discriminate Hget].
Qed.

(** X23.  For a local config none of whose keys is a name of
    [Object.prototype], and a remote config whose conditions have distinct
    names, [validate] reports no error exactly when every local parameter
    exists remotely with an equal default value, every conditional value
    the local config lists for it exists remotely with an equal value, and
    every local condition exists remotely under the same name with an
    identical expression.  Remote parameters that the local config does not
    have change nothing in the errors, and each of them that is no name of
    [Object.prototype] is reported as a warning. *)
Theorem validate_no_errors_iff_in_sync (localConfig remoteConfig : Config) :
  plain_keys localConfig ->
  NoDup (name <$> default [] (conditions remoteConfig)) ->
  (errors (validate localConfig remoteConfig) = [] <-> in_sync localConfig remoteConfig)
  /\ (forall remoteConfig',
        same_on_local localConfig remoteConfig remoteConfig' ->
        errors (validate localConfig remoteConfig')
        = errors (validate localConfig remoteConfig))
  /\ (forall paramKey,
        paramKey ∈ keys (default [] (parameters remoteConfig)) ->
        obj_get (default [] (parameters localConfig)) paramKey = None ->
        plain paramKey ->
        msg_extra_parameter paramKey ∈ warnings (validate localConfig remoteConfig)).
Proof.
  intros [Hplain Hlisted] Hnames.
  assert (forall k p, (k, p) ∈ default [] (parameters localConfig) ->
            parameter_errors true localConfig remoteConfig (k, p) = []
            <-> parameter_in_sync localConfig remoteConfig k p) as Hparameter.
  { intros k p Hin. apply (parameter_errors_nil true localConfig remoteConfig (k, p)).
    - rewrite Forall_forall in Hplain. apply Hplain.
      unfold keys. apply list_elem_of_fmap. by exists (k, p).
    - simpl. destruct (obj_get _ k) as [listed|] eqn:Hget; [|constructor].
      rewrite Forall_forall in Hlisted.
      apply (Hlisted (k, listed)). by apply obj_get_elem_of. }
  split; [|split].
  - rewrite validate_errors_eq. unfold in_sync. split.
    + intros H. apply app_eq_nil in H as [Hp Hc].
      rewrite flat_map_nil_iff in Hp. rewrite flat_map_nil_iff in Hc. split.
      * intros k p Hin. by apply Hparameter, Hp.
      * intros c Hin. by apply condition_errors_nil, Hc.
    + intros [Hp Hc].
      assert (flat_map (parameter_errors true localConfig remoteConfig)
                (default [] (parameters localConfig)) = []) as ->.
      { apply flat_map_nil_iff. intros [k p] Hin. apply Hparameter; [done|]. by apply Hp. }
      simpl. apply flat_map_nil_iff. intros c Hin.
      apply condition_errors_nil; [done|]. by apply Hc.
  - intros remoteConfig' [Hparams Hconds]. rewrite !validate_errors_eq. f_equal.
    + apply flat_map_ext_elem_of. intros [k p] Hin. unfold parameter_errors, obj_lookup; simpl.
      rewrite <- Hparams; [done|]. unfold keys.
      apply list_elem_of_fmap. by exists (k, p).
    + apply flat_map_ext_elem_of. intros c _. unfold condition_errors.
      by rewrite Hconds.
  - intros k Hk Hnone Hk'. rewrite validate_warnings_eq.
    apply list_elem_of_In, in_flat_map. exists k. split; [by apply list_elem_of_In|].
    rewrite obj_lookup_plain, Hnone by done. by left.
Qed.

Lemma plain_keys_sample_local : plain_keys sample_local.
Proof.
  split; simpl; repeat constructor; unfold plain, Object_prototype;
    rewrite !elem_of_cons, elem_of_nil; intros H; by repeat destruct H as [H|H].
Qed.

Lemma validate_no_errors_iff_in_sync_witness :
  in_sync sample_local remote_in_sync
  /\ errors (validate sample_local (without_legacy_flag remote_other_value))
     = errors (validate sample_local remote_other_value)
  /\ msg_extra_parameter "legacy_flag" ∈ warnings (validate sample_local remote_in_sync).
Proof.
  destruct (validate_no_errors_iff_in_sync sample_local remote_in_sync)
    as (Hsync & _ & Hwarn);
    [apply plain_keys_sample_local | simpl; apply NoDup_singleton |].
  destruct (validate_no_errors_iff_in_sync sample_local remote_other_value)
    as (_ & Hsame & _);
    [apply plain_keys_sample_local | simpl; apply NoDup_singleton |].
  split; [|split].
  - apply Hsync. reflexivity.
  - apply Hsame. split; [|reflexivity].
    intros k Hk. apply list_elem_of_singleton in Hk. subst k. reflexivity.
  - apply Hwarn; [|reflexivity|].
    + apply list_elem_of_further, list_elem_of_here.
    + unfold plain, Object_prototype. rewrite !elem_of_cons, elem_of_nil.
      intros H; by repeat destruct H as [H|H].
Defined.

Lemma Forall2_flat_map {A B C : Type} (R : B -> C -> Prop) (f : A -> list B)
    (g : A -> list C) (l : list A) :
  (forall x, x ∈ l -> Forall2 R (f x) (g x)) ->
  Forall2 R (flat_map f l) (flat_map g l).
Proof.
  induction l as [|a l IH]; simpl; intros H; [constructor|].
  apply Forall2_app.
  - apply H, list_elem_of_here.
  - apply IH. intros x Hx. by apply H, list_elem_of_further.
Qed.

Lemma same_report_refl (l : list string) : Forall2 same_report l l.
Proof. induction l; constructor; [by left | done]. Qed.

(** The claim that the two copies produce equal lists fails: a wrong
    conditional value is reported with the expected and actual values by
    [validate], without them by the deploy script. *)
Lemma diff_copies_differ :
  errors (validate sample_local remote_other_value)
  <> validateRemoteConfig_diff sample_local remote_other_value.
Proof. vm_compute. intros H. discriminate H. Qed.

(** A differing condition expression is an error for [validate] and goes
    unnoticed by the diff of the deploy script. *)
Lemma deploy_diff_ignores_expression :
  errors (validate sample_local remote_other_expression)
  = [msg_different_expression "beta_users"]
  /\ validateRemoteConfig_diff sample_local remote_other_expression = [].
Proof. split; reflexivity. Qed.

(** C3, amended.  When no local condition differs in its expression from
    its remote namesake, the two copies of the diff report the same
    mismatches in the same order: the lists agree entry by entry, each pair
    of entries being equal except that a wrong conditional value carries
    the expected and actual values in [validate] only. *)
Theorem diff_copies_same_reports (localConfig remoteConfig : Config) :
  expressions_agree localConfig remoteConfig ->
  Forall2 same_report
    (errors (validate localConfig remoteConfig))
    (validateRemoteConfig_diff localConfig remoteConfig).
Proof.
  intros Hexpr. rewrite validate_errors_eq, validateRemoteConfig_diff_eq.
  apply Forall2_app.
  - apply Forall2_flat_map. intros [k p] _. unfold parameter_errors; simpl.
    destruct (obj_lookup _ _ k) as [rp|]; [|apply same_report_refl].
    apply Forall2_app; [apply same_report_refl|].
    apply Forall2_flat_map. intros [c v] _. unfold conditional_errors; simpl.
    destruct (obj_lookup _ _ c) as [rv|]; [|apply same_report_refl].
    case_bool_decide; [constructor|].
    constructor; [|constructor]. right. by exists k, c, (value v), (value rv).
  - apply Forall2_flat_map. intros c Hc. unfold condition_errors.
    destruct (find_condition _ c) as [rc|] eqn:Hfind; [|apply same_report_refl].
    simpl. rewrite bool_decide_true by (by apply Hexpr). constructor.
Qed.

Lemma diff_copies_same_reports_witness :
  Forall2 same_report
    (errors (validate sample_local remote_other_value))
    (validateRemoteConfig_diff sample_local remote_other_value).
Proof.
  apply diff_copies_same_reports.
  intros lc rc Hlc Hfind.
  apply list_elem_of_singleton in Hlc. subst lc.
  vm_compute in Hfind. injection Hfind as <-. reflexivity.
Defined.

(** *** The template that is pushed *)






(** *** The diff after a sync, and the two copies compared *)






(** A conditional value listed under the condition name [__proto__] is
    not stored in the template, and the diff against the template that was
    just built reports it. *)
Lemma validate_after_sync_proto_condition :
  validateRemoteConfig_diff local_proto_condition
    (published (buildTemplate local_proto_condition))
  = [msg_wrong_value_short "navigation_banner" "__proto__"].
Proof. reflexivity. Qed.




Lemma length_flat_map_le {A B C : Type} (f : A -> list B) (g : A -> list C) (l : list A) :
  (forall x, length (f x) <= length (g x)) ->
  length (flat_map f l) <= length (flat_map g l).
Proof.
  intros Hfg. induction l as [|x l IH]; simpl; [done|].
  rewrite !length_app. specialize (Hfg x). lia.
Qed.

(** X2.  The diff of the deploy script is the weaker of the two: it never
    reports more errors than [validate], so that a pair of configs that
    passes the validator passes the deploy script. *)
Theorem deploy_diff_weaker (localConfig remoteConfig : Config) :
  length (validateRemoteConfig_diff localConfig remoteConfig)
  <= length (errors (validate localConfig remoteConfig))
  /\ (errors (validate localConfig remoteConfig) = [] ->
      validateRemoteConfig_diff localConfig remoteConfig = []).
Proof.
  assert (length (validateRemoteConfig_diff localConfig remoteConfig)
          <= length (errors (validate localConfig remoteConfig))) as Hle.
  { rewrite validate_errors_eq, validateRemoteConfig_diff_eq, !length_app.
    apply Nat.add_le_mono.
    - apply length_flat_map_le. intros [k p]. unfold parameter_errors; simpl.
      destruct (obj_lookup _ _ k) as [rp|]; [|done]. rewrite !length_app.
      apply Nat.add_le_mono; [done|].
      apply length_flat_map_le. intros [c v]. unfold conditional_errors; simpl.
      destruct (obj_lookup _ _ c); [|done]. by case_bool_decide.
    - apply length_flat_map_le. intros c. unfold condition_errors.
      destruct (find_condition _ c); [|done]. simpl. lia. }
  split; [done|]. intros Herrors. rewrite Herrors in Hle.
  destruct (validateRemoteConfig_diff localConfig remoteConfig); [done|simpl in Hle; lia].
Qed.

Lemma deploy_diff_weaker_witness :
  validateRemoteConfig_diff sample_local remote_in_sync = [].
Proof.
  apply (proj2 (deploy_diff_weaker sample_local remote_in_sync)). reflexivity.
Defined.




End RemoteConfigFacts.

(** ** The backtracking matcher against the declarative reading *)

Module RegexFacts.
Import JS Regex.

Section Matcher.
Context {X : Type}.
Implicit Types (k : cont X) (s m : list ascii) (caps : list (list ascii)).

Lemma greedy_sound t k caps s x :
  greedy t k caps s = Some x ->
  exists m s', s = m ++ s' /\ forallb t m = true /\ k s' caps = Some x.
Proof.
  induction s as [|c s IH]; simpl.
  - intros H. by exists [], [].
  - destruct (t c) eqn:Htc.
    + destruct (greedy t k caps s) as [y|] eqn:Hg.
      * intros [= ->]. destruct (IH eq_refl) as (m & s' & -> & Hm & Hk).
        exists (c :: m), s'. simpl. by rewrite Htc, Hm.
      * intros H. by exists [], (c :: s).
    + intros H. by exists [], (c :: s).
Qed.

Lemma lazy_sound t k caps s x :
  lazy t k caps s = Some x ->
  exists m s', s = m ++ s' /\ forallb t m = true /\ k s' caps = Some x.
Proof.
  induction s as [|c s IH]; simpl.
  - destruct (k [] caps) eqn:Hk; [|done]. intros [= ->]. by exists [], [].
  - destruct (k (c :: s) caps) eqn:Hk.
    + intros [= ->]. by exists [], (c :: s).
    + destruct (t c) eqn:Htc; [|done]. intros H.
      destruct (IH H) as (m & s' & -> & Hm & Hk').
      exists (c :: m), s'. simpl. by rewrite Htc, Hm.
Qed.

Lemma greedy_complete t k caps m s' :
  forallb t m = true -> is_Some (k s' caps) -> is_Some (greedy t k caps (m ++ s')).
Proof.
  intros Hm Hk. induction m as [|c m IH]; simpl.
  - destruct s' as [|c s']; simpl; [done|].
    destruct (t c); [|done]. by destruct (greedy t k caps s').
  - simpl in Hm. apply andb_true_iff in Hm as [Hc Hm]. rewrite Hc.
    destruct (IH Hm) as [y ->]. by exists y.
Qed.

Lemma lazy_complete t k caps m s' :
  forallb t m = true -> is_Some (k s' caps) -> is_Some (lazy t k caps (m ++ s')).
Proof.
  intros Hm Hk. induction m as [|c m IH]; simpl.
  - destruct s' as [|c s']; simpl; destruct Hk as [y ->]; by exists y.
  - simpl in Hm. apply andb_true_iff in Hm as [Hc Hm].
    destruct (k (c :: m ++ s') caps) as [y|]; [by exists y|].
    rewrite Hc. by apply IH.
Qed.

End Matcher.

Lemma take_matched {A : Type} (m s' : list A) :
  take (length (m ++ s') - length s') (m ++ s') = m.
Proof.
  rewrite length_app, Nat.add_sub. by rewrite take_app_length.
Qed.

Lemma rmatch_sound {X : Type} (r : regex) :
  forall (s : list ascii) caps (k : cont X) x,
    rmatch r s caps k = Some x ->
    exists m s' cs, s = m ++ s' /\ lang r m cs /\ k s' (caps ++ cs) = Some x.
Proof.
  induction r as [|t|r1 IH1 r2 IH2|r IH|t|t|r IH]; intros s caps k x; simpl.
  - intros H. exists [], s, []. rewrite app_nil_r. repeat split; [constructor | done].
  - destruct s as [|c s]; [done|]. destruct (t c) eqn:Htc; [|done]. intros H.
    exists [c], s, []. rewrite app_nil_r. repeat split; [by constructor | done].
  - intros H. apply IH1 in H as (m1 & s1 & c1 & -> & Hl1 & H).
    apply IH2 in H as (m2 & s2 & c2 & -> & Hl2 & H).
    exists (m1 ++ m2), s2, (c1 ++ c2). rewrite <- !app_assoc in *.
    repeat split; [by constructor | done].
  - destruct (rmatch r s caps k) as [y|] eqn:Hr.
    + intros [= ->]. apply IH in Hr as (m & s' & cs & -> & Hl & H).
      exists m, s', cs. repeat split; [by apply lang_Maybe_some | done].
    + intros H. exists [], s, []. rewrite app_nil_r.
      repeat split; [apply lang_Maybe_none | done].
  - destruct s as [|c s]; [done|]. destruct (t c) eqn:Htc; [|done]. intros H.
    apply greedy_sound in H as (m & s' & -> & Hm & H).
    exists (c :: m), s', []. rewrite app_nil_r. repeat split; [|done].
    apply lang_Many1; [done|]. simpl. by rewrite Htc, Hm.
  - intros H. apply lazy_sound in H as (m & s' & -> & Hm & H).
    exists m, s', []. rewrite app_nil_r. repeat split; [by constructor | done].
  - intros H. apply IH in H as (m & s' & cs & -> & Hl & H).
    rewrite take_matched in H.
    exists m, s', (cs ++ [m]). rewrite app_assoc. repeat split; [by constructor | done].
Qed.

Lemma rmatch_complete {X : Type} (r : regex) (m : list ascii) cs :
  lang r m cs ->
  forall s' caps (k : cont X),
    (forall caps', is_Some (k s' caps')) -> is_Some (rmatch r (m ++ s') caps k).
Proof.
  induction 1 as [|t c Htc|r1 r2 m1 m2 c1 c2 _ IH1 _ IH2|r|r m c _ IH
                 |t m Hne Hm|t m Hm|r m c _ IH]; intros s' caps k Hk; simpl.
  - apply Hk.
  - rewrite Htc. apply Hk.
  - rewrite <- app_assoc. apply IH1. intros caps'. by apply IH2.
  - destruct (rmatch r s' caps k) as [y|]; [by exists y | apply Hk].
  - destruct (IH s' caps k Hk) as [y ->]. by exists y.
  - destruct m as [|c m]; [done|]. simpl in *.
    apply andb_true_iff in Hm as [-> Hm]. by apply greedy_complete.
  - by apply lazy_complete.
  - apply IH. intros caps'. apply Hk.
Qed.

Lemma exec_at_sound (r : regex) (s : list ascii) (mt : Match) :
  exec_at r s = Some mt ->
  exists s', s = matched mt ++ s' /\ lang r (matched mt) (groups mt).
Proof.
  unfold exec_at. intros H.
  apply rmatch_sound in H as (m & s' & cs & -> & Hl & [= <-]).
  simpl. rewrite take_matched. by exists s'.
Qed.

Lemma exec_at_complete (r : regex) (m s' : list ascii) cs :
  lang r m cs -> is_Some (exec_at r (m ++ s')).
Proof.
  intros Hl. unfold exec_at. by apply (rmatch_complete r m cs Hl).
Qed.

Lemma matchAll_sound (r : regex) (s : list ascii) :
  forall skip mt,
    mt ∈ matchAll r skip s ->
    exists pre post, s = pre ++ matched mt ++ post /\ lang r (matched mt) (groups mt).
Proof.
  induction s as [|c s IH]; intros skip mt; simpl.
  - destruct skip; [|by intros ?%elem_of_nil].
    destruct (exec_at r []) as [m|] eqn:He; [|by intros ?%elem_of_nil].
    intros ->%list_elem_of_singleton.
    apply exec_at_sound in He as (s' & Hs & Hl). by exists [], s'.
  - assert (forall n, mt ∈ matchAll r n s ->
              exists pre post, c :: s = pre ++ matched mt ++ post
                               /\ lang r (matched mt) (groups mt)) as Htail.
    { intros n Hin. apply IH in Hin as (pre & post & -> & Hl).
      by exists (c :: pre), post. }
    destruct skip; [|apply Htail].
    destruct (exec_at r (c :: s)) as [m|] eqn:He; [|apply Htail].
    intros [->|Hin]%elem_of_cons; [|by eapply Htail].
    apply exec_at_sound in He as (s' & Hs & Hl). by exists [], s'.
Qed.

Lemma matchAll_complete (r : regex) (s : list ascii) :
  occurs r s -> matchAll r 0 s <> [].
Proof.
  intros (pre & m & post & cs & -> & Hl).
  induction pre as [|c pre IH]; simpl.
  - destruct (exec_at_complete r m post cs Hl) as [mt Hmt].
    clear Hl. remember (m ++ post) as s eqn:Hs. clear Hs.
    destruct s as [|c s]; simpl; rewrite Hmt; done.
  - by destruct (exec_at r (c :: pre ++ m ++ post)).
Qed.

(** A global pattern has a match in the text exactly when the text has
    an occurrence of it. *)
Lemma matchAll_occurs (r : regex) (s : list ascii) :
  matchAll r 0 s <> [] <-> occurs r s.
Proof.
  split; [|apply matchAll_complete].
  destruct (matchAll r 0 s) as [|mt ms] eqn:Hms; [done|]. intros _.
  destruct (matchAll_sound r s 0 mt) as (pre & post & -> & Hl).
  { rewrite Hms. apply list_elem_of_here. }
  by exists pre, (matched mt), post, (groups mt).
Qed.

End RegexFacts.

(** ** Scraping the failure logs *)

Module ParseErrorsFacts.
Import JS Regex RegexFacts Deploy.

Lemma chars_of_string (l : list ascii) : chars (string_of_list_ascii l) = l.
Proof. apply list_ascii_of_string_of_list_ascii. Qed.

Lemma lang_lit_chars (l m : list ascii) cs :
  lang (foldr (fun c r => Cat (Chr (ci c)) r) Empty l) m cs <-> cs = [] /\ eq_ci m l.
Proof.
  unfold eq_ci. revert m cs. induction l as [|c l IH]; intros m cs; simpl.
  - split.
    + inversion 1; subst. done.
    + intros [-> Hm]. apply fmap_nil_inv in Hm as ->. constructor.
  - split.
    + inversion 1 as [| |r1 r2 m1 m2 c1 c2 H1 H2| | | | |]; subst.
      inversion H1 as [|t x Hx| | | | | |]; subst.
      apply IH in H2 as [-> H2]. split; [done|]. simpl.
      unfold ci in Hx. apply bool_decide_eq_true in Hx.
      f_equal; [exact Hx | exact H2].
    + intros [-> Hm]. destruct m as [|x m]; [done|]. simpl in Hm.
      injection Hm as Hx Hm.
      apply (lang_Cat _ _ [x] m [] []).
      * constructor. unfold ci. by apply bool_decide_eq_true.
      * by apply IH.
Qed.

Lemma lang_lit (str : string) (m : list ascii) cs :
  lang (lit str) m cs <-> cs = [] /\ eq_ci m (chars str).
Proof. apply lang_lit_chars. Qed.

Lemma at_sign_not_quote (x : ascii) : ci "@"%char x = true -> not_quote x = true.
Proof.
  destruct x as [[] [] [] [] [] [] [] []]; vm_compute; congruence.
Qed.

(** The texts the dependency pattern matches, and what it captures. *)
Lemma lang_depPattern (m : list ascii) cs :
  lang depPattern m cs
  <-> exists p q1 name q2,
        m = p ++ [q1] ++ name ++ [q2]
        /\ eq_ci p (chars "Cannot find module ")
        /\ is_quote q1 = true /\ is_quote q2 = true
        /\ name <> [] /\ forallb not_quote name = true
        /\ cs = [name].
Proof.
  unfold depPattern. split.
  - inversion 1 as [| |? ? p m1 cp c1 Hp H1| | | | |]; subst.
    apply lang_lit in Hp as [-> Hp].
    inversion H1 as [| |? ? q1 m2 cq1 c2 Hq1 H2| | | | |]; subst.
    inversion Hq1 as [|? x1 Hx1| | | | | |]; subst.
    inversion H2 as [| |? ? nm q2 cn cq2 Hn Hq2| | | | |]; subst.
    inversion Hq2 as [|? x2 Hx2| | | | | |]; subst.
    inversion Hn as [| | | | | | |? ? c Hg]; subst.
    inversion Hg as [| |? ? o rest co cr Ho Hrest| | | | |]; subst.
    inversion Hrest as [| | | | |? ? Hne Hall| |]; subst.
    assert (co = [] /\ forallb not_quote o = true) as [-> Ho'].
    { inversion Ho as [| | |?|? ? ? Hat| | |]; subst; [done|].
      inversion Hat as [|? x Hx| | | | | |]; subst. simpl.
      by rewrite (at_sign_not_quote x Hx). }
    exists p, x1, (o ++ rest), x2. simpl.
    repeat split; try done.
    + intros [_ ?]%app_eq_nil. done.
    + by rewrite forallb_app, Hall, Ho'.
  - intros (p & q1 & name & q2 & -> & Hp & Hq1 & Hq2 & Hne & Hall & ->).
    apply (lang_Cat _ _ p _ [] [name]); [by apply lang_lit|].
    apply (lang_Cat _ _ [q1] _ [] [name]); [by constructor|].
    apply (lang_Cat _ _ name [q2] [name] []); [|by constructor].
    apply (lang_Capture _ name []).
    apply (lang_Cat _ _ [] name [] []); [apply lang_Maybe_none | by constructor].
Qed.

Lemma parseErrors_eq (logs : string) :
  parseErrors logs
  = match String_match logs eslintPattern with
    | Some ms => [{| type := "eslint"; matches := ms |}]
    | None => []
    end
    ++ match String_match logs buildPattern with
       | Some ms => [{| type := "build"; matches := ms |}]
       | None => []
       end
    ++ (if bool_decide (0 < length (depMatches logs))
        then [{| type := "dependency"; matches := Set_of (depMatches logs) |}]
        else []).
Proof.
  unfold parseErrors, push.
  destruct (String_match logs eslintPattern), (String_match logs buildPattern);
    by case_bool_decide.
Qed.

Lemma String_match_Some (logs : string) (re : regex) :
  is_Some (String_match logs re) <-> occurs re (chars logs).
Proof.
  rewrite <- matchAll_occurs. unfold String_match, chars.
  destruct (matchAll re 0 (list_ascii_of_string logs)).
  - split; [by intros [? [=]] | done].
  - split; [done | by eexists].
Qed.

Lemma depMatches_nonempty (logs : string) :
  0 < length (depMatches logs) <-> occurs depPattern (chars logs).
Proof.
  rewrite <- matchAll_occurs. unfold depMatches, chars.
  rewrite length_map.
  destruct (matchAll depPattern 0 (list_ascii_of_string logs)); simpl; split;
    first [done | lia].
Qed.

Lemma has_entry_parseErrors (ty : string) (logs : string) :
  has_entry ty (parseErrors logs)
  <-> (ty = "eslint" /\ occurs eslintPattern (chars logs))
      \/ (ty = "build" /\ occurs buildPattern (chars logs))
      \/ (ty = "dependency" /\ occurs depPattern (chars logs)).
Proof.
  rewrite <- (String_match_Some logs eslintPattern),
    <- (String_match_Some logs buildPattern), <- depMatches_nonempty, parseErrors_eq.
  unfold has_entry. split.
  - intros (e & Hin & <-).
    apply elem_of_app in Hin as [Hin|Hin]; [|apply elem_of_app in Hin as [Hin|Hin]].
    + destruct (String_match logs eslintPattern); [|by apply elem_of_nil in Hin].
      apply list_elem_of_singleton in Hin as ->. left. by split.
    + destruct (String_match logs buildPattern); [|by apply elem_of_nil in Hin].
      apply list_elem_of_singleton in Hin as ->. right. left. by split.
    + case_bool_decide; [|by apply elem_of_nil in Hin].
      apply list_elem_of_singleton in Hin as ->. right. right. by split.
  - intros [[-> [ms ->]]|[[-> [ms ->]]|[-> Hd]]].
    + exists {| type := "eslint"; matches := ms |}.
      split; [simpl; apply list_elem_of_here | done].
    + exists {| type := "build"; matches := ms |}. split; [|done].
      apply elem_of_app. right. simpl. apply list_elem_of_here.
    + exists {| type := "dependency"; matches := Set_of (depMatches logs) |}.
      rewrite bool_decide_true by done. split; [|done].
      apply elem_of_app. right. apply elem_of_app. right. apply list_elem_of_here.
Qed.

Lemma occurs_buildPattern (logs : string) :
  occurs buildPattern (chars logs) <-> contains_ci logs "Failed to compile".
Proof.
  unfold occurs, contains_ci, buildPattern. split.
  - intros (pre & m & post & cs & Hs & [_ Hm]%lang_lit). by exists pre, m, post.
  - intros (pre & m & post & Hs & Hm). exists pre, m, post, [].
    split; [done|]. by apply lang_lit.
Qed.

Lemma names_missing_module_lang (logs : string) (pre m post name : list ascii) :
  chars logs = pre ++ m ++ post ->
  lang depPattern m [name] ->
  names_missing_module logs (string_of_list_ascii name).
Proof.
  intros Hs (p & q1 & name' & q2 & -> & Hp & Hq1 & Hq2 & Hne & Hall & [= <-])%lang_depPattern.
  exists pre, p, q1, q2, post. rewrite chars_of_string.
  repeat split; try done.
  - rewrite Hs. by rewrite <- !app_assoc.
  - intros Hempty. apply Hne. by rewrite <- (chars_of_string name), Hempty.
Qed.

Lemma occurs_depPattern (logs : string) :
  occurs depPattern (chars logs) <-> exists name, names_missing_module logs name.
Proof.
  split.
  - intros (pre & m & post & cs & Hs & Hl).
    pose proof Hl as (p & q1 & name & q2 & _ & _ & _ & _ & _ & _ & ->)%lang_depPattern.
    exists (string_of_list_ascii name). by eapply names_missing_module_lang.
  - intros (name & pre & p & q1 & q2 & post & Hs & Hp & Hq1 & Hq2 & Hne & Hall).
    exists pre, (p ++ [q1] ++ chars name ++ [q2]), post, [chars name].
    split; [by rewrite Hs, <- !app_assoc|].
    apply lang_depPattern. exists p, q1, (chars name), q2.
    repeat split; try done.
    intros Hempty. apply Hne.
    rewrite <- (string_of_list_ascii_of_string name).
    unfold chars in Hempty. by rewrite Hempty.
Qed.

Lemma depMatches_named (logs name : string) :
  name ∈ depMatches logs -> names_missing_module logs name.
Proof.
  unfold depMatches. intros (mt & -> & Hin)%list_elem_of_fmap.
  apply matchAll_sound in Hin as (pre & post & Hs & Hl).
  pose proof Hl as (p & q1 & nm & q2 & _ & _ & _ & _ & _ & _ & Hcs)%lang_depPattern.
  rewrite Hcs in *. simpl. by eapply names_missing_module_lang.
Qed.

Lemma filter_distinct_in_order (P : string -> Prop) `{!forall x, Decision (P x)}
    (l : list string) :
  filter P (distinct_in_order l) = distinct_in_order (filter P l).
Proof.
  induction l as [|y l IH]; simpl; [done|].
  destruct (decide (P y)) as [Hy|Hy].
  - rewrite !filter_cons_True by done. simpl. f_equal.
    rewrite <- IH, !list_filter_filter. apply list_filter_iff. tauto.
  - rewrite !filter_cons_False by done. rewrite <- IH, list_filter_filter.
    apply list_filter_iff. intros x. split; [tauto|].
    intros Hx. split; [done|]. by intros ->.
Qed.

Lemma foldl_Set_add (acc xs : list string) :
  foldl Set_add acc xs = acc ++ distinct_in_order (filter (fun y => y ∉ acc) xs).
Proof.
  revert acc. induction xs as [|x xs IH]; intros acc; simpl.
  - by rewrite app_nil_r.
  - rewrite IH. unfold Set_add. case_bool_decide as Hx.
    + by rewrite filter_cons_False by tauto.
    + rewrite filter_cons_True by done. simpl. rewrite <- app_assoc. simpl.
      do 2 f_equal. rewrite filter_distinct_in_order, list_filter_filter. f_equal.
      apply list_filter_iff. intros y.
      rewrite not_elem_of_app, list_elem_of_singleton. tauto.
Qed.

(** [[...new Set(xs)]] holds the distinct elements of [xs] in the order
    of their first occurrence. *)
Lemma Set_of_distinct_in_order (xs : list string) :
  Set_of xs = distinct_in_order xs.
Proof.
  unfold Set_of. rewrite foldl_Set_add. simpl. f_equal.
  induction xs as [|x xs IH]; [done|].
  rewrite filter_cons_True by apply not_elem_of_nil. by rewrite IH.
Qed.

Lemma elem_of_distinct_in_order (x : string) (xs : list string) :
  x ∈ distinct_in_order xs <-> x ∈ xs.
Proof.
  induction xs as [|y xs IH]; simpl; [done|].
  rewrite !elem_of_cons, list_elem_of_filter, IH.
  destruct (decide (x = y)); tauto.
Qed.

Lemma NoDup_distinct_in_order (xs : list string) : NoDup (distinct_in_order xs).
Proof.
  induction xs as [|y xs IH]; simpl; [constructor|].
  constructor; [|by apply NoDup_filter].
  rewrite list_elem_of_filter. tauto.
Qed.

Lemma parseErrors_log_double_quoted :
  parseErrors log_double_quoted = [{| type := "dependency"; matches := ["lodash"] |}].
Proof. vm_compute. reflexivity. Qed.

(** The claim as stated fails: a log naming the missing module between
    double quotes yields a dependency entry, and has no occurrence of the
    words followed by a name between single quotes. *)
Lemma parseErrors_double_quoted :
  has_entry "dependency" (parseErrors log_double_quoted)
  /\ ~ exists name, names_missing_module_literally log_double_quoted name.
Proof.
  split.
  { rewrite parseErrors_log_double_quoted. eexists. split; [apply list_elem_of_here|done]. }
  intros (name & pre & post & Hs & _).
  assert ("'"%char ∈ chars log_double_quoted) as Hin.
  { rewrite Hs. apply elem_of_app. right. apply elem_of_app. left.
    unfold chars. simpl. do 19 apply list_elem_of_further. apply list_elem_of_here. }
  vm_compute in Hin. repeat (apply elem_of_cons in Hin as [[=]|Hin]).
  by apply elem_of_nil in Hin.
Qed.

(** C5, amended.  [parseErrors] returns an entry of type [eslint] exactly
    when the log has a match of the eslint pattern, an entry of type [build]
    exactly when the log contains [Failed to compile] in any letter case,
    and an entry of type [dependency] exactly when the log names a missing
    module, the words being taken in any letter case and the name standing
    between two quote characters, each single or double.  The matches of
    that entry are the distinct names captured by the successive matches,
    left to right, in the order of their first occurrence, each of them a
    module the log names as missing.  No other type is returned. *)
Theorem parseErrors_entries (logs : string) :
  (has_entry "eslint" (parseErrors logs) <-> occurs eslintPattern (chars logs))
  /\ (has_entry "build" (parseErrors logs) <-> contains_ci logs "Failed to compile")
  /\ (has_entry "dependency" (parseErrors logs)
      <-> exists name, names_missing_module logs name)
  /\ (forall e, e ∈ parseErrors logs -> type e = "dependency" ->
        matches e = distinct_in_order (depMatches logs)
        /\ NoDup (matches e)
        /\ forall name, name ∈ matches e -> names_missing_module logs name)
  /\ (forall e, e ∈ parseErrors logs -> type e ∈ ["eslint"; "build"; "dependency"]).
Proof.
  split; [|split; [|split; [|split]]].
  - rewrite has_entry_parseErrors. split; [|by left].
    by intros [[_ H]|[[[=] _]|[[=] _]]].
  - rewrite has_entry_parseErrors, <- occurs_buildPattern. split; [|by right; left].
    by intros [[[=] _]|[[_ H]|[[=] _]]].
  - rewrite has_entry_parseErrors, <- occurs_depPattern. split; [|by right; right].
    by intros [[[=] _]|[[[=] _]|[_ H]]].
  - intros e Hin Hty. rewrite parseErrors_eq in Hin.
    assert (e = {| type := "dependency"; matches := Set_of (depMatches logs) |}) as ->.
    { apply elem_of_app in Hin as [Hin|Hin]; [|apply elem_of_app in Hin as [Hin|Hin]].
      - destruct (String_match logs eslintPattern); [|by apply elem_of_nil in Hin].
        apply list_elem_of_singleton in Hin as ->. discriminate Hty.
      - destruct (String_match logs buildPattern); [|by apply elem_of_nil in Hin].
        apply list_elem_of_singleton in Hin as ->. discriminate Hty.
      - case_bool_decide; [|by apply elem_of_nil in Hin].
        by apply list_elem_of_singleton in Hin. }
    simpl. rewrite Set_of_distinct_in_order.
    split; [done|]. split; [apply NoDup_distinct_in_order|].
    intros name Hname. apply depMatches_named.
    by apply elem_of_distinct_in_order.
  - intros e Hin.
    assert (has_entry (type e) (parseErrors logs)) as Hentry by (by exists e).
    apply has_entry_parseErrors in Hentry as [[-> _]|[[-> _]|[-> _]]].
    + apply list_elem_of_here.
    + apply list_elem_of_further, list_elem_of_here.
    + do 2 apply list_elem_of_further. apply list_elem_of_here.
Qed.

Lemma parseErrors_entries_witness :
  matches {| type := "dependency"; matches := ["lodash"] |}
  = distinct_in_order (depMatches log_double_quoted)
  /\ names_missing_module log_double_quoted "lodash".
Proof.
  destruct (parseErrors_entries log_double_quoted) as (_ & _ & _ & Hdep & _).
  destruct (Hdep {| type := "dependency"; matches := ["lodash"] |}) as (Heq & _ & Hnames).
  - rewrite parseErrors_log_double_quoted. apply list_elem_of_here.
  - reflexivity.
  - split; [exact Heq|]. apply Hnames. apply list_elem_of_here.
Defined.

(** X3.  [parseErrors] returns at most one entry of each type, in the
    fixed order eslint, build, dependency: at most three entries. *)
Theorem parseErrors_order (logs : string) :
  sublist (type <$> parseErrors logs) ["eslint"; "build"; "dependency"]
  /\ length (parseErrors logs) <= 3.
Proof.
  rewrite parseErrors_eq.
  destruct (String_match logs eslintPattern), (String_match logs buildPattern);
    case_bool_decide; simpl; (split; [|lia]);
    repeat first [apply sublist_nil_l | apply sublist_skip | apply sublist_cons].
Qed.

End ParseErrorsFacts.

(** ** The access token of the two scripts *)

Module TokenFacts.
Import JS RemoteConfig Node Deploy.

Lemma truthy_token_set (env : Env) :
  truthy (FIREBASE_TOKEN env) = true <-> exists token, token_set env token.
Proof.
  unfold token_set, truthy. destruct (FIREBASE_TOKEN env) as [token|].
  - case_bool_decide as Ht; simpl.
    + split; [done|]. intros (token' & [= <-] & Hne). done.
    + split; [|done]. intros _. by exists token.
  - split; [done|]. by intros (token' & [=] & _).
Qed.

(** C10. The deploy script asks the firebase CLI first, whether or not
    [FIREBASE_TOKEN] is set (to a non-empty value, as the test of the code
    has it): it returns the trimmed output of the CLI when the CLI
    succeeds, falls back on [FIREBASE_TOKEN] when the CLI fails, and throws
    exactly when the CLI fails and [FIREBASE_TOKEN] is not set.  The
    validator has the opposite precedence: with [FIREBASE_TOKEN] set it
    returns it without any call. *)
Theorem getAccessToken_precedence (env : Env) (log : list Call) :
  let cli := exec env (length log) FirebasePrintAccessToken in
  let log' := log ++ [ExecSync FirebasePrintAccessToken] in
  (forall out, cli = ExecOk out -> getAccessToken env log = Return (trim out) log')
  /\ (forall token out,
        cli = ExecFailed out -> token_set env token ->
        getAccessToken env log = Return token log')
  /\ ((exists e l, getAccessToken env log = Throw e l)
      <-> (~ exists token, token_set env token) /\ exists out, cli = ExecFailed out)
  /\ (forall token,
        token_set env token -> Validator.getAccessToken env log = Return token log).
Proof.
  intros cli log'. subst cli log'.
  assert (Hset : forall token, token_set env token ->
                 FIREBASE_TOKEN env = Some token /\ bool_decide (token = EmptyString) = false).
  { intros token [Htok Hne]. split; [done|]. by apply bool_decide_eq_false. }
  rewrite <- truthy_token_set.
  cbv [getAccessToken Validator.getAccessToken if_truthy truthy
         try_catch bind execSync call ret throw].
  destruct (FIREBASE_TOKEN env) as [tok|] eqn:Htok;
    [destruct (bool_decide (tok = EmptyString)) eqn:Hempty|];
    destruct (exec env (length log) FirebasePrintAccessToken) as [o|o] eqn:Hexec;
    rewrite ?Hexec; simpl;
    (split; [|split; [|split]]);
    try (intros out [= <-]; done);
    try (intros token out [= <-] [[= <-] Hb]%Hset; congruence);
    try (intros token [[= <-] Hb]%Hset; congruence);
    try (intros token out [=]; done);
    try (intros token [[=] Hb]%Hset; done).
  all: split;
    [ intros (e & l & [=]); try (split; [done | by eauto])
    | intros [Hnot (out & [=])]; try done; by eauto ].
Qed.

Lemma getAccessToken_precedence_witness :
  getAccessToken (sample_env (fun _ => "completed")) []
  = Return "cli-token" [ExecSync FirebasePrintAccessToken]
  /\ getAccessToken env_without_cli []
     = Return "ci-token" [ExecSync FirebasePrintAccessToken]
  /\ Validator.getAccessToken (sample_env (fun _ => "completed")) [] = Return "ci-token" [].
Proof.
  destruct (getAccessToken_precedence (sample_env (fun _ => "completed")) [])
    as (Hcli & _ & _ & Hval).
  destruct (getAccessToken_precedence env_without_cli []) as (_ & Hfallback & _).
  split; [|split].
  - apply (Hcli ("cli-token" +:+ newline)). reflexivity.
  - apply (Hfallback "ci-token" (Some EmptyString)); [reflexivity|].
    split; [reflexivity | discriminate].
  - apply Hval. split; [reflexivity | discriminate].
Defined.

End TokenFacts.

(** ** Rules for runs *)

Module NodeFacts.
Import JS RemoteConfig Node.

Section Issues.
Context {A : Type} (S : Call -> Prop).

Lemma issues_ret (a : A) : issues S (ret a).
Proof. intros log. exists []. by rewrite app_nil_r. Qed.

Lemma issues_throw (e : Error) : issues S (@throw A e).
Proof. intros log. exists []. by rewrite app_nil_r. Qed.

Lemma issues_pending : issues S (@pending A).
Proof. by intros log. Qed.

Lemma issues_call (c : Call) (answer : nat -> A) : S c -> issues S (call c answer).
Proof. intros Hc log. exists [c]. split; [done|]. by constructor. Qed.

Lemma issues_try_catch (m : M A) (handler : Error -> M A) :
  issues S m -> (forall e, issues S (handler e)) -> issues S (try_catch m handler).
Proof.
  intros Hm Hh log. unfold try_catch. specialize (Hm log).
  destruct (m log) as [a l|e l|]; [done| |done].
  destruct Hm as (new & -> & Hnew). specialize (Hh e (log ++ new)).
  destruct (handler e (log ++ new)) as [a l|e' l|]; [| |done].
  - destruct Hh as (new' & -> & Hnew'). exists (new ++ new').
    split; [by rewrite app_assoc | by apply Forall_app].
  - destruct Hh as (new' & -> & Hnew'). exists (new ++ new').
    split; [by rewrite app_assoc | by apply Forall_app].
Qed.

End Issues.

Lemma issues_bind {A B : Type} (S : Call -> Prop) (m : M A) (k : A -> M B) :
  issues S m -> (forall a, issues S (k a)) -> issues S (bind m k).
Proof.
  intros Hm Hk log. unfold bind. specialize (Hm log).
  destruct (m log) as [a l|e l|]; [|done|done].
  destruct Hm as (new & -> & Hnew). specialize (Hk a (log ++ new)).
  destruct (k a (log ++ new)) as [b l|e l|]; [| |done].
  - destruct Hk as (new' & -> & Hnew'). exists (new ++ new').
    split; [by rewrite app_assoc | by apply Forall_app].
  - destruct Hk as (new' & -> & Hnew'). exists (new ++ new').
    split; [by rewrite app_assoc | by apply Forall_app].
Qed.

Lemma issues_weaken {A : Type} (S S' : Call -> Prop) (m : M A) :
  (forall c, S c -> S' c) -> issues S m -> issues S' m.
Proof.
  intros HS Hm log. specialize (Hm log).
  destruct (m log) as [a l|e l|]; [| |done];
    destruct Hm as (new & -> & Hnew); exists new; split; try done;
    by eapply Forall_impl.
Qed.

Lemma issues_for_of {A St : Type} (S : Call -> Prop) (xs : list A)
    (body : St -> A -> M St) (s : St) :
  (forall s x, issues S (body s x)) -> issues S (for_of xs body s).
Proof.
  intros Hbody. revert s. induction xs as [|x xs IH]; intros s; simpl.
  - apply issues_ret.
  - apply issues_bind; [apply Hbody | intros s'; apply IH].
Qed.

Section Hoare.
Context {A : Type}.
Implicit Types (P E : list Call -> Prop) (Q : A -> list Call -> Prop).

Lemma hoare_ret P Q E (a : A) : (forall log, P log -> Q a log) -> hoare P (ret a) Q E.
Proof. intros H log HP. by apply H. Qed.

Lemma hoare_throw P Q E (e : Error) :
  (forall log, P log -> E log) -> hoare P (@throw A e) Q E.
Proof. intros H log HP. by apply H. Qed.

Lemma hoare_pending P Q E : hoare P (@pending A) Q E.
Proof. by intros log HP. Qed.

Lemma hoare_conseq P P' Q Q' E E' (m : M A) :
  hoare P' m Q' E' ->
  (forall log, P log -> P' log) ->
  (forall a log, Q' a log -> Q a log) ->
  (forall log, E' log -> E log) ->
  hoare P m Q E.
Proof.
  intros Hm HP HQ HE log Hlog. specialize (Hm log (HP log Hlog)).
  destruct (m log); [by apply HQ | by apply HE | done].
Qed.

Lemma hoare_call P E (c : Call) (answer : nat -> A) :
  hoare P (call c answer)
    (fun a log' => exists log, P log /\ log' = log ++ [c] /\ a = answer (length log)) E.
Proof. intros log HP. unfold call. exists log. by repeat split. Qed.

(** A computation that adds calls in [S] keeps an invariant that such
    calls keep. *)
Lemma hoare_issues (S : Call -> Prop) P (R : list Call -> Prop) (m : M A) :
  issues S m ->
  (forall log new, P log -> Forall S new -> R (log ++ new)) ->
  hoare P m (fun _ => R) R.
Proof.
  intros Hm HR log HP. specialize (Hm log).
  destruct (m log) as [a l|e l|]; [| |done];
    destruct Hm as (new & -> & Hnew); by apply HR.
Qed.

Lemma hoare_try_catch P Q E E1 (m : M A) (handler : Error -> M A) :
  hoare P m Q E1 -> (forall e, hoare E1 (handler e) Q E) ->
  hoare P (try_catch m handler) Q E.
Proof.
  intros Hm Hh log HP. unfold try_catch. specialize (Hm log HP).
  destruct (m log) as [a l|e l|]; [done| |done]. by apply Hh.
Qed.

End Hoare.

Lemma hoare_bind {A B : Type} (P : list Call -> Prop) (R : A -> list Call -> Prop)
    (Q : B -> list Call -> Prop) (E : list Call -> Prop) (m : M A) (k : A -> M B) :
  hoare P m R E -> (forall a, hoare (R a) (k a) Q E) -> hoare P (bind m k) Q E.
Proof.
  intros Hm Hk log HP. unfold bind. specialize (Hm log HP).
  destruct (m log) as [a l|e l|]; [|done|done]. by apply Hk.
Qed.

Section Terminates.
Context {A : Type}.

Lemma terminates_ret (a : A) : terminates (ret a).
Proof. by intros log. Qed.

Lemma terminates_throw (e : Error) : terminates (@throw A e).
Proof. by intros log. Qed.

Lemma terminates_call (c : Call) (answer : nat -> A) : terminates (call c answer).
Proof. by intros log. Qed.

Lemma terminates_try_catch (m : M A) (handler : Error -> M A) :
  terminates m -> (forall e, terminates (handler e)) -> terminates (try_catch m handler).
Proof.
  intros Hm Hh log. unfold try_catch. specialize (Hm log).
  destruct (m log) as [a l|e l|]; [done| |done]. apply Hh.
Qed.

End Terminates.

Lemma terminates_bind {A B : Type} (m : M A) (k : A -> M B) :
  terminates m -> (forall a, terminates (k a)) -> terminates (bind m k).
Proof.
  intros Hm Hk log. unfold bind. specialize (Hm log).
  destruct (m log) as [a l|e l|]; [|done|done]. apply Hk.
Qed.

Lemma terminates_for_of {A St : Type} (xs : list A) (body : St -> A -> M St) (s : St) :
  (forall s x, terminates (body s x)) -> terminates (for_of xs body s).
Proof.
  intros Hbody. revert s. induction xs as [|x xs IH]; intros s; simpl.
  - apply terminates_ret.
  - apply terminates_bind; [apply Hbody | intros s'; apply IH].
Qed.

Lemma count_calls_app (w : Call -> bool) (l1 l2 : list Call) :
  count_calls w (l1 ++ l2) = count_calls w l1 + count_calls w l2.
Proof. unfold count_calls. by rewrite filter_app, length_app. Qed.

Lemma count_calls_none (w : Call -> bool) (new : list Call) :
  Forall (fun c => w c = false) new -> count_calls w new = 0.
Proof.
  unfold count_calls. induction 1 as [|c new Hc _ IH]; [done|].
  rewrite filter_cons_False by congruence. done.
Qed.

Lemma at_most_issues {A : Type} (w : Call -> bool) (n : nat) (m : M A) :
  issues (fun c => w c = false) m -> at_most w n m.
Proof.
  intros Hm log. specialize (Hm log).
  destruct (m log) as [a l|e l|]; [| |done];
    destruct Hm as (new & -> & Hnew); exists new;
    (split; [done|]); rewrite count_calls_none by done; lia.
Qed.

Lemma at_most_bind {A B : Type} (w : Call -> bool) (n1 n2 n : nat) (m : M A)
    (k : A -> M B) :
  at_most w n1 m -> (forall a, at_most w n2 (k a)) -> n1 + n2 <= n ->
  at_most w n (bind m k).
Proof.
  intros Hm Hk Hn log. unfold bind. specialize (Hm log).
  destruct (m log) as [a l|e l|]; [| |done].
  - destruct Hm as (new & -> & Hnew). specialize (Hk a (log ++ new)).
    destruct (k a (log ++ new)) as [b l|e l|]; [| |done];
      destruct Hk as (new' & -> & Hnew'); exists (new ++ new');
      (split; [by rewrite app_assoc|]); rewrite count_calls_app; lia.
  - destruct Hm as (new & -> & Hnew). exists new. split; [done | lia].
Qed.

Lemma at_most_ret {A : Type} (w : Call -> bool) (n : nat) (a : A) : at_most w n (ret a).
Proof.
  intros log. exists []. rewrite app_nil_r. split; [done|].
  unfold count_calls. rewrite filter_nil. simpl. lia.
Qed.

Lemma at_most_throw {A : Type} (w : Call -> bool) (n : nat) (e : Error) :
  at_most w n (@throw A e).
Proof.
  intros log. exists []. rewrite app_nil_r. split; [done|].
  unfold count_calls. rewrite filter_nil. simpl. lia.
Qed.

Lemma at_most_pending {A : Type} (w : Call -> bool) (n : nat) : at_most w n (@pending A).
Proof. by intros log. Qed.

Lemma bind_Return {A B : Type} (m : M A) (k : A -> M B) (log log' : list Call) (a : A) :
  m log = Return a log' -> bind m k log = k a log'.
Proof. intros H. unfold bind. by rewrite H. Qed.

Lemma bind_Throw {A B : Type} (m : M A) (k : A -> M B) (log log' : list Call) (e : Error) :
  m log = Throw e log' -> bind m k log = Throw e log'.
Proof. intros H. unfold bind. by rewrite H. Qed.

Lemma bind_Pending {A B : Type} (m : M A) (k : A -> M B) (log : list Call) :
  m log = Pending -> bind m k log = Pending.
Proof. intros H. unfold bind. by rewrite H. Qed.

(** One step of a run in a concrete environment: the first computation of
    a sequence is evaluated, and the run goes on with its result. *)
Ltac run_step :=
  match goal with
  | |- context [bind ?m ?k ?log] =>
      let r := eval vm_compute in (m log) in
      match r with
      | Return ?a ?l =>
          rewrite (bind_Return m k log l a) by (vm_compute; reflexivity)
      | Throw ?e ?l =>
          rewrite (bind_Throw m k log l e) by (vm_compute; reflexivity)
      end; simpl
  end.

End NodeFacts.

(** ** The deploy script: the calls of each function *)

Module DeployFacts.
Import JS RemoteConfig Node NodeFacts Deploy.

Ltac issues_rules :=
  repeat first
    [ apply issues_ret | apply issues_throw | apply issues_pending
    | apply issues_call
    | apply issues_bind; [|intros ?]
    | apply issues_try_catch; [|intros ?]
    | apply issues_for_of; intros ? ?
    | match goal with
      | |- issues _ (match ?x with _ => _ end) => destruct x
      end
    | progress unfold String_trim, if_truthy, getAccessToken ].

Ltac terminates_rules :=
  repeat first
    [ apply terminates_ret | apply terminates_throw
    | apply terminates_call
    | apply terminates_bind; [|intros ?]
    | apply terminates_try_catch; [|intros ?]
    | apply terminates_for_of; intros ? ?
    | match goal with
      | |- terminates (match ?x with _ => _ end) => destruct x
      end
    | progress unfold String_trim, if_truthy, getAccessToken ].

Section Functions.
Variable env : Env.
Variable S : Call -> Prop.

Lemma issues_execSync cmd : S (ExecSync cmd) -> issues S (execSync env cmd).
Proof. intros. issues_rules; eauto. Qed.

Lemma issues_sleep ms : S (Sleep ms) -> issues S (sleep ms).
Proof. intros. issues_rules; eauto. Qed.

Lemma issues_String_trim s : issues S (String_trim s).
Proof. intros. issues_rules; eauto. Qed.

Lemma issues_run cmd : S (ExecSync cmd) -> issues S (run env cmd).
Proof. intros. issues_rules; eauto. Qed.

Lemma issues_checkGhInstalled : S (ExecSync GhVersion) -> issues S (checkGhInstalled env).
Proof. intros. issues_rules; eauto. Qed.

Lemma issues_getAccessToken :
  S (ExecSync FirebasePrintAccessToken) -> issues S (getAccessToken env).
Proof. intros. issues_rules; eauto. Qed.

Lemma issues_getRemoteConfig projectId :
  S (ExecSync FirebasePrintAccessToken) -> (forall url token, S (FetchGet url token)) ->
  issues S (getRemoteConfig env projectId).
Proof. intros. issues_rules; eauto. Qed.

Lemma issues_setRemoteConfig projectId config :
  S (ExecSync FirebasePrintAccessToken) ->
  (forall url token body, S (FetchPut url token body)) ->
  issues S (setRemoteConfig env projectId config).
Proof. intros. issues_rules; eauto. Qed.

Lemma issues_readLocalConfig : S ReadConfig -> issues S (readLocalConfig env).
Proof. intros. issues_rules; eauto. Qed.

Lemma issues_validateRemoteConfig projectId :
  S ExistsSync -> S ReadConfig -> S (ExecSync FirebasePrintAccessToken) ->
  (forall url token, S (FetchGet url token)) ->
  issues S (validateRemoteConfig env projectId).
Proof. intros. issues_rules; eauto. Qed.

Lemma issues_syncRemoteConfig projectId :
  S ExistsSync -> S ReadConfig -> S (ExecSync FirebasePrintAccessToken) ->
  (forall url token body, S (FetchPut url token body)) ->
  issues S (syncRemoteConfig env projectId).
Proof. intros. issues_rules; eauto. Qed.

Lemma issues_getLatestRunId commitSha :
  (forall workflow, S (ExecSync (GhRunList workflow))) ->
  issues S (getLatestRunId env commitSha).
Proof. intros. issues_rules; eauto. Qed.

Lemma issues_getRunStatus runId :
  S (ExecSync (GhRunViewStatus runId)) -> issues S (getRunStatus env runId).
Proof. intros. issues_rules; eauto. Qed.

Lemma issues_getRunLogs runId :
  S (ExecSync (GhRunViewLog runId)) -> issues S (getRunLogs env runId).
Proof. intros. issues_rules; eauto. Qed.

Lemma issues_autoFix errors :
  S (ExecSync EslintFix) -> (forall pkg, S (ExecSync (NpmInstall pkg))) ->
  S (ExecSync GitStatusPorcelain) -> S (ExecSync GitAddAll) ->
  (forall message, S (ExecSync (GitCommit message))) -> S (ExecSync GitPush) ->
  issues S (autoFix env errors).
Proof. intros. issues_rules; eauto. Qed.

Lemma issues_waitForRun remaining pushedCommitSha runId :
  (forall ms, S (Sleep ms)) -> (forall workflow, S (ExecSync (GhRunList workflow))) ->
  issues S (waitForRun env remaining pushedCommitSha runId).
Proof.
  intros. revert runId. induction remaining as [|remaining IH]; intros runId; simpl;
    issues_rules; eauto.
Qed.

Lemma issues_pollRun fuel runId :
  (forall ms, S (Sleep ms)) -> S (ExecSync (GhRunViewStatus runId)) ->
  issues S (pollRun env fuel runId).
Proof.
  intros. induction fuel as [|fuel IH]; simpl; issues_rules; eauto.
Qed.

End Functions.

Section Termination.
Variable env : Env.

Lemma terminates_execSync cmd : terminates (execSync env cmd).
Proof. terminates_rules; eauto. Qed.

Lemma terminates_run cmd : terminates (run env cmd).
Proof. terminates_rules; eauto. Qed.

Lemma terminates_String_trim s : terminates (String_trim s).
Proof. terminates_rules; eauto. Qed.

Lemma terminates_checkGhInstalled : terminates (checkGhInstalled env).
Proof. terminates_rules; eauto. Qed.

Lemma terminates_getAccessToken : terminates (getAccessToken env).
Proof. terminates_rules; eauto. Qed.

Lemma terminates_validateRemoteConfig projectId :
  terminates (validateRemoteConfig env projectId).
Proof. terminates_rules; eauto. Qed.

Lemma terminates_syncRemoteConfig projectId :
  terminates (syncRemoteConfig env projectId).
Proof. terminates_rules; eauto. Qed.

Lemma terminates_getLatestRunId commitSha : terminates (getLatestRunId env commitSha).
Proof. terminates_rules; eauto. Qed.

Lemma terminates_getRunStatus runId : terminates (getRunStatus env runId).
Proof. terminates_rules; eauto. Qed.

Lemma terminates_getRunLogs runId : terminates (getRunLogs env runId).
Proof. terminates_rules; eauto. Qed.

Lemma terminates_autoFix errors : terminates (autoFix env errors).
Proof. terminates_rules; eauto. Qed.

Lemma terminates_waitForRun remaining pushedCommitSha runId :
  terminates (waitForRun env remaining pushedCommitSha runId).
Proof.
  revert runId. induction remaining as [|remaining IH]; intros runId; simpl;
    terminates_rules; eauto.
Qed.

End Termination.

(** *** The attempt budget and termination *)

Lemma pollRun_never_completes (fuel : nat) (log : list Call) :
  pollRun env_never_completes fuel 7 log = Pending.
Proof.
  revert log. induction fuel as [|fuel IH]; intros log; [done|].
  simpl. unfold bind at 1. simpl. apply IH.
Qed.


Lemma deploy_never_completes (fuel : nat) :
  deploy env_never_completes fuel 1 [] = Pending.
Proof.
  destruct fuel as [|fuel]; [done|].
  simpl. repeat run_step.
  apply bind_Pending, pollRun_never_completes.
Qed.

(** The claim that the deploy routine terminates for every input fails:
    when the workflow run never reports [completed], the routine polls for
    ever. *)
Lemma deploy_polls_for_ever :
  ~ exists fuel, deploy env_never_completes fuel 1 [] <> Pending.
Proof. intros [fuel H]. apply H, deploy_never_completes. Qed.

Ltac issues_auto :=
  repeat first
    [ apply issues_waitForRun | apply issues_pollRun | apply issues_autoFix
    | progress issues_rules ];
  intros; eauto.

Ltac terminates_auto :=
  repeat first
    [ apply terminates_waitForRun | apply terminates_autoFix
    | progress terminates_rules ];
  eauto.

Lemma at_most_bind_0 {A B : Type} (w : Call -> bool) (n : nat) (m : M A) (k : A -> M B) :
  issues (fun c => w c = false) m -> (forall a, at_most w n (k a)) ->
  at_most w n (bind m k).
Proof.
  intros Hm Hk. apply (at_most_bind w 0 n n); [by apply at_most_issues | done | lia].
Qed.

Lemma run_Return (env : Env) (cmd : Command) (log : list Call) :
  exists r, run env cmd log = Return r (log ++ [ExecSync cmd])
            /\ stdout r = match exec env (length log) cmd with
                          | ExecOk out => Some out
                          | ExecFailed out => out
                          end.
Proof.
  cbv [run try_catch bind execSync call ret throw].
  destruct (exec env (length log) cmd); by eexists.
Qed.

Lemma at_most_run_1 (env : Env) (w : Call -> bool) (n : nat) (cmd : Command) :
  at_most w (Datatypes.S n) (run env cmd).
Proof.
  intros log. destruct (run_Return env cmd log) as (r & -> & _).
  exists [ExecSync cmd]. split; [done|].
  unfold count_calls. rewrite filter_cons, filter_nil.
  case_decide; cbn [length]; lia.
Qed.

Ltac at_most_rules :=
  repeat first
    [ apply at_most_ret | apply at_most_throw | apply at_most_pending
    | apply at_most_bind_0; [solve [issues_auto]|intros ?]
    | match goal with
      | |- at_most _ _ (match ?x with _ => _ end) => destruct x eqn:?
      end ].

(** Every attempt that gets past the guards uses up one unit of the
    budget. *)
Lemma deploy_at_most (env : Env) (fuel attempt : nat) :
  at_most is_rev_parse (MAX_ATTEMPTS + 1 - attempt) (deploy env fuel attempt).
Proof.
  revert attempt. induction fuel as [|fuel IH]; intros attempt; cbn [deploy].
  { apply at_most_pending. }
  at_most_rules.
  match goal with H : bool_decide (MAX_ATTEMPTS < attempt) = false |- _ =>
    apply bool_decide_eq_false in H end.
  unfold MAX_ATTEMPTS in *.
  replace (5 + 1 - attempt) with (Datatypes.S (5 - attempt)) by lia.
  eapply (at_most_bind _ 1 (5 - attempt)); [apply at_most_run_1 | intros r | lia].
  at_most_rules.
  replace (5 - attempt) with (5 + 1 - (attempt + 1)) by lia.
  apply IH.
Qed.

Lemma hoare_any {A : Type} (P : list Call -> Prop) (m : M A) :
  hoare P m (fun _ _ => True) (fun _ => True).
Proof. intros log _. by destruct (m log). Qed.

(** An attempt beyond the budget stops at the guard: it makes the calls
    that come before the guards only, and does not return [true]. *)
Lemma deploy_beyond_budget_calls (env : Env) (fuel attempt : nat) :
  MAX_ATTEMPTS < attempt ->
  issues (fun c => preflight c = true) (deploy env fuel attempt).
Proof.
  intros Hmax. destruct fuel as [|fuel]; cbn [deploy]; [apply issues_pending|].
  rewrite (bool_decide_true (MAX_ATTEMPTS < attempt)) by done.
  issues_auto.
Qed.

Lemma deploy_beyond_budget_false (env : Env) (fuel attempt : nat) :
  MAX_ATTEMPTS < attempt ->
  hoare (fun _ => True) (deploy env fuel attempt) (fun b _ => b = false) (fun _ => True).
Proof.
  intros Hmax. destruct fuel as [|fuel]; cbn [deploy]; [apply hoare_pending|].
  rewrite (bool_decide_true (MAX_ATTEMPTS < attempt)) by done.
  repeat first
    [ by apply hoare_ret
    | eapply hoare_bind; [apply hoare_any | intros ?; cbv beta]
    | match goal with
      | |- hoare _ (match ?x with _ => _ end) _ _ => destruct x
      end ].
Qed.

Lemma getRunStatus_Return (env : Env) (runId : N) (log : list Call) :
  getRunStatus env runId log
  = Return (match exec env (length log) (GhRunViewStatus runId) with
            | ExecOk out => parseRunStatus env out
            | ExecFailed out => out ≫= parseRunStatus env
            end)
           (log ++ [ExecSync (GhRunViewStatus runId)]).
Proof.
  cbv [getRunStatus run try_catch bind execSync call ret throw].
  by destruct (exec env (length log) (GhRunViewStatus runId)).
Qed.

Lemma pollRun_terminates (env : Env) (T : nat) (runId : N) :
  runs_complete_from env T ->
  forall fuel log,
    T <= fuel + length log -> pollRun env (Datatypes.S fuel) runId log <> Pending.
Proof.
  intros Hcomplete. induction fuel as [|fuel IH]; intros log Hfuel;
    cbn [pollRun]; unfold bind at 1; rewrite getRunStatus_Return.
  - destruct (Hcomplete (length log) runId) as (out & sr & -> & -> & Hsr); [simpl in *; lia|].
    by rewrite bool_decide_true.
  - assert (forall ms, bind (sleep ms) (fun _ => pollRun env (Datatypes.S fuel) runId)
                         (log ++ [ExecSync (GhRunViewStatus runId)]) <> Pending) as Hnext.
    { intros ms. cbv [bind sleep call]. apply IH. rewrite !length_app. simpl. lia. }
    destruct (decide (T <= length log)) as [Hlate|Hearly].
    + destruct (Hcomplete (length log) runId Hlate) as (out & sr & -> & -> & Hsr).
      by rewrite bool_decide_true.
    + destruct (match exec env (length log) (GhRunViewStatus runId) with
                | ExecOk out => parseRunStatus env out
                | ExecFailed out => out ≫= parseRunStatus env
                end) as [sr|]; [|apply Hnext].
      case_bool_decide; [done | apply Hnext].
Qed.

Lemma terminates_pollRun (env : Env) (T fuel : nat) (runId : N) :
  runs_complete_from env T -> T < fuel -> terminates (pollRun env fuel runId).
Proof.
  intros Hcomplete Hfuel log. destruct fuel as [|fuel]; [lia|].
  apply (pollRun_terminates env T); [done | lia].
Qed.

Lemma terminates_deploy (env : Env) (T : nat) :
  runs_complete_from env T ->
  forall fuel attempt,
    T + (MAX_ATTEMPTS + 1 - attempt) < fuel -> terminates (deploy env fuel attempt).
Proof.
  intros Hcomplete. induction fuel as [|fuel IH]; intros attempt Hfuel; [lia|].
  cbn [deploy].
  repeat first
    [ apply terminates_waitForRun | apply terminates_autoFix
    | apply terminates_checkGhInstalled | apply terminates_run
    | apply terminates_String_trim | apply terminates_validateRemoteConfig
    | apply terminates_syncRemoteConfig | apply terminates_getLatestRunId
    | apply terminates_getRunLogs
    | apply terminates_ret | apply terminates_throw | apply terminates_call
    | apply terminates_bind; [|intros ?]
    | match goal with
      | |- terminates (match ?x with _ => _ end) => destruct x eqn:?
      end ];
    match goal with H : bool_decide (MAX_ATTEMPTS < attempt) = false |- _ =>
      apply bool_decide_eq_false in H end;
    unfold MAX_ATTEMPTS in *.
  - apply (terminates_pollRun env T); [done | lia].
  - apply IH. lia.
Qed.

(** C2, amended.  The deploy routine makes at most [MAX_ATTEMPTS] attempts
    that get past the guards, whatever the environment answers: every
    retry runs with the attempt counter one larger, and a call whose
    counter exceeds [MAX_ATTEMPTS] makes only the calls that come before
    the guards (no workflow run is looked for, triggered or polled) and
    does not return [true].  The routine terminates whenever the status
    queries of the workflow runs say [completed] from some time on. *)
Theorem deploy_attempt_budget (env : Env) (attempt : nat) :
  (forall fuel,
     at_most is_rev_parse (MAX_ATTEMPTS + 1 - attempt) (deploy env fuel attempt))
  /\ (MAX_ATTEMPTS < attempt ->
      forall fuel,
        issues (fun c => preflight c = true) (deploy env fuel attempt)
        /\ hoare (fun _ => True) (deploy env fuel attempt)
             (fun b _ => b = false) (fun _ => True))
  /\ (forall T,
        runs_complete_from env T ->
        exists fuel, forall fuel', fuel <= fuel' -> terminates (deploy env fuel' attempt)).
Proof.
  split; [|split].
  - intros fuel. apply deploy_at_most.
  - intros Hmax fuel. split.
    + by apply deploy_beyond_budget_calls.
    + by apply deploy_beyond_budget_false.
  - intros T Hcomplete. exists (T + MAX_ATTEMPTS + 2). intros fuel' Hfuel.
    apply (terminates_deploy env T Hcomplete). unfold MAX_ATTEMPTS in *. lia.
Qed.

Lemma env_completes_from_20 : runs_complete_from env_completes 20.
Proof.
  intros t runId Ht. eexists _, _. simpl.
  rewrite (bool_decide_false (t < 20)) by lia.
  split; [reflexivity|]. split; reflexivity.
Qed.

Lemma deploy_attempt_budget_witness :
  (exists fuel, deploy env_completes fuel 1 [] <> Pending)
  /\ issues (fun c => preflight c = true) (deploy env_completes 3 6).
Proof.
  destruct (deploy_attempt_budget env_completes 1) as (_ & _ & Hterm).
  destruct (deploy_attempt_budget env_completes 6) as (_ & Hguard & _).
  split.
  - destruct (Hterm 20 env_completes_from_20) as [fuel Hfuel].
    exists fuel. apply (Hfuel fuel). lia.
  - apply Hguard. unfold MAX_ATTEMPTS. lia.
Defined.

(** *** The outcome of the polled run *)

Lemma bind_ext {A B : Type} (m m' : M A) (k k' : A -> M B) (log : list Call) :
  (forall log, m log = m' log) -> (forall a log, k a log = k' a log) ->
  bind m k log = bind m' k' log.
Proof. intros Hm Hk. unfold bind. rewrite Hm. by destruct (m' log). Qed.

Lemma status_answer_without_early_conclusions (env : Env) (t : nat) (runId : N) :
  status_answer (without_early_conclusions env) t runId
  = (fun statusResult =>
       if bool_decide (status statusResult = Some "completed") then statusResult
       else {| status := status statusResult; conclusion := None |})
    <$> status_answer env t runId.
Proof.
  unfold status_answer. simpl.
  destruct (exec env t (GhRunViewStatus runId)) as [out|[out|]]; done.
Qed.

Lemma pollRun_unfold (env : Env) (fuel : nat) (runId : N) (log : list Call) :
  pollRun env (Datatypes.S fuel) runId log
  = let log' := log ++ [ExecSync (GhRunViewStatus runId)] in
    match status_answer env (length log) runId with
    | None => bind (sleep 5000%N) (fun _ => pollRun env fuel runId) log'
    | Some statusResult =>
        if bool_decide (status statusResult = Some "completed")
        then Return statusResult log'
        else bind (sleep POLL_INTERVAL_MS) (fun _ => pollRun env fuel runId) log'
    end.
Proof.
  cbn [pollRun]. unfold bind at 1. rewrite getRunStatus_Return.
  fold (status_answer env (length log) runId).
  destruct (status_answer env (length log) runId) as [sr|]; [|done].
  simpl. by case_bool_decide.
Qed.

Lemma pollRun_without_early_conclusions (env : Env) (fuel : nat) (runId : N)
    (log : list Call) :
  pollRun (without_early_conclusions env) fuel runId log = pollRun env fuel runId log.
Proof.
  revert log. induction fuel as [|fuel IH]; intros log; [done|].
  rewrite !pollRun_unfold, status_answer_without_early_conclusions.
  destruct (status_answer env (length log) runId) as [sr|]; simpl.
  - destruct (bool_decide (status sr = Some "completed")) eqn:Hsr.
    + by rewrite Hsr.
    + simpl. rewrite Hsr.
      apply bind_ext; [done | intros _ log'; apply IH].
  - apply bind_ext; [done | intros _ log'; apply IH].
Qed.

Lemma deploy_without_early_conclusions (env : Env) (fuel attempt : nat) (log : list Call) :
  deploy (without_early_conclusions env) fuel attempt log = deploy env fuel attempt log.
Proof.
  revert attempt log. induction fuel as [|fuel IH]; intros attempt log; [done|].
  cbn [deploy].
  change (isProduction (without_early_conclusions env)) with (isProduction env).
  repeat first
    [ apply IH
    | apply bind_ext;
        [ intros ?; first [apply pollRun_without_early_conclusions | reflexivity]
        | intros ? ?; cbv beta ]
    | match goal with
      | |- (match ?x with _ => _ end) _ = _ => destruct x
      end
    | reflexivity ].
Qed.

Lemma last_is_status_query_app (log new : list Call) :
  last_is_status_query log = false ->
  Forall (fun c => is_status_query c = false) new ->
  last_is_status_query (log ++ new) = false.
Proof.
  intros Hlog Hnew. unfold last_is_status_query in *. rewrite last_app.
  destruct (last new) as [c|] eqn:Hlast; [|done].
  apply last_Some_elem_of in Hlast. by eapply Forall_forall in Hnew.
Qed.

Lemma last_is_status_query_snoc (log : list Call) (c : Call) :
  last_is_status_query (log ++ [c]) = is_status_query c.
Proof. unfold last_is_status_query. by rewrite last_snoc. Qed.

(** A computation without status queries leaves a log that does not end
    in one as such. *)
Lemma hoare_no_status_query {A : Type} (m : M A) :
  issues (fun c => is_status_query c = false) m ->
  hoare (fun log => last_is_status_query log = false) m
    (fun _ log => last_is_status_query log = false) (fun _ => True).
Proof.
  intros Hm log Hlog. specialize (Hm log).
  destruct (m log) as [a l|e l|]; [|done|done].
  destruct Hm as (new & -> & Hnew). by apply last_is_status_query_app.
Qed.

Lemma hoare_checkGhInstalled (env : Env) (P : list Call -> Prop) :
  hoare P (checkGhInstalled env)
    (fun _ log => last_is_status_query log = false) (fun _ => True).
Proof.
  intros log _. cbv [checkGhInstalled try_catch bind execSync call ret throw].
  destruct (exec env (length log) GhVersion); apply last_is_status_query_snoc.
Qed.

Lemma hoare_getRunLogs (env : Env) (runId : N) (P : list Call -> Prop) :
  hoare P (getRunLogs env runId)
    (fun _ log => last_is_status_query log = false) (fun _ => True).
Proof.
  intros log _. cbv [getRunLogs run try_catch bind execSync call ret throw].
  destruct (exec env (length log) (GhRunViewLog runId)); apply last_is_status_query_snoc.
Qed.

(** The polling loop leaves with the answer to its last query, and that
    answer says [completed]. *)
Lemma hoare_pollRun (env : Env) (fuel : nat) (runId : N) (P : list Call -> Prop) :
  hoare P (pollRun env fuel runId)
    (fun statusResult log =>
       last_status env log = Some statusResult
       /\ status statusResult = Some "completed")
    (fun _ => True).
Proof.
  assert (forall log, match pollRun env fuel runId log with
                      | Return statusResult log' =>
                          last_status env log' = Some statusResult
                          /\ status statusResult = Some "completed"
                      | _ => True
                      end) as H; [|by intros log _; specialize (H log);
                                     destruct (pollRun env fuel runId log)].
  induction fuel as [|fuel IH]; intros log; [done|].
  rewrite pollRun_unfold. cbv zeta.
  assert (forall ms,
            match bind (sleep ms) (fun _ => pollRun env fuel runId)
                    (log ++ [ExecSync (GhRunViewStatus runId)]) with
            | Return statusResult log' =>
                last_status env log' = Some statusResult
                /\ status statusResult = Some "completed"
            | _ => True
            end) as Hnext.
  { intros ms. cbv [bind sleep call]. apply IH. }
  destruct (status_answer env (length log) runId) as [sr|] eqn:Hanswer; [|apply Hnext].
  case_bool_decide as Hsr; [|apply Hnext].
  split; [|done]. unfold last_status. rewrite last_snoc, length_app. simpl.
  by replace (length log + 1 - 1) with (length log) by lia.
Qed.

Lemma deploy_outcome (env : Env) (fuel attempt : nat) :
  hoare (fun _ => True) (deploy env fuel attempt)
    (fun b log =>
       (b = true /\ ends_in_success env log)
       \/ (b = false /\ last_is_status_query log = false))
    (fun _ => True).
Proof.
  revert attempt. induction fuel as [|fuel IH]; intros attempt; cbn [deploy].
  { apply hoare_pending. }
  repeat first
    [ apply hoare_ret; intros ? ?; right; by split
    | apply hoare_throw; done
    | eapply hoare_conseq; [apply IH | done | done | done]
    | eapply hoare_bind;
        [ first [ apply hoare_checkGhInstalled
                | apply hoare_pollRun
                | apply hoare_getRunLogs
                | apply hoare_no_status_query; solve [issues_auto] ]
        | intros ?; cbv beta ]
    | match goal with
      | |- hoare _ (if bool_decide (conclusion ?sr = Some "success") then _ else _) _ _ =>
          destruct (bool_decide (conclusion sr = Some "success")) eqn:Hsuccess;
          [ apply bool_decide_eq_true in Hsuccess;
            apply hoare_ret; intros ? [? ?]; left; split; [done|]; by eexists
          | ]
      | |- hoare _ (match ?x with _ => _ end) _ _ => destruct x
      end ].
Qed.

(** X25.  The conclusion of a status result that does not say
    [completed] has no influence on the routine: it runs the same when
    such results carry no conclusion.  And when the routine returns, it
    returns [true] exactly when its last call is a status query answered
    [completed] with conclusion [success]. *)
Theorem deploy_true_iff_success (env : Env) (fuel attempt : nat) (log : list Call) :
  deploy (without_early_conclusions env) fuel attempt log = deploy env fuel attempt log
  /\ forall b log',
       deploy env fuel attempt log = Return b log' ->
       (b = true <-> ends_in_success env log').
Proof.
  split; [apply deploy_without_early_conclusions|].
  intros b log' Hrun. pose proof (deploy_outcome env fuel attempt log I) as H.
  rewrite Hrun in H. destruct H as [[-> Hs]|[-> Hns]]; [done|].
  split; [done|]. intros (sr & Hlast & _). exfalso.
  unfold last_status, last_is_status_query in *.
  destruct (last log') as [[[]| | | | |]|]; simplify_eq.
Qed.

(** *** Remote Config is pushed when, and only when, the diff finds errors *)

Lemma getAccessToken_eq (env : Env) (log : list Call) :
  getAccessToken env log
  = match token_at env (length log) with
    | Some token => Return token (log ++ [ExecSync FirebasePrintAccessToken])
    | None => Throw token_error (log ++ [ExecSync FirebasePrintAccessToken])
    end.
Proof.
  cbv [getAccessToken token_at if_truthy truthy try_catch bind execSync call ret throw].
  destruct (FIREBASE_TOKEN env) as [token|]; [case_bool_decide|];
    by destruct (exec env (length log) FirebasePrintAccessToken).
Qed.

Lemma readLocalConfig_outcome (env : Env) (log : list Call) :
  match readLocalConfig env log with
  | Return config log' => log' = log ++ [ReadConfig] /\ readConfig env (length log) = Some config
  | Throw _ log' => log' = log ++ [ReadConfig] /\ readConfig env (length log) = None
  | Pending => False
  end.
Proof.
  cbv [readLocalConfig bind call ret throw].
  by destruct (readConfig env (length log)).
Qed.

(** The calls of [syncRemoteConfig], whether it returns or throws. *)
Lemma syncRemoteConfig_calls (env : Env) (projectId : string) (log : list Call) :
  match syncRemoteConfig env projectId log with
  | Return _ log' | Throw _ log' => log' = log ++ sync_calls env projectId (length log)
  | Pending => False
  end.
Proof.
  unfold syncRemoteConfig, sync_calls. unfold bind at 1, call at 1.
  destruct (existsConfig env (length log)); simpl; [|done].
  unfold bind at 1.
  pose proof (readLocalConfig_outcome env (log ++ [ExistsSync])) as Hread.
  rewrite length_app in Hread. simpl in Hread.
  destruct (readLocalConfig env (log ++ [ExistsSync])) as [config l|e l|]; [| |done];
    destruct Hread as [-> ->]; [|by rewrite <- app_assoc].
  unfold bind at 1. unfold setRemoteConfig. unfold bind at 1.
  rewrite getAccessToken_eq, !length_app. simpl.
  replace (length log + 1 + 1) with (length log + 2) by lia.
  destruct (token_at env (length log + 2)) as [token|]; [|by rewrite <- !app_assoc].
  unfold bind at 1, call at 1.
  destruct (fetchPut env _ (remoteConfigUrl projectId) token (buildTemplate config));
    simpl; by rewrite <- !app_assoc.
Qed.

Lemma sync_calls_put (env : Env) (projectId : string) (t j : nat) (url token : string)
    (body : Template) :
  sync_calls env projectId t !! j = Some (FetchPut url token body) ->
  j = 3 /\ url = remoteConfigUrl projectId
  /\ exists config,
       readConfig env (t + 1) = Some config
       /\ token_at env (t + 2) = Some token
       /\ body = buildTemplate config.
Proof.
  unfold sync_calls. destruct j as [|j]; [done|]. simpl.
  destruct (existsConfig env t); [|done]. destruct j as [|j]; [done|]. simpl.
  destruct (readConfig env (t + 1)) as [config|]; [|done].
  destruct j as [|j]; [done|]. simpl.
  destruct (token_at env (t + 2)) as [tok|]; [|done].
  destruct j as [|j]; [|by destruct j]. simpl. intros [= <- <- <-].
  split; [done|]. split; [done|]. by exists config.
Qed.

Lemma sync_calls_no_get (env : Env) (projectId : string) (t : nat) :
  Forall (fun c => is_get c = false) (sync_calls env projectId t).
Proof.
  unfold sync_calls. destruct (existsConfig env t); [|by repeat constructor].
  destruct (readConfig env (t + 1)); [|by repeat constructor].
  destruct (token_at env (t + 2)); by repeat constructor.
Qed.

Lemma sync_trace_app (env : Env) (log new : list Call) :
  sync_trace env log ->
  Forall (fun c => is_put c = false) new ->
  (forall j url token,
     new !! j = Some (FetchGet url token) -> benign env (length log + j) url token) ->
  sync_trace env (log ++ new).
Proof.
  intros [Hputs Hgets] Hnew Hbenign. split.
  - intros i url token body Hi. destruct (decide (i < length log)) as [Hlt|Hge].
    + rewrite lookup_app_l in Hi by done.
      destruct (Hputs _ _ _ _ Hi) as (lc & rc & t & c & ? & ? & ? & Hget & ? & ? & ? & ? & ?).
      exists lc, rc, t, c. repeat split; try done.
      by apply lookup_app_l_Some.
    + rewrite lookup_app_r in Hi by lia. apply list_elem_of_lookup_2 in Hi.
      rewrite Forall_forall in Hnew. by apply Hnew in Hi.
  - intros i url token lc rc Hi Hread Hfetch Hdiff j c Hj.
    destruct (decide (i < length log)) as [Hlt|Hge].
    + rewrite lookup_app_l in Hi by done.
      apply lookup_app_l_Some. by eapply Hgets.
    + rewrite lookup_app_r in Hi by lia. exfalso. apply Hdiff.
      apply (Hbenign _ _ _ Hi); [|by replace (length log + (i - length log)) with i by lia].
      by replace (length log + (i - length log)) with i by lia.
Qed.

Lemma hoare_sync_trace_other {A : Type} (env : Env) (m : M A) :
  issues (fun c => is_put c = false /\ is_get c = false) m ->
  hoare (sync_trace env) m (fun _ => sync_trace env) (sync_trace env).
Proof.
  intros Hm. apply (hoare_issues _ _ _ _ Hm). intros log new Hlog Hnew.
  apply sync_trace_app; [done | by eapply Forall_impl; [done|intros ? []] |].
  intros j url token Hj. apply list_elem_of_lookup_2 in Hj.
  rewrite Forall_forall in Hnew. by destruct (Hnew _ Hj).
Qed.

Ltac no_put_calls :=
  repeat first [by apply Forall_nil | apply Forall_cons; split; [reflexivity|]].

Lemma validateRemoteConfig_outcome (env : Env) (projectId : string) (log : list Call) :
  match validateRemoteConfig env projectId log with
  | Return errors log' => validated env projectId log errors log'
  | Throw _ log' =>
      exists new,
        log' = log ++ new
        /\ Forall (fun c => is_put c = false) new
        /\ forall j url token,
             new !! j = Some (FetchGet url token) ->
             forall remoteConfig,
               fetchGet env (length log + j) url token <> HttpOk remoteConfig
  | Pending => False
  end.
Proof.
  unfold validateRemoteConfig. unfold bind at 1, call at 1.
  destruct (existsConfig env (length log)); simpl.
  2:{ exists [ExistsSync]. split; [done|]. split; [no_put_calls|].
      by intros [|[|]]. }
  unfold bind at 1.
  pose proof (readLocalConfig_outcome env (log ++ [ExistsSync])) as Hread.
  destruct (readLocalConfig env (log ++ [ExistsSync])) as [localConfig l|e l|]; [| |done].
  2:{ destruct Hread as [-> _]. exists [ExistsSync; ReadConfig]. rewrite <- app_assoc.
      split; [done|]. split; [no_put_calls|]. by intros [|[|[|]]]. }
  destruct Hread as [-> Hlocal]. rewrite length_app in Hlocal. simpl in Hlocal.
  unfold bind at 1. unfold getRemoteConfig. unfold bind at 1.
  rewrite getAccessToken_eq.
  destruct (token_at env _) as [token|].
  2:{ exists [ExistsSync; ReadConfig; ExecSync FirebasePrintAccessToken].
      rewrite <- !app_assoc. split; [done|]. split; [no_put_calls|].
      by intros [|[|[|[|]]]]. }
  unfold bind at 1, call at 1. rewrite !length_app. simpl.
  replace (length log + 1 + 1 + 1) with (length log + 3) by lia.
  destruct (fetchGet env (length log + 3) (remoteConfigUrl projectId) token)
    as [remoteConfig|text|] eqn:Hfetch; simpl.
  - exists localConfig, remoteConfig, token.
    rewrite <- !app_assoc. by repeat split.
  - exists [ExistsSync; ReadConfig; ExecSync FirebasePrintAccessToken;
            FetchGet (remoteConfigUrl projectId) token].
    rewrite <- !app_assoc. split; [done|]. split; [no_put_calls|].
    intros [|[|[|[|[|]]]]] url tok; try done. intros [= <- <-] remoteConfig.
    by rewrite Hfetch.
  - exists [ExistsSync; ReadConfig; ExecSync FirebasePrintAccessToken;
            FetchGet (remoteConfigUrl projectId) token].
    rewrite <- !app_assoc. split; [done|]. split; [no_put_calls|].
    intros [|[|[|[|[|]]]]] url tok; try done. intros [= <- <-] remoteConfig.
    by rewrite Hfetch.
Qed.

Lemma hoare_validateRemoteConfig (env : Env) (projectId : string) :
  hoare (sync_trace env) (validateRemoteConfig env projectId)
    (fun errors log =>
       exists log0, sync_trace env log0 /\ validated env projectId log0 errors log)
    (sync_trace env).
Proof.
  intros log Hlog. pose proof (validateRemoteConfig_outcome env projectId log) as H.
  destruct (validateRemoteConfig env projectId log) as [errors l|e l|]; [| |done].
  - by exists log.
  - destruct H as (new & -> & Hnew & Hget). apply sync_trace_app; [done..|].
    intros j url token Hj lc rc _ Hfetch. by apply Hget in Hfetch.
Qed.

Lemma sync_trace_after_errors (env : Env) (log0 log : list Call) (errors : list string) :
  sync_trace env log0 -> validated env (targetProject env) log0 errors log ->
  errors <> [] ->
  sync_trace env (log ++ sync_calls env (targetProject env) (length log)).
Proof.
  intros [Hputs Hgets] (lc & rc & token & -> & Hlc & Hrc & ->) Herrors.
  rewrite length_app. simpl. rewrite <- app_assoc.
  set (sc := sync_calls env (targetProject env) (length log0 + 4)).
  assert (forall i, length log0 + 4 <= i ->
            (log0 ++ [ExistsSync; ReadConfig; ExecSync FirebasePrintAccessToken;
                      FetchGet (remoteConfigUrl (targetProject env)) token] ++ sc) !! i
            = sc !! (i - (length log0 + 4))) as Htail.
  { intros i Hi. rewrite lookup_app_r by lia.
    replace (i - length log0) with (4 + (i - (length log0 + 4))) by lia. done. }
  split.
  - intros i u t body Hi. destruct (decide (i < length log0)) as [Hlt|Hge].
    + rewrite lookup_app_l in Hi by done.
      destruct (Hputs _ _ _ _ Hi) as (lc' & rc' & t' & c & ? & ? & ? & ? & ? & ? & ? & ? & ?).
      exists lc', rc', t', c. repeat split; try done. by apply lookup_app_l_Some.
    + destruct (decide (i < length log0 + 4)) as [Hmid|Hlate].
      { rewrite lookup_app_r in Hi by lia.
        destruct (i - length log0) as [|[|[|[|k]]]] eqn:Hk; simpl in Hi; try done. lia. }
      rewrite Htail in Hi by lia.
      apply sync_calls_put in Hi as (Hj & -> & c & Hc & Htok & ->).
      assert (i = length log0 + 7) as -> by lia.
      exists lc, rc, token, c.
      replace (length log0 + 7 - 6) with (length log0 + 1) by lia.
      replace (length log0 + 7 - 4) with (length log0 + 3) by lia.
      replace (length log0 + 7 - 2) with (length log0 + 4 + 1) by lia.
      replace (length log0 + 7 - 1) with (length log0 + 4 + 2) by lia.
      repeat split; try done; [lia|].
      rewrite lookup_app_r by lia.
      by replace (length log0 + 3 - length log0) with 3 by lia.
  - intros i u t lc' rc' Hi Hread Hfetch Hdiff j c Hj.
    destruct (decide (i < length log0)) as [Hlt|Hge].
    + rewrite lookup_app_l in Hi by done. apply lookup_app_l_Some. by eapply Hgets.
    + destruct (decide (i < length log0 + 4)) as [Hmid|Hlate].
      * rewrite lookup_app_r in Hi by lia.
        destruct (i - length log0) as [|[|[|[|k]]]] eqn:Hk; simpl in Hi; try done; [|lia].
        assert (i = length log0 + 3) as -> by lia.
        rewrite Htail by lia.
        replace (length log0 + 3 + 1) with (length log0 + 4) in * by lia.
        by replace (length log0 + 4 + j - (length log0 + 4)) with j by lia.
      * exfalso. rewrite Htail in Hi by lia. apply list_elem_of_lookup_2 in Hi.
        pose proof (sync_calls_no_get env (targetProject env) (length log0 + 4)) as Hno.
        rewrite Forall_forall in Hno. by apply Hno in Hi.
Qed.

Lemma hoare_sync_if_errors (env : Env) (errors : list string) :
  hoare (fun log =>
           exists log0, sync_trace env log0
                        /\ validated env (targetProject env) log0 errors log)
    (if bool_decide (0 < length errors) then syncRemoteConfig env (targetProject env)
     else ret ())
    (fun _ => sync_trace env) (sync_trace env).
Proof.
  intros log (log0 & Hlog0 & Hvalidated). case_bool_decide as Herrors.
  - assert (errors <> []) as Hne by (intros ->; simpl in *; lia).
    pose proof (syncRemoteConfig_calls env (targetProject env) log) as H.
    destruct (syncRemoteConfig env (targetProject env) log) as [[] l|e l|]; [| |done];
      subst l; by eapply sync_trace_after_errors.
  - assert (errors = []) as -> by (destruct errors; [done | simpl in *; lia]).
    unfold ret. destruct Hvalidated as (lc & rc & token & -> & Hlc & Hrc & Hdiff).
    apply sync_trace_app; [done | no_put_calls |].
    intros [|[|[|[|[|]]]]] u t; try done. intros [= <- <-] lc' rc' Hlc' Hrc'.
    replace (length log0 + 3 - 2) with (length log0 + 1) in Hlc' by lia.
    congruence.
Qed.

Lemma deploy_sync_trace (env : Env) (fuel attempt : nat) :
  hoare (sync_trace env) (deploy env fuel attempt)
    (fun _ => sync_trace env) (sync_trace env).
Proof.
  revert attempt. induction fuel as [|fuel IH]; intros attempt; cbn [deploy].
  { apply hoare_pending. }
  repeat first
    [ by apply hoare_ret
    | by apply hoare_throw
    | apply IH
    | eapply hoare_bind;
        [ first [ apply (hoare_validateRemoteConfig env (targetProject env))
                | apply hoare_sync_if_errors
                | apply hoare_sync_trace_other; solve [issues_auto] ]
        | intros ?; cbv beta ]
    | match goal with
      | |- hoare _ (match ?x with _ => _ end) _ _ => destruct x
      end ].
Qed.

(** C6.  The template [deploy] publishes lacks a parameter the claim
    says it creates.  With [--prod], a local file that lists a conditional
    value for the parameter [constructor], which it does not have, and a
    live template without parameters, the diff finds errors and [deploy]
    calls [syncRemoteConfig], which puts the template built from the file;
    and that template has no parameter [constructor], with default
    [control] or any other, and nothing of what the file lists for it. *)
Theorem deploy_drops_listed_parameter :
  exists token,
    deploy env_listed_constructor 1 1 []
    = Return false
        [ExecSync GhVersion; ExecSync GitBranchShowCurrent;
         ExistsSync; ReadConfig; ExecSync FirebasePrintAccessToken;
         FetchGet (remoteConfigUrl "argbase-prod") token;
         ExistsSync; ReadConfig; ExecSync FirebasePrintAccessToken;
         FetchPut (remoteConfigUrl "argbase-prod") token
           (buildTemplate local_listed_constructor)]
    /\ validateRemoteConfig_diff local_listed_constructor remote_empty <> []
    /\ obj_get (default [] (conditionalValues local_listed_constructor)) "constructor"
       = Some [("beta_users", {| value := Some "beta" |})]
    /\ obj_get (default [] (parameters local_listed_constructor)) "constructor" = None
    /\ tpl_parameters (buildTemplate local_listed_constructor)
       = default [] (parameters local_listed_constructor)
    /\ obj_get (tpl_parameters (buildTemplate local_listed_constructor)) "constructor"
       = None.
Proof.
  eexists. split; [vm_compute; reflexivity|].
  split; [vm_compute; discriminate|]. by repeat split.
Qed.

(** X24.  In every run of the deploy routine on files that list no
    conditional values under a name of [Object.prototype]: a PUT to the
    Remote Config endpoint is only ever made right after a validation
    whose diff found errors, goes to the project the arguments select,
    with the token just obtained, and carries the template built from the
    local file as it was just read; and every validation whose diff found
    errors is followed by the calls of [syncRemoteConfig]: the existence
    check, then the read if the file exists, then the token command if the
    file parses, then that PUT if there is a token.  A validation without
    errors is followed by no PUT. *)
Theorem deploy_syncs_on_errors (env : Env) (fuel attempt : nat) (log : list Call) :
  never_pollutes env ->
  sync_trace env log ->
  match deploy env fuel attempt log with
  | Return _ log' | Throw _ log' => sync_trace env log'
  | Pending => True
  end.
Proof.
  intros _ Hlog. pose proof (deploy_sync_trace env fuel attempt log Hlog) as H.
  by destruct (deploy env fuel attempt log).
Qed.

Lemma sync_trace_nil (env : Env) : sync_trace env [].
Proof. split; intros i; intros; by rewrite lookup_nil in *. Qed.

Lemma distinct_keys_sample_local : distinct_keys sample_local.
Proof.
  split; simpl.
  - apply NoDup_singleton.
  - intros k conds Hin. apply list_elem_of_singleton in Hin.
    injection Hin as _ ->. apply NoDup_singleton.
Qed.

Lemma never_pollutes_env_out_of_sync : never_pollutes env_out_of_sync.
Proof.
  intros t config [= <-]. unfold plain_listed. simpl. repeat constructor.
  unfold plain, Object_prototype. rewrite !elem_of_cons, elem_of_nil.
  intros H; by repeat destruct H as [H|H].
Qed.

Lemma deploy_env_out_of_sync :
  exists token,
    deploy env_out_of_sync 1 1 []
    = Return false
        [ExecSync GhVersion; ExecSync GitBranchShowCurrent;
         ExistsSync; ReadConfig; ExecSync FirebasePrintAccessToken;
         FetchGet (remoteConfigUrl "argbase-prod") token;
         ExistsSync; ReadConfig; ExecSync FirebasePrintAccessToken;
         FetchPut (remoteConfigUrl "argbase-prod") token (buildTemplate sample_local)].
Proof. eexists. vm_compute. reflexivity. Qed.

Lemma deploy_syncs_on_errors_witness :
  exists token log,
    deploy env_out_of_sync 1 1 [] = Return false log
    /\ last log = Some (FetchPut (remoteConfigUrl "argbase-prod") token
                          (buildTemplate sample_local))
    /\ sync_trace env_out_of_sync log.
Proof.
  destruct deploy_env_out_of_sync as (token & Hrun).
  pose proof (deploy_syncs_on_errors env_out_of_sync 1 1 []
                never_pollutes_env_out_of_sync (sync_trace_nil _)) as Htrace.
  rewrite Hrun in Htrace. eexists token, _. split; [exact Hrun|]. split; [reflexivity|].
  exact Htrace.
Defined.

Lemma deploy_true_iff_success_witness :
  exists log,
    deploy env_completes 10 1 [] = Return true log /\ ends_in_success env_completes log.
Proof.
  assert (exists log, deploy env_completes 10 1 [] = Return true log) as [l Hrun].
  { eexists. vm_compute. reflexivity. }
  exists l. split; [done|].
  by apply (proj2 (deploy_true_iff_success env_completes 10 1 []) true l Hrun).
Defined.

(** C7.  After a run that completed with the conclusion [failure],
    [deploy] neither retries nor returns [false]: when [gh run view
    --log] fails without output, [run] hands back an undefined [stdout],
    which [getRunLogs] passes on (its own [catch] is never reached, [run]
    does not throw), and [parseErrors] throws on it. *)
Theorem deploy_throws_after_failed_run :
    deploy env_logs_unavailable 2 1 []
    = Throw (new_Error "Cannot read properties of undefined (reading 'match')")
        [ExecSync GhVersion; ExecSync GitBranchShowCurrent;
         ExistsSync; ReadConfig; ExecSync FirebasePrintAccessToken;
         FetchGet (remoteConfigUrl "argbase-staging") "cli-token";
         ExecSync (GhRunList "firebase-deploy-staging.yml");
         ExecSync GitStatusPorcelain; ExecSync GitRevParseHead; Sleep 5000;
         ExecSync (GhRunList "firebase-deploy-staging.yml");
         ExecSync (GhRunViewStatus 7); ExecSync (GhRunViewLog 7)]
    /\ status_answer env_logs_unavailable 11 7
       = Some {| status := Some "completed"; conclusion := Some "failure" |}
    /\ getRunLogs env_logs_unavailable 7
         [ExecSync GhVersion; ExecSync GitBranchShowCurrent;
          ExistsSync; ReadConfig; ExecSync FirebasePrintAccessToken;
          FetchGet (remoteConfigUrl "argbase-staging") "cli-token";
          ExecSync (GhRunList "firebase-deploy-staging.yml");
          ExecSync GitStatusPorcelain; ExecSync GitRevParseHead; Sleep 5000;
          ExecSync (GhRunList "firebase-deploy-staging.yml");
          ExecSync (GhRunViewStatus 7)]
       = Return None
           [ExecSync GhVersion; ExecSync GitBranchShowCurrent;
            ExistsSync; ReadConfig; ExecSync FirebasePrintAccessToken;
            FetchGet (remoteConfigUrl "argbase-staging") "cli-token";
            ExecSync (GhRunList "firebase-deploy-staging.yml");
            ExecSync GitStatusPorcelain; ExecSync GitRevParseHead; Sleep 5000;
            ExecSync (GhRunList "firebase-deploy-staging.yml");
            ExecSync (GhRunViewStatus 7); ExecSync (GhRunViewLog 7)].
Proof. split; [|split]; vm_compute; reflexivity. Qed.

(** *** Guards, fixes and waiting *)

Lemma run_eq (env : Env) (cmd : Command) (log : list Call) :
  run env cmd log
  = Return match exec env (length log) cmd with
           | ExecOk out => {| stdout := Some out; error := None |}
           | ExecFailed out =>
               {| stdout := out;
                  error := Some {| message := "Command failed: " +:+ command_line cmd;
                                   e_stdout := out |} |}
           end
           (log ++ [ExecSync cmd]).
Proof.
  cbv [run try_catch bind execSync call ret throw].
  by destruct (exec env (length log) cmd).
Qed.

Lemma checkGhInstalled_eq (env : Env) (log : list Call) :
  checkGhInstalled env log
  = Return match exec env (length log) GhVersion with
           | ExecOk _ => true
           | ExecFailed _ => false
           end
           (log ++ [ExecSync GhVersion]).
Proof.
  cbv [checkGhInstalled try_catch bind execSync call ret throw].
  by destruct (exec env (length log) GhVersion).
Qed.

(** X4.  [run] never throws: it returns after exactly one command,
    with the output of the command, or with the error and the output the
    error carries. *)
Theorem run_never_throws (env : Env) (cmd : Command) (log : list Call) :
  exists r,
    run env cmd log = Return r (log ++ [ExecSync cmd])
    /\ (error r = None <-> exists out, exec env (length log) cmd = ExecOk out)
    /\ (forall out, exec env (length log) cmd = ExecOk out -> stdout r = Some out)
    /\ (forall out, exec env (length log) cmd = ExecFailed out -> stdout r = out).
Proof.
  rewrite run_eq. eexists. split; [done|].
  destruct (exec env (length log) cmd) as [out|out]; simpl.
  - split; [split; [by eauto | done]|]. split; [by intros ? [= ->] | by intros ? [=]].
  - split; [split; [done | by intros [? [=]]]|].
    split; [by intros ? [=] | by intros ? [= ->]].
Qed.

Lemma run_never_throws_witness :
  exists r,
    run env_on_branch GitBranchShowCurrent [] = Return r [ExecSync GitBranchShowCurrent]
    /\ stdout r = Some ("feature/login" +:+ newline).
Proof.
  destruct (run_never_throws env_on_branch GitBranchShowCurrent [])
    as (r & Hrun & _ & Hout & _).
  exists r. split; [done|]. by apply Hout.
Defined.

(** X5.  Without the GitHub CLI the deploy routine stops after its first
    call; off [main] and [master] it stops after the second: it returns
    [false] and touches neither Remote Config nor the workflow. *)
Theorem deploy_guards (env : Env) (fuel attempt : nat) (log : list Call) :
  (forall out,
     exec env (length log) GhVersion = ExecFailed out ->
     deploy env (Datatypes.S fuel) attempt log = Return false (log ++ [ExecSync GhVersion]))
  /\ (forall version branch,
        exec env (length log) GhVersion = ExecOk version ->
        exec env (length log + 1) GitBranchShowCurrent = ExecOk branch ->
        trim branch <> "main" -> trim branch <> "master" ->
        deploy env (Datatypes.S fuel) attempt log
        = Return false (log ++ [ExecSync GhVersion; ExecSync GitBranchShowCurrent])).
Proof.
  split.
  - intros out Hgh. cbn [deploy].
    rewrite (bind_Return _ _ _ _ _ (checkGhInstalled_eq env log)). by rewrite Hgh.
  - intros version branch Hgh Hbranch Hmain Hmaster. cbn [deploy].
    rewrite (bind_Return _ _ _ _ _ (checkGhInstalled_eq env log)). rewrite Hgh. simpl.
    rewrite (bind_Return _ _ _ _ _ (run_eq env _ _)).
    rewrite length_app. simpl. rewrite Hbranch. simpl.
    unfold bind at 1, ret at 1.
    rewrite !bool_decide_false by done. simpl.
    by rewrite <- app_assoc.
Qed.

Lemma deploy_guards_witness :
  deploy env_on_branch 1 1 []
  = Return false [ExecSync GhVersion; ExecSync GitBranchShowCurrent].
Proof.
  apply (proj2 (deploy_guards env_on_branch 0 1 []) EmptyString
           ("feature/login" +:+ newline)); try reflexivity;
    vm_compute; discriminate.
Defined.

(** X6.  When the local file is missing, the deploy routine on [main] or
    [master] throws after checking for the file: nothing is read, fetched,
    put or pushed.  The message of the error is the path of the file,
    [RC_CONFIG_PATH], followed by [not found.] and the advice to run [npm
    run remote-config:init] first. *)
Theorem deploy_without_config_file (env : Env) (fuel attempt : nat) (log : list Call)
    (version branch : string) :
  exec env (length log) GhVersion = ExecOk version ->
  exec env (length log + 1) GitBranchShowCurrent = ExecOk branch ->
  trim branch = "main" \/ trim branch = "master" ->
  existsConfig env (length log + 2) = false ->
  deploy env (Datatypes.S fuel) attempt log
  = Throw (new_Error (RC_CONFIG_PATH env +:+ " not found. Run "
                      +:+ quoted "npm run remote-config:init" +:+ " first."))
      (log ++ [ExecSync GhVersion; ExecSync GitBranchShowCurrent; ExistsSync]).
Proof.
  intros Hgh Hbranch Hmain Hexists. cbn [deploy].
  rewrite (bind_Return _ _ _ _ _ (checkGhInstalled_eq env log)). rewrite Hgh. simpl.
  rewrite (bind_Return _ _ _ _ _ (run_eq env _ _)).
  rewrite length_app. simpl. rewrite Hbranch. simpl.
  unfold bind at 1, ret at 1.
  assert (negb (bool_decide (trim branch = "main"))
          && negb (bool_decide (trim branch = "master")) = false) as ->.
  { destruct Hmain as [->| ->]; by vm_compute. }
  unfold validateRemoteConfig. unfold bind at 1. unfold bind at 1, call at 1.
  rewrite !length_app. simpl.
  replace (length log + 1 + 1) with (length log + 2) by lia.
  rewrite Hexists. simpl. unfold throw. by rewrite <- !app_assoc.
Qed.

Lemma deploy_without_config_file_witness :
  deploy env_without_file 1 1 []
  = Throw (new_Error ("/srv/argbase/scripts/framework/remote-config.json not found. Run "
                      +:+ quoted "npm run remote-config:init" +:+ " first."))
      [ExecSync GhVersion; ExecSync GitBranchShowCurrent; ExistsSync].
Proof.
  apply (deploy_without_config_file env_without_file 0 1 [] EmptyString ("main" +:+ newline));
    try reflexivity. by left.
Defined.

(** X7.  With [--prod] the deploy routine never looks for, triggers or
    polls a workflow run and never returns [true]: it validates (and if
    need be syncs) Remote Config and stops. *)
Theorem deploy_production (env : Env) (fuel attempt : nat) :
  isProduction env = true ->
  issues (fun c => preflight c = true) (deploy env fuel attempt)
  /\ hoare (fun _ => True) (deploy env fuel attempt) (fun b _ => b = false) (fun _ => True).
Proof.
  intros Hprod. destruct fuel as [|fuel]; cbn [deploy];
    [split; [apply issues_pending | apply hoare_pending]|].
  rewrite !Hprod. split.
  - issues_auto.
  - repeat first
      [ by apply hoare_ret
      | eapply hoare_bind; [apply hoare_any | intros ?; cbv beta]
      | match goal with
        | |- hoare _ (match ?x with _ => _ end) _ _ => destruct x
        end ].
Qed.

Lemma deploy_production_witness :
  issues (fun c => preflight c = true) (deploy env_out_of_sync 5 1).
Proof. by apply deploy_production. Defined.

Lemma for_of_unfixable (env : Env) (errors : list ErrorEntry) (log : list Call) :
  Forall (fun e => fixable e = false) errors ->
  for_of errors (fun fixed error =>
      bind (if bool_decide (type error = "eslint")
            then bind (run env EslintFix)
                   (fun result => ret match Deploy.error result with
                                      | None => true
                                      | Some _ => fixed
                                      end)
            else ret fixed)
        (fun fixed =>
           if bool_decide (type error = "dependency")
           then for_of (matches error)
                  (fun fixed pkg =>
                     bind (run env (NpmInstall pkg))
                       (fun result => ret match Deploy.error result with
                                          | None => true
                                          | Some _ => fixed
                                          end)) fixed
           else ret fixed)) false log
  = Return false log.
Proof.
  induction 1 as [|e errors He _ IH]; simpl; [done|].
  unfold fixable in He. apply orb_false_iff in He as [-> ->].
  unfold bind at 1. unfold bind at 1. simpl. apply IH.
Qed.

Lemma hoare_run (env : Env) (cmd : Command) (P E : list Call -> Prop) :
  hoare P (run env cmd) (fun _ log => exists log0, P log0 /\ log = log0 ++ [ExecSync cmd]) E.
Proof. intros log HP. rewrite run_eq. by exists log. Qed.

(** X8.  [autoFix] has no fix for a build error: when no entry is of
    type eslint or dependency it runs no command and returns [false].  And
    when it returns [true], it has just committed and pushed: its last
    three commands are [git add -A], the commit and [git push]. *)
Theorem autoFix_pushes_or_fails (env : Env) (errors : list ErrorEntry) (log : list Call) :
  (Forall (fun e => fixable e = false) errors -> autoFix env errors log = Return false log)
  /\ (forall log',
        autoFix env errors log = Return true log' ->
        exists log0,
          log' = log0 ++ [ExecSync GitAddAll;
                          ExecSync (GitCommit "deploy: auto-fix errors");
                          ExecSync GitPush]).
Proof.
  split.
  - intros Hunfixable. unfold autoFix.
    by rewrite (bind_Return _ _ _ _ _ (for_of_unfixable env errors log Hunfixable)).
  - assert (hoare (fun _ => True) (autoFix env errors)
              (fun b log' =>
                 b = true ->
                 exists log0,
                   log' = log0 ++ [ExecSync GitAddAll;
                                   ExecSync (GitCommit "deploy: auto-fix errors");
                                   ExecSync GitPush])
              (fun _ => True)) as H.
    { unfold autoFix.
      eapply hoare_bind; [apply hoare_any|]. intros [|]; [|by apply hoare_ret].
      eapply hoare_bind; [apply hoare_any|]. intros r.
      eapply hoare_bind; [apply hoare_any|]. intros changes.
      destruct (truthy (Some changes)); [|by apply hoare_ret].
      eapply hoare_bind; [apply hoare_run|]. intros ?; cbv beta.
      eapply hoare_bind; [apply hoare_run|]. intros ?; cbv beta.
      eapply hoare_bind; [apply hoare_run|]. intros ?; cbv beta.
      apply hoare_ret. intros l (l2 & (l1 & (l0 & _ & ->) & ->) & ->) _.
      exists l0. by rewrite <- !app_assoc. }
    intros log' Hrun. specialize (H log I). rewrite Hrun in H. by apply H.
Qed.

Lemma autoFix_pushes_or_fails_witness :
  autoFix env_completes [{| type := "build"; matches := ["Failed to compile"] |}] []
  = Return false [].
Proof.
  apply (proj1 (autoFix_pushes_or_fails env_completes _ [])).
  by repeat constructor.
Defined.

Lemma getLatestRunId_eq (env : Env) (commitSha : option string) (log : list Call) :
  getLatestRunId env commitSha log
  = Return match run_list_answer env (length log) with
           | None => None
           | Some data =>
               if truthy commitSha then
                 databaseId <$>
                   List.find (fun r => bool_decide (Some (headSha r) = commitSha)) data
               else
                 let latest := databaseId <$> head data in
                 if truthy_id latest then latest else None
           end
           (log ++ [ExecSync (GhRunList (workflowName env))]).
Proof.
  unfold getLatestRunId, try_catch, run_list_answer. unfold bind at 1.
  rewrite run_eq.
  destruct (exec env (length log) (GhRunList (workflowName env))) as [out|out]; simpl.
  - destruct (parseRunList env out) as [data|]; [|done].
    destruct (truthy commitSha); [|done].
    by destruct (List.find _ data).
  - destruct (out ≫= parseRunList env) as [data|]; [|done].
    destruct (truthy commitSha); [|done].
    by destruct (List.find _ data).
Qed.

(** X9.  [getLatestRunId] never throws: it returns after exactly one
    [gh run list], with [null] when the output cannot be used.  An id
    returned for a commit belongs to a listed run of that commit; for an
    empty or undefined commit sha the id is that of the first listed run,
    whatever its commit. *)
Theorem getLatestRunId_never_throws (env : Env) (commitSha : option string)
    (log : list Call) :
  exists runId,
    getLatestRunId env commitSha log
    = Return runId (log ++ [ExecSync (GhRunList (workflowName env))])
    /\ (run_list_answer env (length log) = None -> runId = None)
    /\ (truthy commitSha = true ->
        forall id, runId = Some id ->
        exists data r,
          run_list_answer env (length log) = Some data
          /\ r ∈ data /\ Some (headSha r) = commitSha /\ databaseId r = id)
    /\ (truthy commitSha = false ->
        forall id, runId = Some id ->
        exists data r,
          run_list_answer env (length log) = Some data
          /\ head data = Some r /\ databaseId r = id /\ id <> 0%N).
Proof.
  rewrite getLatestRunId_eq. eexists. split; [done|].
  destruct (run_list_answer env (length log)) as [data|]; [|by repeat split].
  split; [done|]. split.
  - intros -> id Hid.
    destruct (List.find _ data) as [r|] eqn:Hfind; [|done]. injection Hid as <-.
    apply find_some in Hfind as [Hin Hsha]. apply bool_decide_eq_true in Hsha.
    exists data, r. repeat split; try done. by apply list_elem_of_In.
  - intros -> id Hid. simpl in Hid.
    destruct (head data) as [r|] eqn:Hhead; simpl in Hid; [|done].
    case_bool_decide; simpl in Hid; [done|]. injection Hid as <-.
    by exists data, r.
Qed.

Lemma getLatestRunId_never_throws_witness :
  exists data r,
    run_list_answer env_completes 0 = Some data
    /\ head data = Some r /\ databaseId r = 7%N.
Proof.
  destruct (getLatestRunId_never_throws env_completes (Some EmptyString) [])
    as (runId & Hrun & _ & _ & Hlatest).
  assert (runId = Some 7%N) as -> by (vm_compute in Hrun; congruence).
  destruct (Hlatest eq_refl 7%N eq_refl) as (data & r & ? & ? & ? & _).
  by exists data, r.
Defined.

Lemma for_of_returns {A St : Type} (xs : list A) (body : St -> A -> M St) (s : St)
    (log : list Call) :
  (forall s x log, exists s' log', body s x log = Return s' log') ->
  exists s' log', for_of xs body s log = Return s' log'.
Proof.
  intros Hbody. revert s log. induction xs as [|x xs IH]; intros s log; simpl.
  - by exists s, log.
  - destruct (Hbody s x log) as (s' & log' & Hx).
    rewrite (bind_Return _ _ _ _ _ Hx). apply IH.
Qed.

Lemma run_returns {B : Type} (env : Env) (cmd : Command) (k : RunResult -> M B)
    (log : list Call) :
  (forall r log, exists b log', k r log = Return b log') ->
  exists b log', bind (run env cmd) k log = Return b log'.
Proof. intros Hk. rewrite (bind_Return _ _ _ _ _ (run_eq env cmd log)). apply Hk. Qed.

(** Reading the status of a clean working tree gives the empty string. *)
Lemma status_clean {B : Type} (env : Env) (k : string -> M B) (log : list Call) :
  always_clean env ->
  bind (run env GitStatusPorcelain) (fun r => bind (String_trim (stdout r)) k) log
  = k EmptyString (log ++ [ExecSync GitStatusPorcelain]).
Proof.
  intros Hclean. rewrite (bind_Return _ _ _ _ _ (run_eq env GitStatusPorcelain log)).
  destruct (Hclean (length log)) as (out & -> & Htrim). simpl.
  unfold bind, ret. by rewrite Htrim.
Qed.

Lemma issues_bind_status {B : Type} (env : Env) (S : Call -> Prop) (k : string -> M B) :
  always_clean env -> S (ExecSync GitStatusPorcelain) -> issues S (k EmptyString) ->
  issues S (bind (run env GitStatusPorcelain) (fun r => bind (String_trim (stdout r)) k)).
Proof.
  intros Hclean HS Hk log. rewrite status_clean by done.
  specialize (Hk (log ++ [ExecSync GitStatusPorcelain])).
  destruct (k EmptyString _) as [b l|e l|]; [| |done];
    destruct Hk as (new & -> & Hnew); exists (ExecSync GitStatusPorcelain :: new);
    (split; [by rewrite <- app_assoc | by constructor]).
Qed.

Lemma issues_bind_post {A B : Type} (S : Call -> Prop) (Q : A -> Prop) (m : M A)
    (k : A -> M B) :
  issues S m -> (forall log, match m log with Return a _ => Q a | _ => True end) ->
  (forall a, Q a -> issues S (k a)) -> issues S (bind m k).
Proof.
  intros Hm HQ Hk log. unfold bind. specialize (Hm log). specialize (HQ log).
  destruct (m log) as [a l|e l|]; [|done|done].
  destruct Hm as (new & -> & Hnew). specialize (Hk a HQ (log ++ new)).
  destruct (k a (log ++ new)) as [b l|e l|]; [| |done];
    destruct Hk as (new' & -> & Hnew'); exists (new ++ new');
    (split; [by rewrite app_assoc | by apply Forall_app]).
Qed.

Lemma at_most_bind_status {B : Type} (env : Env) (w : Call -> bool) (n : nat)
    (k : string -> M B) :
  always_clean env -> w (ExecSync GitStatusPorcelain) = false -> at_most w n (k EmptyString) ->
  at_most w n (bind (run env GitStatusPorcelain) (fun r => bind (String_trim (stdout r)) k)).
Proof.
  intros Hclean Hw Hk log. rewrite status_clean by done.
  specialize (Hk (log ++ [ExecSync GitStatusPorcelain])).
  destruct (k EmptyString _) as [b l|e l|]; [| |done];
    destruct Hk as (new & -> & Hnew); exists (ExecSync GitStatusPorcelain :: new);
    (split; [by rewrite <- app_assoc|]);
    unfold count_calls in *; by rewrite filter_cons_False by (by rewrite Hw).
Qed.

Lemma at_most_bind_post {A B : Type} (w : Call -> bool) (n : nat) (Q : A -> Prop)
    (m : M A) (k : A -> M B) :
  issues (fun c => w c = false) m ->
  (forall log, match m log with Return a _ => Q a | _ => True end) ->
  (forall a, Q a -> at_most w n (k a)) -> at_most w n (bind m k).
Proof.
  intros Hm HQ Hk log. unfold bind. specialize (Hm log). specialize (HQ log).
  destruct (m log) as [a l|e l|]; [| |done].
  - destruct Hm as (new & -> & Hnew). specialize (Hk a HQ (log ++ new)).
    destruct (k a (log ++ new)) as [b l|e l|]; [| |done];
      destruct Hk as (new' & -> & Hnew'); exists (new ++ new');
      (split; [by rewrite app_assoc|]);
      by rewrite count_calls_app, (count_calls_none _ _ Hnew).
  - destruct Hm as (new & -> & Hnew). exists new. split; [done|].
    rewrite (count_calls_none _ _ Hnew). lia.
Qed.

(** With a clean working tree [autoFix] returns [false]. *)
Lemma autoFix_clean_returns (env : Env) (errors : list ErrorEntry) (log : list Call) :
  always_clean env ->
  exists log', autoFix env errors log = Return false log'.
Proof.
  intros Hclean. unfold autoFix.
  match goal with
  | |- context [for_of errors ?body false] =>
      destruct (for_of_returns errors body false log) as (fixed & log1 & Hloop)
  end.
  { intros fixed error l.
    assert (forall fixed l, exists fixed' l',
               (if bool_decide (type error = "dependency")
                then for_of (matches error)
                       (fun fixed pkg =>
                          bind (run env (NpmInstall pkg))
                            (fun result => ret match Deploy.error result with
                                               | None => true
                                               | Some _ => fixed
                                               end)) fixed
                else ret fixed) l = Return fixed' l') as Hdep.
    { intros fixed0 l0. case_bool_decide; [|by eexists _, _].
      apply for_of_returns. intros s pkg l1. apply run_returns. intros r l2.
      by eexists _, _. }
    assert (exists fixed1 l1,
               (if bool_decide (type error = "eslint")
                then bind (run env EslintFix)
                       (fun result => ret match Deploy.error result with
                                          | None => true
                                          | Some _ => fixed
                                          end)
                else ret fixed) l = Return fixed1 l1) as (fixed1 & l1 & Heslint).
    { destruct (bool_decide (type error = "eslint")); [|by eexists _, _].
      apply run_returns. intros r l2. by eexists _, _. }
    destruct (Hdep fixed1 l1) as (fixed2 & l2 & Hdependency).
    exists fixed2, l2. cbv beta. by rewrite (bind_Return _ _ _ _ _ Heslint). }
  rewrite (bind_Return _ _ _ _ _ Hloop). destruct fixed; [|by eexists].
  rewrite status_clean by done. by eexists.
Qed.

Lemma autoFix_clean_false (env : Env) (errors : list ErrorEntry) :
  always_clean env ->
  forall log, match autoFix env errors log with Return a _ => a = false | _ => True end.
Proof.
  intros Hclean log. by destruct (autoFix_clean_returns env errors log Hclean) as (log' & ->).
Qed.

(** With a clean working tree [autoFix] runs its fixes and [git status]
    only. *)
Lemma autoFix_clean_issues (env : Env) (S : Call -> Prop) (errors : list ErrorEntry) :
  always_clean env ->
  S (ExecSync EslintFix) -> (forall pkg, S (ExecSync (NpmInstall pkg))) ->
  S (ExecSync GitStatusPorcelain) ->
  issues S (autoFix env errors).
Proof.
  intros Hclean Heslint Hnpm Hstatus. unfold autoFix.
  apply issues_bind; [issues_rules; eauto|].
  intros [|]; [|apply issues_ret].
  apply issues_bind_status; [done|done|]. cbn [truthy bool_decide negb]. apply issues_ret.
Qed.

(** X10.  When the working tree is clean whenever [git status] is asked,
    [autoFix] never throws and returns [false], whatever its fixes did: a
    fix that changes no file counts as no fix.  It has then run nothing
    but [eslint --fix], [npm install] and [git status]. *)
Theorem autoFix_clean_tree (env : Env) (errors : list ErrorEntry) (log : list Call) :
  always_clean env ->
  exists new,
    autoFix env errors log = Return false (log ++ new)
    /\ Forall (fun c => is_fix_or_status c = true) new.
Proof.
  intros Hclean.
  destruct (autoFix_clean_returns env errors log Hclean) as (log' & Hrun).
  pose proof (autoFix_clean_issues env (fun c => is_fix_or_status c = true) errors Hclean
                eq_refl (fun _ => eq_refl) eq_refl log) as Hissues.
  rewrite Hrun in Hissues. destruct Hissues as (new & -> & Hnew). by exists new.
Qed.

Lemma always_clean_env_completes : always_clean env_completes.
Proof. intros t. by exists EmptyString. Qed.

Lemma autoFix_clean_tree_witness :
  exists new,
    autoFix env_completes [{| type := "eslint"; matches := ["error"] |}] []
    = Return false ([] ++ new)
    /\ Forall (fun c => is_fix_or_status c = true) new.
Proof. apply autoFix_clean_tree, always_clean_env_completes. Defined.

Ltac clean_rules Hclean :=
  repeat first
    [ apply issues_ret | apply issues_throw | apply issues_pending
    | apply issues_bind_status; [exact Hclean | reflexivity | cbn [truthy bool_decide negb]]
    | apply issues_bind; [solve [issues_auto; reflexivity]|intros ?]
    | match goal with
      | |- issues _ (match ?x with _ => _ end) => destruct x
      end ].

Ltac clean_at_most_rules Hclean :=
  repeat first
    [ apply at_most_ret | apply at_most_throw | apply at_most_pending
    | apply at_most_bind_status; [exact Hclean | reflexivity | cbn [truthy bool_decide negb]]
    | apply (at_most_bind_post _ _ (fun fixed => fixed = false));
        [by apply autoFix_clean_issues | by apply autoFix_clean_false | intros ? ->]
    | apply at_most_bind_0; [solve [issues_auto; reflexivity]|intros ?]
    | match goal with
      | |- at_most _ _ (match ?x with _ => _ end) => destruct x
      end ].

(** X11.  When the working tree is clean whenever [git status] is
    asked, the deploy routine never stages, commits or pushes, and it
    never retries: it reads [HEAD], which every attempt that gets past the
    guards does, at most once. *)
Theorem deploy_clean_tree (env : Env) (fuel attempt : nat) :
  always_clean env ->
  issues (fun c => is_commit_or_push c = false) (deploy env fuel attempt)
  /\ at_most is_rev_parse 1 (deploy env fuel attempt).
Proof.
  intros Hclean. destruct fuel as [|fuel]; cbn [deploy];
    [split; [apply issues_pending | apply at_most_pending]|].
  split.
  - clean_rules Hclean.
    apply (issues_bind_post _ (fun fixed => fixed = false));
      [by apply autoFix_clean_issues | by apply autoFix_clean_false|].
    intros ? ->. apply issues_ret.
  - clean_at_most_rules Hclean.
    eapply (at_most_bind _ 1 0); [apply at_most_run_1 | intros ? | lia].
    clean_at_most_rules Hclean.
Qed.

Lemma deploy_clean_tree_witness :
  issues (fun c => is_commit_or_push c = false) (deploy env_completes 10 1)
  /\ at_most is_rev_parse 1 (deploy env_completes 10 1).
Proof. apply deploy_clean_tree, always_clean_env_completes. Defined.

Lemma count_calls_cons (w : Call -> bool) (c : Call) (new : list Call) :
  count_calls w (c :: new) = (if w c then 1 else 0) + count_calls w new.
Proof.
  unfold count_calls. destruct (w c) eqn:Hc.
  - by rewrite filter_cons_True.
  - by rewrite filter_cons_False by (by rewrite Hc).
Qed.

Lemma wait_trace_snoc (workflow : string) (n : nat) :
  wait_trace workflow (Datatypes.S n)
  = wait_trace workflow n ++ [Sleep 5000; ExecSync (GhRunList workflow)].
Proof. induction n as [|n IH]; [done|]. cbn [wait_trace] in *. by rewrite IH at 1. Qed.

Lemma count_wait_trace (workflow : string) (n : nat) :
  count_calls is_run_list (wait_trace workflow n) = n.
Proof.
  induction n as [|n IH]; [done|]. cbn [wait_trace].
  rewrite !count_calls_cons, IH. simpl. lia.
Qed.

Lemma waitForRun_trace (env : Env) (remaining : nat) (pushedCommitSha : string)
    (runId : option N) (log : list Call) :
  exists r n,
    waitForRun env remaining pushedCommitSha runId log
    = Return r (log ++ wait_trace (workflowName env) n)
    /\ n <= remaining
    /\ (truthy_id r = false -> n = remaining)
    /\ (truthy_id runId = true -> r = runId /\ n = 0)
    /\ (n = 0 -> r = runId)
    /\ (forall m, n = Datatypes.S m ->
        getLatestRunId env (Some pushedCommitSha)
          (log ++ wait_trace (workflowName env) m ++ [Sleep 5000])
        = Return r (log ++ wait_trace (workflowName env) n)).
Proof.
  revert runId log. induction remaining as [|remaining IH]; intros runId log; simpl.
  - exists runId, 0. simpl. rewrite app_nil_r.
    destruct (truthy_id runId) eqn:Hid; by repeat split.
  - destruct (truthy_id runId) eqn:Hid.
    { exists runId, 0. simpl. rewrite app_nil_r. repeat split; try done; try lia.
      congruence. }
    unfold bind at 1. unfold sleep, call.
    rewrite (bind_Return _ _ _ _ _ (getLatestRunId_eq env _ _)).
    match goal with
    | |- context [waitForRun env remaining pushedCommitSha ?id ?l] =>
        destruct (IH id l) as (r & n & Hrun & Hle & Hnone & _ & Hzero & Hlast);
        set (answer := id) in *
    end.
    rewrite Hrun. exists r, (Datatypes.S n). cbn [wait_trace].
    split; [by rewrite <- !app_assoc|]. split; [lia|].
    split; [intros Hr; specialize (Hnone Hr); lia|]. split; [done|]. split; [done|].
    intros m [= <-]. destruct n as [|n'].
    + rewrite (Hzero eq_refl). simpl. rewrite getLatestRunId_eq.
      by rewrite <- !app_assoc.
    + specialize (Hlast n' eq_refl).
      rewrite <- !app_assoc in Hlast. cbn [wait_trace app] in Hlast |- *.
      exact Hlast.
Qed.

Lemma at_most_getLatestRunId (env : Env) (commitSha : option string) (n : nat) :
  at_most is_run_list (Datatypes.S n) (getLatestRunId env commitSha).
Proof.
  intros log. rewrite getLatestRunId_eq. eexists. split; [done|].
  rewrite count_calls_cons. simpl. unfold count_calls. simpl. lia.
Qed.

Lemma at_most_waitForRun (env : Env) (remaining : nat) (pushedCommitSha : string)
    (runId : option N) :
  at_most is_run_list remaining (waitForRun env remaining pushedCommitSha runId).
Proof.
  intros log.
  destruct (waitForRun_trace env remaining pushedCommitSha runId log)
    as (r & n & -> & Hle & _).
  eexists. split; [done|]. by rewrite count_wait_trace.
Qed.

Lemma deploy_at_most_run_lists (env : Env) (fuel attempt : nat) :
  at_most is_run_list (14 * (MAX_ATTEMPTS + 1 - attempt)) (deploy env fuel attempt).
Proof.
  revert attempt. induction fuel as [|fuel IH]; intros attempt; cbn [deploy].
  { apply at_most_pending. }
  at_most_rules.
  match goal with H : bool_decide (MAX_ATTEMPTS < attempt) = false |- _ =>
    apply bool_decide_eq_false in H end.
  unfold MAX_ATTEMPTS in *.
  eapply (at_most_bind _ 1 (13 + 14 * (5 - attempt)));
    [apply at_most_getLatestRunId | intros ? | lia].
  at_most_rules.
  eapply (at_most_bind _ 1 (12 + 14 * (5 - attempt)));
    [apply at_most_getLatestRunId | intros ? | lia].
  eapply (at_most_bind _ 12 (14 * (5 - attempt)));
    [apply at_most_waitForRun | intros ? | lia].
  at_most_rules.
  replace (5 - attempt) with (5 + 1 - (attempt + 1)) by lia.
  apply IH.
Qed.

(** X12.  The wait for the workflow run of the pushed commit always ends
    and never throws.  It makes no call when it is entered with a run id;
    otherwise it goes through rounds of one sleep of five seconds followed
    by one [gh run list] of the workflow, and nothing else, at most
    [remaining] of them; it returns what the last query found, and gives
    up with a falsy id only after all [remaining] rounds.  In [deploy]
    the bound is 12: with the query before the commit and the one after
    the push, an attempt that gets past the guards makes at most 14
    queries of the run list. *)
Theorem waitForRun_bounded (env : Env) (remaining : nat) (pushedCommitSha : string)
    (runId : option N) (log : list Call) :
  (exists r n,
     waitForRun env remaining pushedCommitSha runId log
     = Return r (log ++ wait_trace (workflowName env) n)
     /\ n <= remaining
     /\ (truthy_id r = false -> n = remaining)
     /\ (truthy_id runId = true -> r = runId /\ n = 0)
     /\ (n = 0 -> r = runId)
     /\ (forall m, n = Datatypes.S m ->
         getLatestRunId env (Some pushedCommitSha)
           (log ++ wait_trace (workflowName env) m ++ [Sleep 5000])
         = Return r (log ++ wait_trace (workflowName env) n)))
  /\ (forall fuel attempt,
        at_most is_run_list (14 * (MAX_ATTEMPTS + 1 - attempt)) (deploy env fuel attempt)).
Proof.
  split; [apply waitForRun_trace|]. intros fuel attempt. apply deploy_at_most_run_lists.
Qed.

Lemma waitForRun_env_no_runs :
  exists log', waitForRun env_no_runs 12 "4f2a9c1" None [] = Return None log'.
Proof. eexists. vm_compute. reflexivity. Qed.

Lemma waitForRun_bounded_witness :
  waitForRun env_no_runs 12 "4f2a9c1" None []
  = Return None ([] ++ wait_trace (workflowName env_no_runs) 12).
Proof.
  destruct waitForRun_env_no_runs as (log' & Hrun).
  destruct (waitForRun_bounded env_no_runs 12 "4f2a9c1" None [])
    as [(r & n & Hr & _ & Hfalsy & _) _].
  rewrite Hrun in Hr. injection Hr as <- Hlog.
  rewrite Hrun, Hlog. by rewrite (Hfalsy eq_refl).
Defined.

(** X13.  [pollRun] never throws.  When it returns, it returns the first
    answer that says completed, after rounds of one status query and one
    sleep each: five seconds after an answer that cannot be used, the
    polling interval after one that is not completed; it makes no other
    call.  It is still polling only when no answer so far was completed. *)
Theorem pollRun_polls (env : Env) (fuel : nat) (runId : N) (log : list Call) :
  match pollRun env fuel runId log with
  | Return statusResult log' =>
      exists n,
        n < fuel
        /\ log' = log ++ poll_trace env runId (length log) n
                      ++ [ExecSync (GhRunViewStatus runId)]
        /\ status_answer env (length log + 2 * n) runId = Some statusResult
        /\ status statusResult = Some "completed"
        /\ forall i, i < n -> completed (status_answer env (length log + 2 * i) runId) = false
  | Throw _ _ => False
  | Pending =>
      forall i, i < fuel -> completed (status_answer env (length log + 2 * i) runId) = false
  end.
Proof.
  revert log. induction fuel as [|fuel IH]; intros log; [simpl; lia|].
  rewrite pollRun_unfold. cbv zeta.
  assert (forall ms,
            ms = poll_wait (status_answer env (length log) runId) ->
            completed (status_answer env (length log) runId) = false ->
            match bind (sleep ms) (fun _ => pollRun env fuel runId)
                    (log ++ [ExecSync (GhRunViewStatus runId)]) with
            | Return statusResult log' =>
                exists n,
                  n < Datatypes.S fuel
                  /\ log' = log ++ poll_trace env runId (length log) n
                                ++ [ExecSync (GhRunViewStatus runId)]
                  /\ status_answer env (length log + 2 * n) runId = Some statusResult
                  /\ status statusResult = Some "completed"
                  /\ forall i, i < n ->
                       completed (status_answer env (length log + 2 * i) runId) = false
            | Throw _ _ => False
            | Pending =>
                forall i, i < Datatypes.S fuel ->
                  completed (status_answer env (length log + 2 * i) runId) = false
            end) as Hnext.
  { intros ms -> Hnow. cbv [bind sleep call].
    specialize (IH ((log ++ [ExecSync (GhRunViewStatus runId)])
                    ++ [Sleep (poll_wait (status_answer env (length log) runId))])).
    rewrite !length_app in IH. simpl in IH.
    replace (length log + 1 + 1) with (length log + 2) in IH by lia.
    destruct (pollRun env fuel runId _) as [sr l|e l|]; [|done|].
    - destruct IH as (n & Hn & -> & Hanswer & Hsr & Hbefore).
      exists (Datatypes.S n). repeat split; try done.
      + lia.
      + simpl. by rewrite <- !app_assoc.
      + by replace (length log + 2 * Datatypes.S n) with (length log + 2 + (n + (n + 0)))
          by lia.
      + intros [|i] Hi.
        * by replace (length log + 2 * 0) with (length log) by lia.
        * replace (length log + 2 * Datatypes.S i) with (length log + 2 + (i + (i + 0)))
            by lia.
          apply Hbefore. lia.
    - intros [|i] Hi.
      + by replace (length log + 2 * 0) with (length log) by lia.
      + replace (length log + 2 * Datatypes.S i) with (length log + 2 + (i + (i + 0)))
          by lia.
        apply IH. lia. }
  destruct (status_answer env (length log) runId) as [sr|] eqn:Hanswer; [|by apply Hnext].
  case_bool_decide as Hsr; [|apply Hnext; [done | by apply bool_decide_eq_false]].
  exists 0. simpl. repeat split; try done; try lia.
  by replace (length log + 0) with (length log) by lia.
Qed.

Lemma syncRemoteConfig_eq (env : Env) (projectId : string) (log : list Call) :
  syncRemoteConfig env projectId log
  = if existsConfig env (length log) then
      match readConfig env (length log + 1) with
      | None =>
          Throw (new_Error "remote-config.json cannot be read as JSON")
            (log ++ [ExistsSync; ReadConfig])
      | Some config =>
          match token_at env (length log + 2) with
          | None =>
              Throw token_error
                (log ++ [ExistsSync; ReadConfig; ExecSync FirebasePrintAccessToken])
          | Some token =>
              let log' :=
                log ++ [ExistsSync; ReadConfig; ExecSync FirebasePrintAccessToken;
                        FetchPut (remoteConfigUrl projectId) token (buildTemplate config)] in
              match fetchPut env (length log + 3) (remoteConfigUrl projectId) token
                      (buildTemplate config) with
              | HttpOk _ => Return tt log'
              | HttpNotOk text =>
                  Throw (new_Error ("Failed to set Remote Config: " +:+ text)) log'
              | HttpFailed => Throw (new_Error "fetch failed") log'
              end
          end
      end
    else Throw (config_not_found env) (log ++ [ExistsSync]).
Proof.
  unfold syncRemoteConfig. unfold bind at 1, call at 1.
  destruct (existsConfig env (length log)); simpl; [|done].
  unfold bind at 1. unfold readLocalConfig, bind at 1, call at 1.
  rewrite length_app. simpl.
  destruct (readConfig env (length log + 1)) as [config|]; simpl;
    [|by rewrite <- app_assoc].
  unfold bind at 1. unfold setRemoteConfig. unfold bind at 1.
  rewrite getAccessToken_eq, !length_app. simpl.
  replace (length log + 1 + 1) with (length log + 2) by lia.
  destruct (token_at env (length log + 2)) as [token|]; [|by rewrite <- !app_assoc].
  unfold bind at 1, call at 1. rewrite !length_app. simpl.
  replace (length log + 1 + 1 + 1) with (length log + 3) by lia.
  destruct (fetchPut env (length log + 3) (remoteConfigUrl projectId) token
              (buildTemplate config)); simpl; by rewrite <- !app_assoc.
Qed.

(** X21.  [syncRemoteConfig] pushes the template of the local file, once
    (for files that list no conditional values under a name of
    [Object.prototype]).  When it returns, it has made exactly the
    existence check, the read of the file, the token command and one PUT,
    accepted by the server, to the given project, with the token just
    obtained and the template built from what was read.  It throws exactly
    when the file is missing (the not-found error, after the existence
    check alone), does not parse, no token is to be had, or the PUT is not
    accepted; and it never reads the live template. *)
Theorem syncRemoteConfig_puts_template (env : Env) (projectId : string) (log : list Call) :
  never_pollutes env ->
  match syncRemoteConfig env projectId log with
  | Return _ log' =>
      exists config token body,
        existsConfig env (length log) = true
        /\ readConfig env (length log + 1) = Some config
        /\ token_at env (length log + 2) = Some token
        /\ log' = log ++ [ExistsSync; ReadConfig; ExecSync FirebasePrintAccessToken;
                          FetchPut (remoteConfigUrl projectId) token (buildTemplate config)]
        /\ fetchPut env (length log + 3) (remoteConfigUrl projectId) token
             (buildTemplate config) = HttpOk body
  | Throw e log' =>
      log' = log ++ sync_calls env projectId (length log)
      /\ Forall (fun c => is_get c = false) (sync_calls env projectId (length log))
      /\ (existsConfig env (length log) = false
           /\ e = new_Error (RC_CONFIG_PATH env +:+ " not found. Run "
                             +:+ quoted "npm run remote-config:init" +:+ " first.")
           /\ log' = log ++ [ExistsSync]
          \/ existsConfig env (length log) = true
             /\ (readConfig env (length log + 1) = None
                 \/ exists config,
                      readConfig env (length log + 1) = Some config
                      /\ (token_at env (length log + 2) = None
                          \/ exists token,
                               token_at env (length log + 2) = Some token
                               /\ forall body,
                                    fetchPut env (length log + 3) (remoteConfigUrl projectId)
                                      token (buildTemplate config) <> HttpOk body)))
  | Pending => False
  end.
Proof.
  intros _. pose proof (syncRemoteConfig_calls env projectId log) as Hcalls.
  pose proof (sync_calls_no_get env projectId (length log)) as Hget.
  rewrite syncRemoteConfig_eq in *.
  destruct (existsConfig env (length log)) eqn:Hexists.
  2:{ split; [done|]. split; [done|]. by left. }
  destruct (readConfig env (length log + 1)) as [config|] eqn:Hread.
  2:{ split; [done|]. split; [done|]. right. split; [done|]. by left. }
  destruct (token_at env (length log + 2)) as [token|] eqn:Htoken.
  2:{ split; [done|]. split; [done|]. right. split; [done|]. right.
      exists config. split; [done|]. by left. }
  cbv zeta in *.
  destruct (fetchPut env (length log + 3) (remoteConfigUrl projectId) token
              (buildTemplate config)) as [body|text|] eqn:Hput.
  - by exists config, token, body.
  - split; [done|]. split; [done|]. right. split; [done|]. right.
    exists config. split; [done|]. right. exists token. split; [done|]. congruence.
  - split; [done|]. split; [done|]. right. split; [done|]. right.
    exists config. split; [done|]. right. exists token. split; [done|]. congruence.
Qed.

Lemma some_fix_succeeds_app (env : Env) (t : nat) (xs ys : list Command) :
  some_fix_succeeds env t (xs ++ ys)
  = some_fix_succeeds env t xs || some_fix_succeeds env (t + length xs) ys.
Proof.
  revert t. induction xs as [|x xs IH]; intros t; cbn [some_fix_succeeds app length].
  - by rewrite Nat.add_0_r.
  - rewrite IH, orb_assoc. do 2 f_equal. lia.
Qed.

Lemma run_then_fixed (env : Env) (cmd : Command) (fixed : bool) (log : list Call) :
  bind (run env cmd)
    (fun result => ret match Deploy.error result with
                       | None => true
                       | Some _ => fixed
                       end) log
  = Return (fixed || some_fix_succeeds env (length log) [cmd]) (log ++ [ExecSync cmd]).
Proof.
  rewrite (bind_Return _ _ _ _ _ (run_eq env cmd log)). unfold ret.
  cbn [some_fix_succeeds]. destruct (exec env (length log) cmd); destruct fixed; reflexivity.
Qed.

Lemma install_loop_trace (env : Env) (pkgs : list string) (fixed : bool) (log : list Call) :
  for_of pkgs
    (fun fixed pkg =>
       bind (run env (NpmInstall pkg))
         (fun result => ret match Deploy.error result with
                            | None => true
                            | Some _ => fixed
                            end)) fixed log
  = Return (fixed || some_fix_succeeds env (length log) (NpmInstall <$> pkgs))
      (log ++ (ExecSync <$> (NpmInstall <$> pkgs))).
Proof.
  revert fixed log. induction pkgs as [|pkg pkgs IH]; intros fixed log.
  - cbn. by rewrite app_nil_r, orb_false_r.
  - cbn [for_of]. rewrite (bind_Return _ _ _ _ _ (run_then_fixed env _ fixed log)).
    rewrite IH, length_app. cbn [length fmap list_fmap some_fix_succeeds].
    replace (length log + 1) with (Datatypes.S (length log)) by lia.
    by rewrite <- app_assoc, orb_false_r, <- orb_assoc.
Qed.

Lemma fix_loop_trace (env : Env) (errors : list ErrorEntry) (fixed : bool) (log : list Call) :
  for_of errors (fun fixed error =>
      bind (if bool_decide (type error = "eslint")
            then bind (run env EslintFix)
                   (fun result => ret match Deploy.error result with
                                      | None => true
                                      | Some _ => fixed
                                      end)
            else ret fixed)
        (fun fixed =>
           if bool_decide (type error = "dependency")
           then for_of (matches error)
                  (fun fixed pkg =>
                     bind (run env (NpmInstall pkg))
                       (fun result => ret match Deploy.error result with
                                          | None => true
                                          | Some _ => fixed
                                          end)) fixed
           else ret fixed)) fixed log
  = Return (fixed || some_fix_succeeds env (length log) (fix_commands errors))
      (log ++ (ExecSync <$> fix_commands errors)).
Proof.
  revert fixed log. induction errors as [|error errors IH]; intros fixed log.
  - cbn. by rewrite app_nil_r, orb_false_r.
  - cbn [for_of fix_commands flat_map].
    set (eslint := if bool_decide (type error = "eslint") then [EslintFix] else []).
    set (installs := if bool_decide (type error = "dependency")
                     then NpmInstall <$> matches error else []).
    assert ((if bool_decide (type error = "eslint")
             then bind (run env EslintFix)
                    (fun result => ret match Deploy.error result with
                                       | None => true
                                       | Some _ => fixed
                                       end)
             else ret fixed) log
            = Return (fixed || some_fix_succeeds env (length log) eslint)
                (log ++ (ExecSync <$> eslint))) as Heslint.
    { subst eslint. destruct (bool_decide (type error = "eslint")).
      - apply run_then_fixed.
      - cbn. by rewrite app_nil_r, orb_false_r. }
    assert (forall fixed1 log1,
               (if bool_decide (type error = "dependency")
                then for_of (matches error)
                       (fun fixed pkg =>
                          bind (run env (NpmInstall pkg))
                            (fun result => ret match Deploy.error result with
                                               | None => true
                                               | Some _ => fixed
                                               end)) fixed1
                else ret fixed1) log1
               = Return (fixed1 || some_fix_succeeds env (length log1) installs)
                   (log1 ++ (ExecSync <$> installs))) as Hdependency.
    { intros fixed1 log1. subst installs. destruct (bool_decide (type error = "dependency")).
      - apply install_loop_trace.
      - cbn. by rewrite app_nil_r, orb_false_r. }
    rewrite (bind_Return _ _ _ _ _
               (eq_trans (bind_Return _ _ _ _ _ Heslint) (Hdependency _ _))), IH.
    rewrite !some_fix_succeeds_app, !fmap_app, !length_app, !length_fmap, <- !app_assoc.
    rewrite <- !orb_assoc, Nat.add_assoc. reflexivity.
Qed.

Lemma fix_commands_parseErrors_NoDup (logs : string) :
  NoDup (fix_commands (parseErrors logs)).
Proof.
  rewrite ParseErrorsFacts.parseErrors_eq. unfold fix_commands.
  rewrite !flat_map_app.
  assert (forall (ms : option (list string)) (ty : string),
             ty <> "dependency" ->
             flat_map (fun error =>
                 (if bool_decide (type error = "eslint") then [EslintFix] else [])
                 ++ (if bool_decide (type error = "dependency")
                     then NpmInstall <$> matches error else []))
               match ms with
               | Some ms => [{| type := ty; matches := ms |}]
               | None => []
               end
             = if bool_decide (ty = "eslint") then
                 match ms with Some _ => [EslintFix] | None => [] end
               else []) as Hentry.
  { intros [ms|] ty Hty; simpl; [|by case_bool_decide].
    rewrite (bool_decide_false (ty = "dependency")) by done.
    case_bool_decide; by rewrite ?app_nil_r. }
  rewrite !Hentry by done. simpl.
  assert (NoDup ((if bool_decide (0 < length (depMatches logs))
                  then NpmInstall <$> Set_of (depMatches logs) else [])
                   : list Command)) as Hinstalls.
  { case_bool_decide; [|constructor].
    apply NoDup_fmap_2; [by intros ? ? [=]|].
    rewrite ParseErrorsFacts.Set_of_distinct_in_order.
    apply ParseErrorsFacts.NoDup_distinct_in_order. }
  assert (flat_map (fun error =>
              (if bool_decide (type error = "eslint") then [EslintFix] else [])
              ++ (if bool_decide (type error = "dependency")
                  then NpmInstall <$> matches error else []))
            (if bool_decide (0 < length (depMatches logs))
             then [{| type := "dependency"; matches := Set_of (depMatches logs) |}]
             else [])
          = if bool_decide (0 < length (depMatches logs))
            then NpmInstall <$> Set_of (depMatches logs) else []) as ->.
  { case_bool_decide; [|done]. simpl. by rewrite app_nil_r. }
  destruct (Regex.String_match logs eslintPattern); simpl; [|done].
  apply NoDup_cons. split; [|done].
  case_bool_decide; [|apply not_elem_of_nil].
  by intros (pkg & [=] & _)%list_elem_of_fmap.
Qed.

(** X22.  What [autoFix] does, exactly.  It runs the fixes of its
    entries in order, one [eslint --fix] for an eslint entry and one [npm
    install] for each match of a dependency entry.  When none of them
    exits with status zero it returns [false] and runs nothing else.
    When one does, it asks [git status]: with output that is not blank
    it stages, commits with the message [deploy: auto-fix errors], pushes
    and returns [true]; with blank output it returns [false]; with no
    output to trim it throws.  On the entries scraped from a log no fix
    runs twice. *)
Theorem autoFix_trace (env : Env) (errors : list ErrorEntry) (log : list Call) :
  autoFix env errors log
  = (if some_fix_succeeds env (length log) (fix_commands errors) then
       match status_output env (length log + length (fix_commands errors)) with
       | Some out =>
           if bool_decide (trim out = EmptyString)
           then Return false (log ++ (ExecSync <$> fix_commands errors)
                                  ++ [ExecSync GitStatusPorcelain])
           else Return true (log ++ (ExecSync <$> fix_commands errors)
                                 ++ [ExecSync GitStatusPorcelain; ExecSync GitAddAll;
                                     ExecSync (GitCommit "deploy: auto-fix errors");
                                     ExecSync GitPush])
       | None =>
           Throw (new_Error "Cannot read properties of undefined (reading 'trim')")
             (log ++ (ExecSync <$> fix_commands errors) ++ [ExecSync GitStatusPorcelain])
       end
     else Return false (log ++ (ExecSync <$> fix_commands errors)))
  /\ forall logs, NoDup (fix_commands (parseErrors logs)).
Proof.
  split; [|apply fix_commands_parseErrors_NoDup].
  unfold autoFix. rewrite (bind_Return _ _ _ _ _ (fix_loop_trace env errors false log)).
  cbn [orb]. destruct (some_fix_succeeds env (length log) (fix_commands errors)); [|done].
  rewrite (bind_Return _ _ _ _ _ (run_eq env GitStatusPorcelain _)).
  unfold status_output. rewrite length_app, length_fmap.
  destruct (exec env (length log + length (fix_commands errors)) GitStatusPorcelain)
    as [out|[out|]]; cbn [stdout String_trim]; [| |by rewrite <- app_assoc].
  all: unfold bind at 1, ret at 1; cbn [truthy];
    destruct (bool_decide (trim out = EmptyString)); cbn [negb];
    [ unfold ret; by rewrite <- app_assoc |];
    rewrite (bind_Return _ _ _ _ _ (run_eq env GitAddAll _));
    rewrite (bind_Return _ _ _ _ _ (run_eq env (GitCommit _) _));
    rewrite (bind_Return _ _ _ _ _ (run_eq env GitPush _));
    unfold ret; by rewrite <- !app_assoc.
Qed.

Lemma env_completes_at_20 : completed (status_answer env_completes 20 7) = true.
Proof. vm_compute. reflexivity. Qed.

Lemma pollRun_polls_witness :
  exists statusResult log',
    pollRun env_completes 30 7 [] = Return statusResult log'
    /\ status statusResult = Some "completed".
Proof.
  pose proof (pollRun_polls env_completes 30 7 []) as H.
  destruct (pollRun env_completes 30 7 []) as [statusResult log'|e log'|].
  - destruct H as (n & _ & _ & _ & Hcompleted & _). by exists statusResult, log'.
  - destruct H.
  - specialize (H 10). change (length [] + 2 * 10) with 20 in H.
    rewrite env_completes_at_20 in H. discriminate H. lia.
Defined.

Lemma syncRemoteConfig_env_out_of_sync :
  exists log', syncRemoteConfig env_out_of_sync "argbase-prod" [] = Return tt log'.
Proof. eexists. vm_compute. reflexivity. Qed.

Lemma syncRemoteConfig_puts_template_witness :
  exists token,
    syncRemoteConfig env_out_of_sync "argbase-prod" []
    = Return tt ([] ++ [ExistsSync; ReadConfig; ExecSync FirebasePrintAccessToken;
                        FetchPut (remoteConfigUrl "argbase-prod") token
                          (buildTemplate sample_local)]).
Proof.
  destruct syncRemoteConfig_env_out_of_sync as (log' & Hrun).
  pose proof (syncRemoteConfig_puts_template env_out_of_sync "argbase-prod" []
                never_pollutes_env_out_of_sync) as H.
  rewrite Hrun in H. destruct H as (config & token & body & _ & Hread & _ & -> & _).
  injection Hread as <-. by exists token.
Defined.


End DeployFacts.

(** ** The auth context *)

Module AuthFacts.
Import Auth.

(** C8.  [useAuth] throws, with the message [useAuth must be used within
    an AuthProvider], exactly when there is no auth context around it;
    otherwise it returns the context value of the nearest provider, which
    holds [user], [loading], [login], [signup], [loginWithGoogle] and
    [logout]; what it returns is always such a value. *)
Theorem useAuth_throws_iff_no_context {AuthInstance User : Type}
    (providers : list (AuthValue AuthInstance User)) :
  (useAuth providers = Thrown "useAuth must be used within an AuthProvider"
   <-> useContext providers = None)
  /\ (forall message,
        useAuth providers = Thrown message ->
        message = "useAuth must be used within an AuthProvider"
        /\ useContext providers = None)
  /\ (forall context, useContext providers = Some context <-> useAuth providers = Ok context)
  /\ (forall auth st,
        head providers = Some (AuthProvider auth st) ->
        exists context,
          useAuth providers = Ok context
          /\ user context = st_user _ st
          /\ loading context = st_loading _ st
          /\ login context = signInWithEmailAndPassword _ auth
          /\ signup context = createUserWithEmailAndPassword _ auth
          /\ loginWithGoogle context = signInWithPopup _ auth
          /\ logout context = signOut _ auth).
Proof.
  unfold useAuth, useContext.
  destruct (head providers) as [context|].
  - split; [split; intros [=]|]. split; [intros message [=]|].
    split; [intros c; split; intros [= ->]; done|].
    intros auth st [= ->]. eexists. by repeat split.
  - split; [done|]. split; [by intros message [= <-]|].
    split; [intros c; split; intros [=]|]. intros auth st [=].
Qed.

Lemma useAuth_throws_iff_no_context_witness :
  useAuth (AuthInstance := string) (User := string) []
  = Thrown "useAuth must be used within an AuthProvider"
  /\ exists context,
       useAuth [AuthProvider "app" (onAuthStateChanged (Some "ada") initialState)]
       = Ok context
       /\ user context = Some "ada" /\ loading context = false.
Proof.
  split.
  - by apply (useAuth_throws_iff_no_context (AuthInstance := string) (User := string) []).
  - destruct (useAuth_throws_iff_no_context
                [AuthProvider "app" (onAuthStateChanged (Some "ada") initialState)])
      as (_ & _ & _ & H).
    destruct (H "app" (onAuthStateChanged (Some "ada") initialState) eq_refl)
      as (context & Hctx & Huser & Hloading & _).
    by exists context.
Defined.

(** X19.  The value an [AuthProvider] hands on is loading exactly until
    the first auth event arrives, and never again after it; its user is
    the user of the latest event, [null] before the first one and after a
    sign-out. *)
Theorem AuthProvider_after_events {AuthInstance User : Type} (auth : AuthInstance)
    (events : list (option User)) :
  let st := foldl (fun st u => onAuthStateChanged u st) initialState events in
  let value := AuthProvider auth st in
  (loading value = true <-> events = [])
  /\ user value = from_option id None (last events).
Proof.
  induction events as [|u events _] using rev_ind; simpl; [done|].
  rewrite foldl_app, last_snoc. simpl. split; [|done].
  split; [done|]. intros Hnil. by destruct events.
Qed.

Lemma AuthProvider_after_events_witness :
  user (AuthProvider "app" (foldl (fun st u => onAuthStateChanged u st) initialState
                              [Some "ada"; None])) = None
  /\ loading (AuthProvider "app" (foldl (fun st u => onAuthStateChanged u st) initialState
                                    [Some "ada"; None])) <> true.
Proof.
  destruct (AuthProvider_after_events "app" [Some "ada"; None]) as [Hloading Huser].
  split; [exact Huser|]. intros Htrue. by apply Hloading in Htrue.
Defined.

End AuthFacts.

(** ** Feature flags *)

Module FeatureFlagsFacts.
Import JS Auth FeatureFlags.

Section Fetch.
Variable FEATURE_FLAGS : list Flag.






End Fetch.


Section Hook.
Variable FEATURE_FLAGS : list Flag.
Variable sdk : Sdk.


End Hook.




Lemma fetchFeatureFlags_Ok (FEATURE_FLAGS : list Flag) (sdk : Sdk) :
  exists flags, fetchFeatureFlags FEATURE_FLAGS sdk = Ok flags.
Proof.
  unfold fetchFeatureFlags, catchR.
  match goal with |- context [match ?r with Ok _ => _ | Thrown _ => _ end] => destruct r end;
    eauto.
Qed.

(** X16.  For runs of [loadFlag] that come one after the other, a flag
    resolved once stays resolved: a second run that starts on the window
    the first run left behind when it finished, whatever the Remote Config
    SDK does by then, gives the same value and leaves the window as it
    is.  And unless the first run was cut short by the staging or beta
    override, the result of a run that starts after it has finished, for
    any flag, does not depend on the SDK.  This says nothing of runs that
    overlap: the cache is written after the fetch has been awaited, so two
    hooks mounted together both fetch. *)
Theorem loadFlag_stable (FEATURE_FLAGS : list Flag) (sdk sdk' : Sdk)
    (window : option Window) (flagKey : string) :
  let r := loadFlag FEATURE_FLAGS sdk window flagKey in
  loadFlag FEATURE_FLAGS sdk' r.2 flagKey = r
  /\ (~ overridden window flagKey ->
      forall flagKey',
        loadFlag FEATURE_FLAGS sdk' r.2 flagKey' = loadFlag FEATURE_FLAGS sdk r.2 flagKey').
Proof.
  destruct (fetchFeatureFlags_Ok FEATURE_FLAGS sdk) as (flags & Hfetch).
  unfold overridden, loadFlag. rewrite Hfetch.
  destruct window as [w|]; simpl.
  2:{ split; [|intros _ flagKey']; by destruct (bool_decide _). }
  destruct (includes (hostname w) "staging") eqn:Hstaging;
    destruct (bool_decide (flagKey = "navigation_banner")) eqn:Hkey;
    destruct (firstBetaKey (localStorage w)) eqn:Hbeta; simpl;
    rewrite ?Hstaging, ?Hkey, ?Hbeta; simpl;
    try apply bool_decide_eq_true in Hkey;
    try (split; [done|]; intros Hnot; exfalso; apply Hnot; by eauto).
  all: destruct (FLAG_TEST_MODE w) as [testOverride|] eqn:Htest; simpl;
    rewrite ?Hstaging, ?Hkey, ?Hbeta, ?Htest; simpl; [by split|].
  all: destruct (FEATURE_FLAGS_cache w) as [cached|] eqn:Hcache; simpl;
    rewrite ?Hstaging, ?Hkey, ?Hbeta, ?Htest, ?Hcache; simpl; by split.
Qed.

Lemma loadFlag_stable_witness :
  loadFlag sample_flags offline_sdk
    (loadFlag sample_flags sample_sdk (Some production_window) "search_v2").2
    "navigation_banner"
  = loadFlag sample_flags sample_sdk
      (loadFlag sample_flags sample_sdk (Some production_window) "search_v2").2
      "navigation_banner".
Proof.
  apply (loadFlag_stable sample_flags sample_sdk offline_sdk (Some production_window)
           "search_v2").
  intros [Hkey _]. discriminate Hkey.
Defined.

(** X17.  Only the first [beta_enabled_] key of [localStorage] counts:
    the beta is on exactly when the first key with that prefix, in the
    order of [Object.keys], holds the string [true]; later keys with the
    prefix are never read. *)
Theorem getBetaFromStorage_first_key (window : Window) :
  getBetaFromStorage (Some window) = true
  <-> exists before k after,
        localStorage window = before ++ (k, "true") :: after
        /\ startsWith k "beta_enabled_" = true
        /\ Forall (fun entry => startsWith entry.1 "beta_enabled_" = false) before.
Proof.
  unfold getBetaFromStorage. induction (localStorage window) as [|[k v] entries IH]; simpl.
  - split; [done|]. intros (before & k & after & Heq & _). by destruct before.
  - destruct (startsWith k "beta_enabled_") eqn:Hk.
    + rewrite bool_decide_eq_true. split.
      * intros ->. exists [], k, entries. by repeat split.
      * intros ([|[k' v'] before] & k0 & after & Heq & Hk0 & Hbefore).
        -- by injection Heq as _ ->.
        -- injection Heq as -> -> _. apply Forall_cons in Hbefore as [Hk' _]. simpl in Hk'.
           congruence.
    + rewrite IH. split.
      * intros (before & k0 & after & -> & Hk0 & Hbefore).
        exists ((k, v) :: before), k0, after. repeat split; try done.
        by apply Forall_cons.
      * intros ([|[k' v'] before] & k0 & after & Heq & Hk0 & Hbefore).
        -- injection Heq as -> _. congruence.
        -- injection Heq as _ _ ->. apply Forall_cons in Hbefore as [_ Hbefore].
           by exists before, k0, after.
Qed.

Section Success.
Variable FEATURE_FLAGS : list Flag.



End Success.


Lemma getBetaFromStorage_first_key_witness : getBetaFromStorage (Some beta_window) = true.
Proof.
  apply getBetaFromStorage_first_key.
  exists [("theme", "dark")], "beta_enabled_ada", [("beta_enabled_bob", "false")].
  split; [reflexivity|]. split; [reflexivity|]. by repeat constructor.
Defined.

End FeatureFlagsFacts.

(** ** The validator script *)

Module ValidatorScriptFacts.
Import JS RemoteConfig Node NodeFacts ValidatorScript.

Lemma indexOf_found (args : list string) (x : string) :
  indexOf args x <> (-1)%Z <-> x ∈ args.
Proof.
  unfold indexOf. destruct (list_find _ args) as [[i y]|] eqn:Hfind.
  - apply list_find_Some in Hfind as (Hi & -> & _). split; [|lia].
    intros _. by eapply list_elem_of_lookup_2.
  - split; [done|]. intros Hin. apply list_find_None in Hfind.
    rewrite Forall_forall in Hfind. by destruct (Hfind x Hin).
Qed.

Lemma script_targets (env : Env) : issues (targets (getProjectId env)) (script env).
Proof.
  unfold script, main.
  repeat first [progress DeployFacts.issues_rules | progress unfold Validator.getAccessToken];
    first [exact I | exact eq_refl].
Qed.

Lemma deploy_targets (env : Env) (fuel attempt : nat) :
  issues (targets (Deploy.targetProject env)) (Deploy.deploy env fuel attempt).
Proof.
  revert attempt. induction fuel as [|fuel IH]; intros attempt; cbn [Deploy.deploy].
  { apply issues_pending. }
  repeat first
    [ apply DeployFacts.issues_waitForRun | apply DeployFacts.issues_pollRun
    | apply DeployFacts.issues_autoFix | progress DeployFacts.issues_rules ];
    intros; first [exact I | exact eq_refl | apply IH].
Qed.

(** X14.  The validator and the deploy script address the same Firebase
    project from the same arguments: production when [--prod] occurs
    anywhere among them, also after [--staging], and staging otherwise.
    Every request the validator script makes to the Remote Config API, and
    every request [deploy] makes, reads or writes, at any attempt, goes to
    the template of that project. *)
Theorem getProjectId_agrees (env : Env) :
  getProjectId env = (if Deploy.isProduction env then "argbase-prod" else "argbase-staging")
  /\ (getProjectId env = "argbase-prod" <-> "--prod" ∈ args env)
  /\ (getProjectId env = "argbase-staging" <-> "--prod" ∉ args env)
  /\ issues (targets (getProjectId env)) (script env)
  /\ (forall fuel attempt,
        issues (targets (getProjectId env)) (Deploy.deploy env fuel attempt)).
Proof.
  assert (getProjectId env
          = (if Deploy.isProduction env then "argbase-prod" else "argbase-staging")
          /\ (getProjectId env = "argbase-prod" <-> "--prod" ∈ args env)
          /\ (getProjectId env = "argbase-staging" <-> "--prod" ∉ args env))
    as (Hsame & Hprod & Hstaging).
  { unfold getProjectId, Deploy.isProduction. cbv zeta.
    pose proof (indexOf_found (args env) "--prod") as Hprod.
    repeat case_bool_decide; try tauto; (split; [done|]); split; split; try done; tauto. }
  split; [done|]. split; [done|]. split; [done|]. split; [apply script_targets|].
  intros fuel attempt. rewrite Hsame. apply deploy_targets.
Qed.

Lemma getAccessToken_cases (env : Env) (log : list Call) :
  (exists token log', Validator.getAccessToken env log = Return token log')
  \/ (exists e log', Validator.getAccessToken env log = Throw e log').
Proof.
  cbv [Validator.getAccessToken if_truthy try_catch bind execSync call ret throw].
  destruct (FIREBASE_TOKEN env) as [token|]; [case_bool_decide|];
    try destruct (exec env (length log) FirebasePrintAccessToken); eauto.
Qed.

(** X15.  The validator script always exits, with status 0 or 1.  It
    exits with 0 exactly when the local file exists and parses, a token is
    at hand, the template is fetched, [validate] reports no error, and the
    local file has a [parameters] key: warnings never fail the run, but a
    file without [parameters] does, after validation has passed. *)
Theorem script_exit_code (env : Env) (log : list Call) :
  exists code log',
    script env log = Return code log'
    /\ (code = 0%N \/ code = 1%N)
    /\ (code = 0%N <->
        existsConfig env (length log) = true
        /\ exists localConfig remoteConfig token log2,
             readConfig env (length log + 1) = Some localConfig
             /\ Validator.getAccessToken env (log ++ [ExistsSync; ReadConfig])
                = Return token log2
             /\ fetchGet env (length log2) (Deploy.remoteConfigUrl (getProjectId env)) token
                = HttpOk remoteConfig
             /\ errors (validate localConfig remoteConfig) = []
             /\ parameters localConfig <> None).
Proof.
  unfold script, try_catch, main. cbv zeta. generalize validate. intros validate.
  unfold bind at 1, call at 1.
  destruct (existsConfig env (length log)) eqn:Hexists; simpl.
  2:{ eexists _, _. split; [done|]. split; [by right|]. split; [done|]. by intros [? _]. }
  unfold bind at 1. unfold bind at 1, call at 1. rewrite length_app. simpl.
  destruct (readConfig env (length log + 1)) as [localConfig|] eqn:Hread; simpl.
  2:{ eexists _, _. split; [done|]. split; [by right|]. split; [done|].
      by intros (_ & ? & ? & ? & ? & ? & _). }
  unfold bind at 1. unfold getRemoteConfig. unfold bind at 1.
  rewrite <- app_assoc. simpl.
  destruct (getAccessToken_cases env (log ++ [ExistsSync; ReadConfig]))
    as [(token & log2 & Htoken)|(e & log2 & Htoken)]; rewrite Htoken.
  2:{ eexists _, _. split; [done|]. split; [by right|]. split; [done|].
      intros (_ & ? & ? & ? & ? & _ & ? & _). congruence. }
  unfold bind at 1, call at 1.
  destruct (fetchGet env (length log2) _ token) as [remoteConfig|text|] eqn:Hget; simpl.
  2,3: eexists _, _; (split; [done|]); (split; [by right|]); (split; [done|]);
       intros (_ & ? & ? & ? & ? & _ & ? & ? & _); congruence.
  case_bool_decide as Herrors.
  { eexists _, _. split; [done|]. split; [by right|]. split; [done|].
    intros (_ & lc & rc & tk & l2 & ? & ? & ? & Hnone & _).
    assert (lc = localConfig) as -> by congruence.
    assert (tk = token /\ l2 = log2) as [-> ->] by (split; congruence).
    assert (rc = remoteConfig) as -> by congruence.
    rewrite Hnone in Herrors. simpl in Herrors. lia. }
  destruct (parameters localConfig) as [ps|] eqn:Hparameters; simpl.
  - eexists _, _. split; [done|]. split; [by left|]. split; [|done]. intros _.
    split; [done|]. exists localConfig, remoteConfig, token, log2.
    split; [done|]. split; [done|]. split; [done|]. split; [|by rewrite Hparameters].
    destruct (errors (validate localConfig remoteConfig)); [done|simpl in Herrors; lia].
  - eexists _, _. split; [done|]. split; [by right|]. split; [done|].
    intros (_ & lc & ? & ? & ? & ? & _ & _ & _ & Hsome). congruence.
Qed.

Lemma script_without_parameters :
  errors (validate config_without_parameters config_without_parameters) = []
  /\ exists log', script env_without_parameters [] = Return 1%N log'.
Proof. split; [reflexivity|]. by eexists. Qed.

Lemma getProjectId_agrees_witness : getProjectId env_without_parameters = "argbase-prod".
Proof.
  apply (proj1 (proj2 (getProjectId_agrees env_without_parameters))).
  apply list_elem_of_further, list_elem_of_here.
Defined.

Lemma script_exit_code_witness :
  exists log', script env_without_parameters [] = Return 1%N log'.
Proof.
  destruct (script_exit_code env_without_parameters []) as (code & log' & Hrun & Hcode & Hiff).
  destruct Hcode as [->| ->]; [|by exists log'].
  destruct (proj1 Hiff eq_refl) as (_ & lc & rc & tk & l2 & Hread & _ & _ & _ & Hparameters).
  injection Hread as <-. by destruct Hparameters.
Defined.

End ValidatorScriptFacts.
